(** * The Deck client store: stacks, boards and labels

    A shallow embedding of the stack module of [src/store/stack.js] and of
    the root store (boards, labels and filters) that registers it, together
    with the properties their specification states.

    JavaScript objects are shared and mutated in place, so the store is
    modelled over a heap: every object and every array of objects lives at a
    location, and the collections of the store hold locations. *)

From stdpp Require Import gmap strings pretty list sorting.
From Stdlib Require Import ZArith.

Local Open Scope string_scope.
Local Open Scope list_scope.

(** ** Values, objects and the heap *)

Definition loc := positive.

(** The values a field of an entity can hold. Numbers are the integers of
    the data model (ids, order positions, flags); [VRef] points at an object
    or an array on the heap. *)
Inductive val :=
| VUndef
| VNull
| VBool (b : bool)
| VNum (n : Z)
| VStr (s : string)
| VRef (l : loc).

#[global] Instance val_eq_dec : EqDecision val.
Proof. solve_decision. Defined.

(** A heap cell: an object (a finite map from property names to values) or
    an array. The arrays of this store (a board's labels, the cards carried
    by a loaded stack) only hold objects. *)
Inductive cell :=
| Obj (fields : gmap string val)
| Arr (elems : list loc).

Abbreviation heap := (gmap loc cell).

(** [a === b] on the values above. *)
Definition strict_eq (a b : val) : bool := bool_decide (a = b).

(** Truthiness, as [!x], [x && y] and a filter callback's result use it. *)
Definition to_boolean (v : val) : bool :=
  match v with
  | VUndef | VNull => false
  | VBool b => b
  | VNum n => negb (n =? 0)%Z
  | VStr s => negb (String.eqb s "")
  | VRef _ => true
  end.

(** The own properties of the object at [l] (none when [l] is no object). *)
Definition fields_of (h : heap) (l : loc) : gmap string val :=
  match h !! l with
  | Some (Obj f) => f
  | _ => ∅
  end.

(** [o.k] for an object reference [o]: a missing property reads
    [undefined]. *)
Definition get_field (h : heap) (l : loc) (k : string) : val :=
  default VUndef (fields_of h l !! k).

(** [o.k = v]. *)
Definition set_field (h : heap) (l : loc) (k : string) (v : val) : heap :=
  match h !! l with
  | Some (Obj f) => <[l := Obj (<[k := v]> f)]> h
  | _ => h
  end.

(** [delete o.k]. *)
Definition delete_field (h : heap) (l : loc) (k : string) : heap :=
  match h !! l with
  | Some (Obj f) => <[l := Obj (delete k f)]> h
  | _ => h
  end.

(** A new object is allocated at a location the heap does not use yet. *)
Definition alloc (h : heap) (c : cell) : loc * heap :=
  let l := fresh (dom h) in (l, <[l := c]> h).

(** ** Array helpers *)

(** [arr.findIndex(p)]: [None] stands for [-1]. *)
Fixpoint findIndex {A} (p : A → bool) (l : list A) : option nat :=
  match l with
  | [] => None
  | x :: l' => if p x then Some 0%nat else S <$> findIndex p l'
  end.

(** [arr.find(p)]: [None] stands for [undefined]. *)
Fixpoint find {A} (p : A → bool) (l : list A) : option A :=
  match l with
  | [] => None
  | x :: l' => if p x then Some x else find p l'
  end.

(** [arr.splice(i, 1)]: the array without its element at [i]. *)
Definition splice1 {A} (i : nat) (l : list A) : list A :=
  take i l ++ drop (S i) l.

(** [arr.splice(i, 0, x)]: [x] inserted before position [i]; a position
    past the end appends. *)
Definition splice_in {A} (i : nat) (x : A) (l : list A) : list A :=
  take i l ++ x :: drop i l.

(** ** The order helper *)

(** Modelled from the spec: [helpers/applyOrderToArray.js] is imported by
    the stack module and is not among the sources. The specification (4.1)
    gives its contract: it removes the element at
    [removedIndex], re-inserts it at [addedIndex], the position being taken
    in the sequence after the removal, and returns the new sequence without
    touching any [order] field. The contract only covers indices inside the
    sequence; outside of them the sequence is returned as it is. *)
Definition applyOrderToArray {A} (arr : list A) (removedIndex addedIndex : nat)
  : list A :=
  match arr !! removedIndex with
  | Some item => splice_in addedIndex item (splice1 removedIndex arr)
  | None => arr
  end.

(** [arr.sort(cmp)]: the sort is stable. It is written as an insertion
    sort: an element goes before the first element of the sorted rest that
    it does not compare greater than, so elements that compare equal keep
    their relative order. *)
Fixpoint insert_by {A} (cmp : A → A → Z) (x : A) (l : list A) : list A :=
  match l with
  | [] => [x]
  | y :: l' => if (cmp x y <=? 0)%Z then x :: y :: l' else y :: insert_by cmp x l'
  end.

Definition sort_by {A} (cmp : A → A → Z) (l : list A) : list A :=
  foldr (insert_by cmp) [] l.

(** ** The state of the store

    The root state together with the state of the stack module ([stacks])
    and of the card module ([cards]); [objects] is the heap the entities
    live on. *)
Record state := {
  navShown : bool;
  sidebarShown : bool;
  currentBoard : val;
  boards : list loc;
  sharees : val;
  boardFilter : val;
  stacks : list loc;
  cards : list loc;
  objects : heap
}.

Definition with_objects (st : state) (h : heap) : state :=
  {| navShown := navShown st; sidebarShown := sidebarShown st;
     currentBoard := currentBoard st; boards := boards st;
     sharees := sharees st; boardFilter := boardFilter st;
     stacks := stacks st; cards := cards st; objects := h |}.

Definition with_stacks (st : state) (l : list loc) : state :=
  {| navShown := navShown st; sidebarShown := sidebarShown st;
     currentBoard := currentBoard st; boards := boards st;
     sharees := sharees st; boardFilter := boardFilter st;
     stacks := l; cards := cards st; objects := objects st |}.

Definition with_cards (st : state) (l : list loc) : state :=
  {| navShown := navShown st; sidebarShown := sidebarShown st;
     currentBoard := currentBoard st; boards := boards st;
     sharees := sharees st; boardFilter := boardFilter st;
     stacks := stacks st; cards := l; objects := objects st |}.

Definition with_boards (st : state) (l : list loc) : state :=
  {| navShown := navShown st; sidebarShown := sidebarShown st;
     currentBoard := currentBoard st; boards := l;
     sharees := sharees st; boardFilter := boardFilter st;
     stacks := stacks st; cards := cards st; objects := objects st |}.

Definition BOARD_FILTERS_ALL : val := VStr "".
Definition BOARD_FILTERS_ARCHIVED : val := VStr "archived".
Definition BOARD_FILTERS_SHARED : val := VStr "shared".

(** The state the store is created with. *)
Definition initial_state : state :=
  {| navShown := true; sidebarShown := false; currentBoard := VNull;
     boards := []; sharees := VUndef; boardFilter := BOARD_FILTERS_ALL;
     stacks := []; cards := []; objects := ∅ |}.

(** ** Errors *)

Inductive exn := TypeError.

Inductive result (A : Type) :=
| Ok (a : A)
| Throw (e : exn).
Arguments Ok {A} a.
Arguments Throw {A} e.

#[global] Instance result_ret : MRet result := λ A a, Ok a.
#[global] Instance result_bind : MBind result := λ A B f r,
  match r with
  | Ok a => f a
  | Throw e => Throw e
  end.

(** [v.k] for any value [v]: reading a property of [undefined] or [null]
    raises; a property of another primitive reads [undefined]. *)
Definition get_prop (h : heap) (v : val) (k : string) : result val :=
  match v with
  | VUndef | VNull => Throw TypeError
  | VRef l => Ok (get_field h l k)
  | _ => Ok VUndef
  end.

(** The receiver of an array method ([findIndex], [find], [splice], [push]):
    anything but an array has no such method, and the call raises. *)
Definition as_array (h : heap) (v : val) : result (loc * list loc) :=
  match v with
  | VRef a => match h !! a with
              | Some (Arr ls) => Ok (a, ls)
              | _ => Throw TypeError
              end
  | _ => Throw TypeError
  end.

(** ** Getters *)

(** The comparator [(a, b) => a.order - b.order] of the stack module. The
    data model gives every stack an integer [order]; a difference that is
    not a number counts as [0] in a sort, and so does here every difference
    with an [order] that is no number. *)
Definition compare_order (h : heap) (a b : loc) : Z :=
  match get_field h a "order", get_field h b "order" with
  | VNum x, VNum y => (x - y)%Z
  | _, _ => 0%Z
  end.

Definition stacksByBoard (st : state) (id : val) : list loc :=
  sort_by (compare_order (objects st))
    (List.filter (λ stack, strict_eq (get_field (objects st) stack "boardId") id)
       (stacks st)).

Definition noneArchivedBoards (st : state) : list loc :=
  List.filter (λ board,
      strict_eq (get_field (objects st) board "archived") (VBool false)
      && negb (to_boolean (get_field (objects st) board "deletedAt")))
    (boards st).

Definition archivedBoards (st : state) : list loc :=
  List.filter (λ board,
      strict_eq (get_field (objects st) board "archived") (VBool true)
      && negb (to_boolean (get_field (objects st) board "deletedAt")))
    (boards st).

Definition sharedBoards (st : state) : list loc :=
  List.filter (λ board,
      to_boolean (get_field (objects st) board "shared")
      && negb (to_boolean (get_field (objects st) board "deletedAt")))
    (boards st).

(** [helpers/boardToMenuItem.js] is imported by the root store and is not
    among the sources: the projection of a board to its menu item is a
    parameter of [filteredBoards]. *)
Definition filteredBoards {menu_item : Type}
    (boardToMenuItem : heap → loc → menu_item) (st : state) : list menu_item :=
  let boards :=
    List.filter (λ board,
        (strict_eq (boardFilter st) BOARD_FILTERS_ALL
         && strict_eq (get_field (objects st) board "archived") (VBool false))
        || (strict_eq (boardFilter st) BOARD_FILTERS_ARCHIVED
            && strict_eq (get_field (objects st) board "archived") (VBool true))
        || (strict_eq (boardFilter st) BOARD_FILTERS_SHARED
            && strict_eq (get_field (objects st) board "shared") (VNum 1)))
      (boards st) in
  map (boardToMenuItem (objects st)) boards.

Definition currentBoardLabels (st : state) : result val :=
  get_prop (objects st) (currentBoard st) "labels".

(** ** Mutations *)

(** The payload [{ stack, removedIndex, addedIndex }] of a reorder. The
    indices are positions in the ordered stacks of the board. *)
Record order_payload := {
  stack : loc;
  removedIndex : nat;
  addedIndex : nat
}.

(** The loop [for (let i = 0; i < newOrder.length; i++) newOrder[i].order = i],
    started at position [i]. The objects written to are the objects the
    store holds. *)
Fixpoint restamp (i : nat) (newOrder : list loc) (h : heap) : heap :=
  match newOrder with
  | [] => h
  | s :: rest => restamp (S i) rest (set_field h s "order" (VNum (Z.of_nat i)))
  end.

(** [Object.assign({}, existing, incoming)]: a new object with the
    properties of [existing] overwritten by those of [incoming];
    [existing] may be [undefined] and is then skipped. *)
Definition object_assign (h : heap) (existing : option loc) (incoming : loc)
  : gmap string val :=
  fields_of h incoming ∪ from_option (fields_of h) ∅ existing.

Module Mutation.

(** *** The stack module *)

Definition addStack (st : state) (stack : loc) : state :=
  let h := objects st in
  let same_id := λ _stack,
    strict_eq (get_field h _stack "id") (get_field h stack "id") in
  let existingIndex := findIndex same_id (stacks st) in
  match existingIndex with
  | Some existingIndex =>
      let existingStack := find same_id (stacks st) in
      let '(merged, h') := alloc h (Obj (object_assign h existingStack stack)) in
      with_objects (with_stacks st (<[existingIndex := merged]> (stacks st))) h'
  | None => with_stacks st (stacks st ++ [stack])
  end.

Definition orderStack (st : state) (p : order_payload) : state :=
  let h := objects st in
  let currentOrder :=
    sort_by (compare_order h)
      (List.filter (λ _stack,
           strict_eq (get_field h _stack "boardId") (get_field h (stack p) "boardId"))
         (stacks st)) in
  let newOrder := applyOrderToArray currentOrder (removedIndex p) (addedIndex p) in
  with_objects st (restamp 0 newOrder h).

Definition deleteStack (st : state) (stack : loc) : state :=
  let h := objects st in
  let existingIndex :=
    findIndex (λ _stack,
        strict_eq (get_field h _stack "id") (get_field h stack "id")) (stacks st) in
  match existingIndex with
  | Some existingIndex => with_stacks st (splice1 existingIndex (stacks st))
  | None => st
  end.

Definition updateStack (st : state) (stack : loc) : state :=
  let h := objects st in
  let existingIndex :=
    findIndex (λ _stack,
        strict_eq (get_field h _stack "id") (get_field h stack "id")) (stacks st) in
  match existingIndex with
  | Some existingIndex => with_stacks st (<[existingIndex := stack]> (stacks st))
  | None => st
  end.

(** *** The card module *)

(** Modelled from the spec: [store/card.js] is not among the sources. The
    specification (4.2) gives the card store the pattern of the stack
    store: [add] is an upsert by id that merges the new fields over an
    existing record with the same id and appends otherwise. *)
Definition addCard (st : state) (card : loc) : state :=
  let h := objects st in
  let same_id := λ _card,
    strict_eq (get_field h _card "id") (get_field h card "id") in
  match findIndex same_id (cards st) with
  | Some existingIndex =>
      let existingCard := find same_id (cards st) in
      let '(merged, h') := alloc h (Obj (object_assign h existingCard card)) in
      with_objects (with_cards st (<[existingIndex := merged]> (cards st))) h'
  | None => with_cards st (cards st ++ [card])
  end.

(** *** The root store *)

Definition addBoard (st : state) (board : loc) : state :=
  let h := objects st in
  let indexExisting :=
    findIndex (λ b, strict_eq (get_field h board "id") (get_field h b "id"))
      (boards st) in
  match indexExisting with
  | Some indexExisting => with_boards st (<[indexExisting := board]> (boards st))
  | None => with_boards st (boards st ++ [board])
  end.

Definition removeBoard (st : state) (board : loc) : state :=
  let h := objects st in
  with_boards st
    (List.filter (λ b,
         negb (strict_eq (get_field h board "id") (get_field h b "id")))
       (boards st)).

Definition toggleNav (st : state) : state :=
  {| navShown := negb (navShown st); sidebarShown := sidebarShown st;
     currentBoard := currentBoard st; boards := boards st;
     sharees := sharees st; boardFilter := boardFilter st;
     stacks := stacks st; cards := cards st; objects := objects st |}.

Definition toggleSidebar (st : state) : state :=
  {| navShown := navShown st; sidebarShown := negb (sidebarShown st);
     currentBoard := currentBoard st; boards := boards st;
     sharees := sharees st; boardFilter := boardFilter st;
     stacks := stacks st; cards := cards st; objects := objects st |}.

Definition setBoards (st : state) (boards : list loc) : state :=
  with_boards st boards.

Definition setSharees (st : state) (sharees : val) : state :=
  {| navShown := navShown st; sidebarShown := sidebarShown st;
     currentBoard := currentBoard st; boards := boards st;
     sharees := sharees; boardFilter := boardFilter st;
     stacks := stacks st; cards := cards st; objects := objects st |}.

Definition setBoardFilter (st : state) (filter : val) : state :=
  {| navShown := navShown st; sidebarShown := sidebarShown st;
     currentBoard := currentBoard st; boards := boards st;
     sharees := sharees st; boardFilter := filter;
     stacks := stacks st; cards := cards st; objects := objects st |}.

Definition setCurrentBoard (st : state) (board : val) : state :=
  {| navShown := navShown st; sidebarShown := sidebarShown st;
     currentBoard := board; boards := boards st;
     sharees := sharees st; boardFilter := boardFilter st;
     stacks := stacks st; cards := cards st; objects := objects st |}.

(** Label mutators: they work on [state.currentBoard.labels]. *)

Definition removeLabelFromCurrentBoard (st : state) (labelId : val)
  : result state :=
  let h := objects st in
  labels ← get_prop h (currentBoard st) "labels";
  '(arr, ls) ← as_array h labels;
  let removeIndex :=
    findIndex (λ l, strict_eq labelId (get_field h l "id")) ls in
  match removeIndex with
  | Some removeIndex =>
      Ok (with_objects st (<[arr := Arr (splice1 removeIndex ls)]> h))
  | None => Ok st
  end.

Definition updateLabelFromCurrentBoard (st : state) (newLabel : loc)
  : result state :=
  let h := objects st in
  labels ← get_prop h (currentBoard st) "labels";
  '(arr, ls) ← as_array h labels;
  let labelToUpdate :=
    find (λ l, strict_eq (get_field h newLabel "id") (get_field h l "id")) ls in
  match labelToUpdate with
  | None => Throw TypeError
  | Some labelToUpdate =>
      let h1 := set_field h labelToUpdate "title" (get_field h newLabel "title") in
      let h2 := set_field h1 labelToUpdate "color" (get_field h1 newLabel "color") in
      Ok (with_objects st h2)
  end.

Definition addLabelToCurrentBoard (st : state) (newLabel : loc)
  : result state :=
  let h := objects st in
  labels ← get_prop h (currentBoard st) "labels";
  '(arr, ls) ← as_array h labels;
  Ok (with_objects st (<[arr := Arr (ls ++ [newLabel])]> h)).

End Mutation.

(** ** Committing mutations *)

(** A call [commit(type, payload)]. *)
Inductive mutation :=
| AddStack (stack : loc)
| OrderStack (p : order_payload)
| DeleteStack (stack : loc)
| UpdateStack (stack : loc)
| AddCard (card : loc)
| AddBoard (board : loc)
| RemoveBoard (board : loc)
| ToggleNav
| ToggleSidebar
| SetBoards (boards : list loc)
| SetSharees (sharees : val)
| SetBoardFilter (filter : val)
| SetCurrentBoard (board : val)
| RemoveLabelFromCurrentBoard (labelId : val)
| UpdateLabelFromCurrentBoard (newLabel : loc)
| AddLabelToCurrentBoard (newLabel : loc).

Definition mutate (m : mutation) (st : state) : result state :=
  match m with
  | AddStack s => Ok (Mutation.addStack st s)
  | OrderStack p => Ok (Mutation.orderStack st p)
  | DeleteStack s => Ok (Mutation.deleteStack st s)
  | UpdateStack s => Ok (Mutation.updateStack st s)
  | AddCard c => Ok (Mutation.addCard st c)
  | AddBoard b => Ok (Mutation.addBoard st b)
  | RemoveBoard b => Ok (Mutation.removeBoard st b)
  | ToggleNav => Ok (Mutation.toggleNav st)
  | ToggleSidebar => Ok (Mutation.toggleSidebar st)
  | SetBoards bs => Ok (Mutation.setBoards st bs)
  | SetSharees v => Ok (Mutation.setSharees st v)
  | SetBoardFilter f => Ok (Mutation.setBoardFilter st f)
  | SetCurrentBoard b => Ok (Mutation.setCurrentBoard st b)
  | RemoveLabelFromCurrentBoard id => Mutation.removeLabelFromCurrentBoard st id
  | UpdateLabelFromCurrentBoard l => Mutation.updateLabelFromCurrentBoard st l
  | AddLabelToCurrentBoard l => Mutation.addLabelToCurrentBoard st l
  end.

(** ** The remote service and the world an action runs in *)

(** The calls made on the API clients ([StackApi], [BoardApi]) and on
    [axios]. An entity passed to the client is passed by reference. The body
    of [archiveBoard]'s request is a JSON copy of the board in which
    [archived] is set: the copy never reaches the store and is described by
    the board it is taken from. *)
Inductive request :=
| ReorderStack (stackId : val) (addedIndex : nat)
| LoadStacks (boardId : val)
| CreateStack (stack : loc)
| DeleteStackById (stackId : val)
| UpdateStackRemote (stack : loc)
| UpdateBoard (board : loc)
| UpdateBoardArchivedCopy (board : loc)
| CreateBoard (boardData : loc)
| LoadBoards
| GetSharees
| DeleteLabel (label : loc)
| UpdateLabel (newLabel : loc)
| CreateLabel (newLabel : loc).

(** What an action does that can be observed, in the order it does it. *)
Inductive event :=
| Committed (m : mutation)
| Requested (r : request)
| Notified (message : string)
| Logged (v : val).

Record world := {
  store : state;
  trace : list event
}.

(** An action is a computation on the world that may raise; what it did
    before raising stays done. *)
Definition M (A : Type) : Type := world → result A * world.

#[global] Instance M_ret : MRet M := λ A a w, (Ok a, w).
#[global] Instance M_bind : MBind M := λ A B f c w,
  match c w with
  | (Ok a, w') => f a w'
  | (Throw e, w') => (Throw e, w')
  end.

Definition throw {A} (e : exn) : M A := λ w, (Throw e, w).

Definition emit (e : event) : M unit :=
  λ w, (Ok tt, {| store := store w; trace := trace w ++ [e] |}).

Definition get_state : M state := λ w, (Ok (store w), w).

Definition put_objects (h : heap) : M unit :=
  λ w, (Ok tt, {| store := with_objects (store w) h; trace := trace w |}).

Definition lift {A} (r : result A) : M A := λ w, (r, w).

(** [commit(type, payload)]: the mutation runs on the state of the store. *)
Definition commit (m : mutation) : M unit :=
  λ w, match mutate m (store w) with
       | Ok st' => (Ok tt, {| store := st'; trace := trace w ++ [Committed m] |})
       | Throw e => (Throw e, w)
       end.

(** The value a remote call resolves with: nothing, an entity or a sequence
    of entities (the arrays and objects of a response are new objects on the
    heap). *)
Inductive response :=
| Nothing
| Entity (l : loc)
| Entities (ls : list loc).

Inductive outcome :=
| Resolved (r : response)
| Rejected (err : val).

(** The callbacks an action leaves on the promise of its remote call:
    [.then(on_fulfilled)] and [.catch(on_rejected)]. A missing callback does
    nothing when the promise settles that way. *)
Record handlers := {
  on_fulfilled : option (response → M unit);
  on_rejected : option (val → M unit)
}.

Definition no_handlers : handlers :=
  {| on_fulfilled := None; on_rejected := None |}.

Definition settle (hs : handlers) (o : outcome) : M unit :=
  match o with
  | Resolved r => from_option (λ k, k r) (mret tt) (on_fulfilled hs)
  | Rejected err => from_option (λ k, k err) (mret tt) (on_rejected hs)
  end.

(** The context an action receives. An action destructures the members it
    uses out of it by name; of the members that can be called with a
    mutation, these sources only use [commit]. A name the context does not
    have gives [undefined]. *)
Definition context (name : string) : option (mutation → M unit) :=
  if decide (name = "commit") then Some commit else None.

(** Calling a destructured member: calling [undefined] raises. *)
Definition call (member : option (mutation → M unit)) (m : mutation) : M unit :=
  match member with
  | Some f => f m
  | None => throw TypeError
  end.

(** The entity of a response where the service contract gives one, and the
    entities where it gives a sequence. A response of another shape is
    outside the contract and is modelled as raising. *)
Definition entity (r : response) : M loc :=
  match r with
  | Entity l => mret l
  | _ => throw TypeError
  end.

Definition entities (r : response) : M (list loc) :=
  match r with
  | Entities ls => mret ls
  | _ => throw TypeError
  end.

(** [for (let i in stacks)] over the response of a bulk load: the entities
    of the sequence, in order, and nothing when there is no value. A single
    entity in place of the sequence is outside the contract and is not
    enumerated. *)
Definition for_in_response (r : response) : list loc :=
  match r with
  | Entities ls => ls
  | _ => []
  end.

(** [for (let j in stack.cards)]: the elements of the array, in order. The
    cards of a stack are an array or missing, and there is nothing to
    enumerate when they are missing. *)
Definition for_in_elements (h : heap) (v : val) : list loc :=
  match v with
  | VRef a => match h !! a with
              | Some (Arr ls) => ls
              | _ => []
              end
  | _ => []
  end.

(** Running the callbacks of a loop one after the other. *)
Fixpoint for_each {A} (l : list A) (body : A → M unit) : M unit :=
  match l with
  | [] => mret tt
  | x :: l' => body x ;; for_each l' body
  end.

(** ** Actions

    Every action is given the members it destructures out of its context
    and its payload; it runs up to its remote call and returns the callbacks
    it leaves on the promise of that call. *)

Module Action.

(** *** The stack module *)

Definition orderStack (commit : option (mutation → M unit)) (p : order_payload)
  : M handlers :=
  let '(Build_order_payload stack removedIndex addedIndex) := p in
  call commit (OrderStack {| stack := stack; removedIndex := removedIndex;
                             addedIndex := addedIndex |}) ;;
  st ← get_state;
  emit (Requested (ReorderStack (get_field (objects st) stack "id") addedIndex)) ;;
  mret {|
    on_fulfilled := None;
    on_rejected := Some (λ err,
      emit (Notified "Failed to change order") ;;
      st ← get_state;
      response ← lift (get_prop (objects st) err "response");
      data ← lift (get_prop (objects st) response "data");
      message ← lift (get_prop (objects st) data "message");
      emit (Logged message) ;;
      call commit (OrderStack {| stack := stack; addedIndex := addedIndex;
                                 removedIndex := removedIndex |}))
  |}.

Definition loadStacks (commit : option (mutation → M unit)) (board : loc)
  : M handlers :=
  st ← get_state;
  emit (Requested (LoadStacks (get_field (objects st) board "id"))) ;;
  mret {|
    on_fulfilled := Some (λ stacks,
      for_each (for_in_response stacks) (λ stack,
        st ← get_state;
        for_each (for_in_elements (objects st) (get_field (objects st) stack "cards"))
          (λ card, call commit (AddCard card)) ;;
        st ← get_state;
        put_objects (delete_field (objects st) stack "cards") ;;
        call commit (AddStack stack)));
    on_rejected := None
  |}.

Definition createStack (commit : option (mutation → M unit)) (stack : loc)
  : M handlers :=
  st ← get_state;
  boardId ← lift (get_prop (objects st) (currentBoard st) "id");
  put_objects (set_field (objects st) stack "boardId" boardId) ;;
  emit (Requested (CreateStack stack)) ;;
  mret {|
    on_fulfilled := Some (λ r,
      createdStack ← entity r; call commit (AddStack createdStack));
    on_rejected := None
  |}.

Definition deleteStack (commit : option (mutation → M unit)) (stack : loc)
  : M handlers :=
  st ← get_state;
  emit (Requested (DeleteStackById (get_field (objects st) stack "id"))) ;;
  mret {|
    on_fulfilled := Some (λ r,
      stack ← entity r; call commit (DeleteStack stack));
    on_rejected := None
  |}.

Definition updateStack (commit : option (mutation → M unit)) (stack : loc)
  : M handlers :=
  emit (Requested (UpdateStackRemote stack)) ;;
  mret {|
    on_fulfilled := Some (λ r,
      stack ← entity r; call commit (UpdateStack stack));
    on_rejected := None
  |}.

(** *** The root store *)

Definition archiveBoard (commit : option (mutation → M unit)) (board : loc)
  : M handlers :=
  emit (Requested (UpdateBoardArchivedCopy board)) ;;
  mret {|
    on_fulfilled := Some (λ r, board ← entity r; call commit (AddBoard board));
    on_rejected := None
  |}.

Definition updateBoard (commit : option (mutation → M unit)) (board : loc)
  : M handlers :=
  emit (Requested (UpdateBoard board)) ;;
  mret {|
    on_fulfilled := Some (λ r,
      storedBoard ← entity r; call commit (AddBoard storedBoard));
    on_rejected := None
  |}.

Definition createBoard (commit : option (mutation → M unit)) (boardData : loc)
  : M handlers :=
  emit (Requested (CreateBoard boardData)) ;;
  mret {|
    on_fulfilled := Some (λ r, board ← entity r; call commit (AddBoard board));
    on_rejected := None
  |}.

Definition removeBoard (commit : option (mutation → M unit)) (board : loc)
  : M handlers :=
  call commit (RemoveBoard board) ;; mret no_handlers.

Definition loadBoards (commit : option (mutation → M unit)) : M handlers :=
  emit (Requested LoadBoards) ;;
  mret {|
    on_fulfilled := Some (λ r, boards ← entities r; call commit (SetBoards boards));
    on_rejected := None
  |}.

Definition loadSharees (commit : option (mutation → M unit)) : M handlers :=
  emit (Requested GetSharees) ;;
  mret {|
    on_fulfilled := Some (λ r,
      response ← entity r;
      st ← get_state;
      data ← lift (get_prop (objects st) (VRef response) "data");
      ocs ← lift (get_prop (objects st) data "ocs");
      data ← lift (get_prop (objects st) ocs "data");
      users ← lift (get_prop (objects st) data "users");
      call commit (SetSharees users));
    on_rejected := None
  |}.

Definition setBoardFilter (commmit : option (mutation → M unit)) (filter : val)
  : M handlers :=
  call commmit (SetBoardFilter filter) ;; mret no_handlers.

Definition toggleNav (commit : option (mutation → M unit)) : M handlers :=
  call commit ToggleNav ;; mret no_handlers.

Definition toggleSidebar (commit : option (mutation → M unit)) : M handlers :=
  call commit ToggleSidebar ;; mret no_handlers.

Definition setCurrentBoard (commit : option (mutation → M unit)) (board : val)
  : M handlers :=
  call commit (SetCurrentBoard board) ;; mret no_handlers.

(** Label actions. *)

Definition removeLabelFromCurrentBoard (commit : option (mutation → M unit))
    (label : loc) : M handlers :=
  emit (Requested (DeleteLabel label)) ;;
  mret {|
    on_fulfilled := Some (λ r,
      label ← entity r;
      st ← get_state;
      call commit (RemoveLabelFromCurrentBoard (get_field (objects st) label "id")));
    on_rejected := None
  |}.

Definition updateLabelFromCurrentBoard (commit : option (mutation → M unit))
    (newLabel : loc) : M handlers :=
  emit (Requested (UpdateLabel newLabel)) ;;
  mret {|
    on_fulfilled := Some (λ r,
      newLabel ← entity r; call commit (UpdateLabelFromCurrentBoard newLabel));
    on_rejected := None
  |}.

Definition addLabelToCurrentBoard (commit : option (mutation → M unit))
    (newLabel : loc) : M handlers :=
  st ← get_state;
  boardId ← lift (get_prop (objects st) (currentBoard st) "id");
  put_objects (set_field (objects st) newLabel "boardId" boardId) ;;
  emit (Requested (CreateLabel newLabel)) ;;
  mret {|
    on_fulfilled := Some (λ r,
      newLabel ← entity r; call commit (AddLabelToCurrentBoard newLabel));
    on_rejected := None
  |}.

End Action.

(** ** Dispatching *)

(** A call [dispatch(type, payload)]. *)
Inductive action :=
| OrderStackAction (p : order_payload)
| LoadStacksAction (board : loc)
| CreateStackAction (stack : loc)
| DeleteStackAction (stack : loc)
| UpdateStackAction (stack : loc)
| ArchiveBoardAction (board : loc)
| UpdateBoardAction (board : loc)
| CreateBoardAction (boardData : loc)
| RemoveBoardAction (board : loc)
| LoadBoardsAction
| LoadShareesAction
| SetBoardFilterAction (filter : val)
| ToggleNavAction
| ToggleSidebarAction
| SetCurrentBoardAction (board : val)
| RemoveLabelFromCurrentBoardAction (label : loc)
| UpdateLabelFromCurrentBoardAction (newLabel : loc)
| AddLabelToCurrentBoardAction (newLabel : loc).

(** The handler of the action is called with the context; the pattern of
    its first parameter names the members it takes out of it. *)
Definition dispatch (a : action) : M handlers :=
  match a with
  | OrderStackAction p => Action.orderStack (context "commit") p
  | LoadStacksAction b => Action.loadStacks (context "commit") b
  | CreateStackAction s => Action.createStack (context "commit") s
  | DeleteStackAction s => Action.deleteStack (context "commit") s
  | UpdateStackAction s => Action.updateStack (context "commit") s
  | ArchiveBoardAction b => Action.archiveBoard (context "commit") b
  | UpdateBoardAction b => Action.updateBoard (context "commit") b
  | CreateBoardAction d => Action.createBoard (context "commit") d
  | RemoveBoardAction b => Action.removeBoard (context "commit") b
  | LoadBoardsAction => Action.loadBoards (context "commit")
  | LoadShareesAction => Action.loadSharees (context "commit")
  | SetBoardFilterAction f => Action.setBoardFilter (context "commmit") f
  | ToggleNavAction => Action.toggleNav (context "commit")
  | ToggleSidebarAction => Action.toggleSidebar (context "commit")
  | SetCurrentBoardAction b => Action.setCurrentBoard (context "commit") b
  | RemoveLabelFromCurrentBoardAction l =>
      Action.removeLabelFromCurrentBoard (context "commit") l
  | UpdateLabelFromCurrentBoardAction l =>
      Action.updateLabelFromCurrentBoard (context "commit") l
  | AddLabelToCurrentBoardAction l =>
      Action.addLabelToCurrentBoard (context "commit") l
  end.

(** An action dispatched on the store [st], and then its remote call
    settling with [o] on the store as the action left it. *)
Definition start (a : action) (st : state) : result handlers * world :=
  dispatch a {| store := st; trace := [] |}.

Definition start_and_settle (a : action) (o : outcome) (st : state)
  : result unit * world :=
  (hs ← dispatch a; settle hs o) {| store := st; trace := [] |}.

(** ** Well-formed stores *)

(** A reference held by the store points at an object. *)
Definition is_object (h : heap) (l : loc) : bool :=
  match h !! l with
  | Some (Obj _) => true
  | _ => false
  end.

(** The [order] of a stack as an integer (0 when it is no number). *)
Definition order_key (h : heap) (s : loc) : Z :=
  match get_field h s "order" with
  | VNum z => z
  | _ => 0%Z
  end.

(** Being ordered by a key, weakly and strictly. *)
Definition key_le {A} (key : A → Z) (u v : A) : Prop := (key u ≤ key v)%Z.
Definition key_lt {A} (key : A → Z) (u v : A) : Prop := (key u < key v)%Z.

(** The stacks of a board as they are stored, and the ids of a collection. *)
Definition stacks_of_board (st : state) (id : val) : list loc :=
  List.filter (λ s, strict_eq (get_field (objects st) s "boardId") id) (stacks st).

Definition ids (h : heap) (l : list loc) : list val :=
  (λ s, get_field h s "id") <$> l.

(** The records of a collection: the properties of each of its objects. *)
Definition records (h : heap) (l : list loc) : list (gmap string val) :=
  fields_of h <$> l.

(** The id a record carries. *)
Definition id_of_record (r : gmap string val) : val :=
  default VUndef (r !! "id").

Definition same_id_as (x r : gmap string val) : bool :=
  strict_eq (id_of_record r) (id_of_record x).

(** *** Adding to a collection, in the words of the specification

    The specification (4.2) describes [add(entity)] as an upsert by id: if
    an entity with the same id exists, the new fields are merged over the
    existing record, which keeps its place and its other fields; otherwise
    the entity is appended. [add_merging] is that description on the
    records of a collection. [add_replacing] is the variant in which the
    existing record is replaced by the incoming one. *)
Definition add_merging (rs : list (gmap string val)) (x : gmap string val)
  : list (gmap string val) :=
  match findIndex (same_id_as x) rs with
  | Some i => alter (λ existing, x ∪ existing) i rs
  | None => rs ++ [x]
  end.

Definition add_replacing (rs : list (gmap string val)) (x : gmap string val)
  : list (gmap string val) :=
  match findIndex (same_id_as x) rs with
  | Some i => <[i := x]> rs
  | None => rs ++ [x]
  end.
(** What an action did to the store so far. *)
Definition store_after {A} (r : result A * world) : state := store r.2.
Definition trace_after {A} (r : result A * world) : list event := trace r.2.

(** The state a mutation leaves: a mutation that raises leaves the state it
    was committed on. *)
Definition state_after (r : result state) (st : state) : state :=
  match r with
  | Ok st' => st'
  | Throw _ => st
  end.

(** Whether a mutation is committed before the first remote call. *)
Fixpoint commits_before_request (t : list event) : bool :=
  match t with
  | [] => false
  | Committed _ :: _ => true
  | Requested _ :: _ => false
  | _ :: t' => commits_before_request t'
  end.

(** ** A board with three stacks

    The stacks [A], [B] and [C] of board 7 with the orders 0, 1 and 2, and two
    errors a remote call can reject with: the error of a rejected request,
    which carries the response of the server, and a network error, which
    carries none. *)
Module ThreeStacks.

Definition A : loc := 1%positive.
Definition B : loc := 2%positive.
Definition C : loc := 3%positive.
Definition server_error : loc := 4%positive.
Definition network_error : loc := 7%positive.

Definition a_stack (id : string) (boardId order : Z) : cell :=
  Obj (<["id" := VStr id]> (<["boardId" := VNum boardId]>
        (<["order" := VNum order]> ∅))).

Definition three_stacks_heap : heap :=
  <[A := a_stack "A" 7 0]> (<[B := a_stack "B" 7 1]> (<[C := a_stack "C" 7 2]>
  (<[server_error := Obj (<["response" := VRef 5%positive]> ∅)]>
  (<[5%positive := Obj (<["data" := VRef 6%positive]> ∅)]>
  (<[6%positive := Obj (<["message" := VStr "Forbidden"]> ∅)]>
  (<[network_error := Obj (<["message" := VStr "Network Error"]> ∅)]> ∅)))))).

Definition three_stacks : state :=
  with_objects (with_stacks initial_state [A; B; C]) three_stacks_heap.

(** The ordered stacks of board 7, each with its id and its order. *)
Definition board_order (st : state) : list (val * val) :=
  map (λ s, (get_field (objects st) s "id", get_field (objects st) s "order"))
    (stacksByBoard st (VNum 7)).

Definition move_B_first : order_payload :=
  {| stack := B; removedIndex := 1; addedIndex := 0 |}.

Definition move_C_first : order_payload :=
  {| stack := C; removedIndex := 2; addedIndex := 0 |}.

End ThreeStacks.

(** ** Three boards

    The boards [{archived: true}], [{archived: false}] and
    [{shared: true, archived: false}], and a board whose [shared] is the
    number 1, as the server sends it. *)
Module BoardExample.

Definition first : loc := 1%positive.
Definition second : loc := 2%positive.
Definition third : loc := 3%positive.
Definition numeric : loc := 4%positive.

Definition boards_heap : heap :=
  <[first := Obj (<["archived" := VBool true]> ∅)]>
  (<[second := Obj (<["archived" := VBool false]> ∅)]>
  (<[third := Obj (<["shared" := VBool true]> (<["archived" := VBool false]> ∅))]>
  (<[numeric := Obj (<["shared" := VNum 1]> (<["archived" := VBool false]> ∅))]>
   ∅))).

Definition three_boards : state :=
  with_objects (with_boards initial_state [first; second; third]) boards_heap.


End BoardExample.

(** ** A board with two labels

    The current board with the labels 1 ("bug") and 2 ("feature"), a payload
    that renames label 2 and a payload for a label 9 the board does not
    have. *)
Module LabelExample.

Definition board : loc := 1%positive.
Definition labels : loc := 2%positive.
Definition bug : loc := 3%positive.
Definition feature : loc := 4%positive.
Definition renamed : loc := 5%positive.
Definition unknown : loc := 6%positive.

Definition a_label (id : Z) (title color : string) : cell :=
  Obj (<["id" := VNum id]> (<["title" := VStr title]>
        (<["color" := VStr color]> (<["boardId" := VNum 7]> ∅)))).

Definition labels_heap : heap :=
  <[board := Obj (<["id" := VNum 7]> (<["labels" := VRef labels]> ∅))]>
  (<[labels := Arr [bug; feature]]>
  (<[bug := a_label 1 "bug" "ff0000"]>
  (<[feature := a_label 2 "feature" "00ff00"]>
  (<[renamed := a_label 2 "chore" "0000ff"]>
  (<[unknown := a_label 9 "later" "cccccc"]> ∅))))).

Definition on_board : state :=
  Mutation.setCurrentBoard
    (with_objects (with_boards initial_state [board]) labels_heap) (VRef board).

End LabelExample.

(** ** Computations that leave the board filter alone *)

(** The computation [c] never changes [state.boardFilter], and a value it
    returns has the property [Q]. *)
Definition keeps_filter {A} (Q : A → Prop) (c : M A) : Prop :=
  ∀ w, boardFilter (store (c w).2) = boardFilter (store w)
       ∧ match (c w).1 with
         | Ok a => Q a
         | Throw _ => True
         end.

(** Callbacks that never change [state.boardFilter]. *)
Definition handlers_keep_filter (hs : handlers) : Prop :=
  (∀ k r, on_fulfilled hs = Some k → keeps_filter (λ _, True) (k r))
  ∧ (∀ k err, on_rejected hs = Some k → keeps_filter (λ _, True) (k err)).

(** ** A record that is added again

    A store whose stacks and boards both hold the record
    [{id: 5, title: "old", color: "red"}], and a payload
    [{id: 5, title: "new"}] with the same id and no color. *)
Module UpsertExample.

Definition existing : loc := 1%positive.
Definition payload : loc := 2%positive.

Definition upsert_heap : heap :=
  <[existing := Obj (<["id" := VNum 5]> (<["title" := VStr "old"]>
                      (<["color" := VStr "red"]> ∅)))]>
  (<[payload := Obj (<["id" := VNum 5]> (<["title" := VStr "new"]> ∅))]> ∅).

Definition one_record : state :=
  with_objects (with_boards (with_stacks initial_state [existing]) [existing])
    upsert_heap.

End UpsertExample.


(** ** Well-formed collections *)

(** A collection of the store is well formed when its references point at
    objects and no two of its records have the same id. *)
Definition collection_well_formed (h : heap) (coll : list loc) : Prop :=
  Forall (λ s, is_object h s = true) coll ∧ NoDup (ids h coll).

(** The mutations of the stack module, committed with a payload that is an
    object. *)
Definition stack_mutation (h : heap) (m : mutation) : bool :=
  match m with
  | AddStack s | DeleteStack s | UpdateStack s => is_object h s
  | OrderStack _ => true
  | _ => false
  end.

(** Committing a sequence of mutations, one after the other. *)
Definition commit_all (ms : list mutation) (st : state) : state :=
  foldl (λ st m, state_after (mutate m st) st) st ms.


(** The mutations that add and remove single boards. *)
Definition board_mutation (m : mutation) : bool :=
  match m with
  | AddBoard _ | RemoveBoard _ => true
  | _ => false
  end.

(** The remote calls and the commits of a trace, in order. *)
Definition remote_calls (t : list event) : list request :=
  omap (λ e, match e with Requested r => Some r | _ => None end) t.

Definition commits (t : list event) : list mutation :=
  omap (λ e, match e with Committed m => Some m | _ => None end) t.

(** The actions that only commit. *)
Definition local_action (a : action) : bool :=
  match a with
  | RemoveBoardAction _ | SetBoardFilterAction _ | ToggleNavAction
  | ToggleSidebarAction | SetCurrentBoardAction _ => true
  | _ => false
  end.

Definition is_orderStack (a : action) : bool :=
  match a with
  | OrderStackAction _ => true
  | _ => false
  end.

(** ** What a bulk load commits *)

(** The stack an [addStack] commit adds, and the card an [addCard] commit
    adds. *)
Definition added_stack (m : mutation) : option loc :=
  match m with
  | AddStack s => Some s
  | _ => None
  end.

Definition added_card (m : mutation) : option loc :=
  match m with
  | AddCard c => Some c
  | _ => None
  end.

(** The state of the root store, without the modules. *)
Definition root_of (st : state)
  : bool * bool * val * list loc * val * val :=
  (navShown st, sidebarShown st, currentBoard st, boards st, sharees st,
   boardFilter st).

(** The objects of [h] are objects of [h'], and those without a [cards]
    field have none in [h']. *)
Definition keeps_objects (h h' : heap) : Prop :=
  ∀ l, is_object h l = true →
       is_object h' l = true
       ∧ (fields_of h l !! "cards" = None → fields_of h' l !! "cards" = None).

(** ** The board API client

    [services/BoardApi.js]: every method builds a URL, makes one [axios]
    call and passes the outcome on. *)

(** [`${v}`]: the string a template literal puts in for a value. Numbers
    are the integers of the data model, printed in decimal; an object
    prints as [[object Object]] and an array, whose elements are objects in
    this data model, as its elements joined by commas. *)
Definition to_string (h : heap) (v : val) : string :=
  match v with
  | VUndef => "undefined"
  | VNull => "null"
  | VBool true => "true"
  | VBool false => "false"
  | VNum n => pretty n
  | VStr s => s
  | VRef l =>
      match h !! l with
      | Some (Arr ls) => String.concat "," (map (λ _, "[object Object]") ls)
      | _ => "[object Object]"
      end
  end.

Inductive http_method := GET | POST | PUT | DELETE.

(** A call [axios.method(url, body)]. *)
Record http_call := {
  call_method : http_method;
  call_url : string;
  call_body : option loc
}.

(** What a promise settles with. A rejection carries the reason it was
    rejected with, or the error a callback raised. *)
Inductive rejection :=
| Reason (err : val)
| Raised (e : exn).

Inductive settled :=
| Fulfilled (v : val)
| RejectedWith (r : rejection).

(** [p.then(onFulfilled, onRejected)]: the callback for the way [p] settled
    runs and the promise it returns is taken over; a callback that raises
    rejects. *)
Definition then_ (p : settled) (onFulfilled : val → result settled)
    (onRejected : rejection → result settled) : settled :=
  let run r :=
    match r with
    | Ok q => q
    | Throw e => RejectedWith (Raised e)
    end in
  match p with
  | Fulfilled v => run (onFulfilled v)
  | RejectedWith r => run (onRejected r)
  end.

(** [p.catch(onRejected)]. *)
Definition catch_ (p : settled) (onRejected : rejection → result settled)
  : settled :=
  then_ p (λ v, Ok (Fulfilled v)) onRejected.

Module BoardApi.
Section Client.

(** [OC.generateUrl] belongs to the server's client library and is not
    among the sources: it is a parameter of the client. *)
Variable generateUrl : string → string.

Definition url (url : string) : string :=
  let url := "/apps/deck" +:+ url in
  generateUrl url.

(** The two ways the methods pass the outcome of [axios] on. *)
Definition resolve_with_data (h : heap) (p : settled) : settled :=
  catch_
    (then_ p
       (λ response, data ← get_prop h response "data"; Ok (Fulfilled data))
       (λ err, Ok (RejectedWith err)))
    (λ err, Ok (RejectedWith err)).

Definition resolve_with_nothing (p : settled) : settled :=
  catch_
    (then_ p (λ _, Ok (Fulfilled VUndef)) (λ err, Ok (RejectedWith err)))
    (λ err, Ok (RejectedWith err)).

(** Each method gives the call it makes and, for the outcome of that call,
    the outcome of the promise it returns. *)
Definition updateBoard (h : heap) (board : loc) : http_call * (settled → settled) :=
  ({| call_method := PUT;
      call_url := url ("/boards/" +:+ to_string h (get_field h board "id"));
      call_body := Some board |},
   resolve_with_data h).

Definition createBoard (h : heap) (boardData : loc)
  : http_call * (settled → settled) :=
  ({| call_method := POST; call_url := url "/boards";
      call_body := Some boardData |},
   resolve_with_data h).

Definition deleteBoard (h : heap) (board : loc) : http_call * (settled → settled) :=
  ({| call_method := DELETE;
      call_url := url ("/boards/" +:+ to_string h (get_field h board "id"));
      call_body := None |},
   resolve_with_nothing).

Definition unDeleteBoard (h : heap) (board : loc)
  : http_call * (settled → settled) :=
  ({| call_method := POST;
      call_url := url ("/boards/" +:+ to_string h (get_field h board "id")
                       +:+ "/deleteUndo");
      call_body := None |},
   resolve_with_data h).

Definition loadBoards (h : heap) : http_call * (settled → settled) :=
  ({| call_method := GET; call_url := url "/boards"; call_body := None |},
   resolve_with_data h).

Definition loadById (h : heap) (id : val) : http_call * (settled → settled) :=
  ({| call_method := GET; call_url := url ("/boards/" +:+ to_string h id);
      call_body := None |},
   resolve_with_data h).

Definition deleteLabel (h : heap) (id : val) : http_call * (settled → settled) :=
  ({| call_method := DELETE; call_url := url ("/labels/" +:+ to_string h id);
      call_body := None |},
   resolve_with_data h).

(** The path of [updateLabel] is written between single quotes: it is no
    template literal, and [${label.id}] stays in it as it is written. *)
Definition updateLabel (h : heap) (label : loc) : http_call * (settled → settled) :=
  ({| call_method := PUT; call_url := url "/labels/${label.id}";
      call_body := Some label |},
   resolve_with_data h).

Definition createLabel (h : heap) (labelData : loc)
  : http_call * (settled → settled) :=
  ({| call_method := POST; call_url := url "/labels";
      call_body := Some labelData |},
   resolve_with_data h).

End Client.
End BoardApi.

(** ** Two boards and an answer of the service

    The boards 1 and 2, neither archived, and the answer of the service to
    archiving board 1: a new object with the id 1 that is archived. *)
Module ArchiveExample.

Definition board : loc := 1%positive.
Definition other : loc := 2%positive.
Definition reply : loc := 3%positive.

Definition a_board (id : Z) (archived : bool) : cell :=
  Obj (<["id" := VNum id]> (<["archived" := VBool archived]>
        (<["deletedAt" := VNum 0]> ∅))).

Definition boards_heap : heap :=
  <[board := a_board 1 false]>
  (<[other := a_board 2 false]>
  (<[reply := a_board 1 true]> ∅)).


End ArchiveExample.

(** ** A selected board and a new stack

    The board 7 is selected and has no stacks; a payload for a new stack,
    and the stack the service answers with. *)
Module CreateExample.

Definition board : loc := 1%positive.
Definition payload : loc := 2%positive.
Definition created : loc := 3%positive.

Definition create_heap : heap :=
  <[board := Obj (<["id" := VNum 7]> ∅)]>
  (<[payload := Obj (<["title" := VStr "To do"]> ∅)]>
  (<[created := Obj (<["id" := VNum 5]> (<["title" := VStr "To do"]>
                      (<["boardId" := VNum 7]> (<["order" := VNum 0]> ∅))))]>
   ∅)).

Definition selected : state :=
  Mutation.setCurrentBoard (with_objects initial_state create_heap) (VRef board).

End CreateExample.

(** ** A stored stack used as the payload of [createStack]

    The board 7 is selected; the store holds one stack, of board 8. *)
Module StoredPayload.

Definition board : loc := 1%positive.
Definition stored : loc := 2%positive.

Definition stored_heap : heap :=
  <[board := Obj (<["id" := VNum 7]> ∅)]>
  (<[stored := Obj (<["id" := VNum 1]> (<["boardId" := VNum 8]>
                     (<["order" := VNum 0]> ∅)))]> ∅).

Definition selected : state :=
  Mutation.setCurrentBoard
    (with_objects (with_stacks initial_state [stored]) stored_heap)
    (VRef board).

End StoredPayload.

(** ** Stores and answers of a bulk load *)

(** The cards of a stack as [for (let j in stack.cards)] enumerates them. *)
Definition cards_of (h : heap) (stack : loc) : list loc :=
  for_in_elements h (get_field h stack "cards").

(** A store and an answer a bulk load can run on: the stored stacks and
    cards are objects, and so are the stacks of the answer and the cards
    they carry. *)
Definition loadable (st : state) (ss : list loc) : Prop :=
  let h := objects st in
  Forall (λ s, is_object h s = true) (stacks st)
  ∧ Forall (λ c, is_object h c = true) (cards st)
  ∧ Forall (λ s, is_object h s = true
                 ∧ Forall (λ c, is_object h c = true) (cards_of h s)) ss.

(** [h'] is [h] with new objects and with the [cards] field deleted from
    some of the objects in [dropped]: the objects of [h] are objects of [h']
    with the fields they had, but for a deleted [cards], and the two heaps
    have the same arrays. *)
Definition stripped (dropped : list loc) (h h' : heap) : Prop :=
  (∀ l, is_object h l = true →
        is_object h' l = true
        ∧ (fields_of h' l = fields_of h l
           ∨ (l ∈ dropped ∧ fields_of h' l = delete "cards" (fields_of h l))))
  ∧ (∀ a ls, h' !! a = Some (Arr ls) ↔ h !! a = Some (Arr ls)).

(** No stored stack with the id [v] has a [cards] field. *)
Definition no_cards_under (v : val) (st : state) : Prop :=
  ∀ s, s ∈ stacks st → get_field (objects st) s "id" = v →
       fields_of (objects st) s !! "cards" = None.

(** ** A bulk load of two stacks

    The store has a record of stack 1 without cards. The service answers
    with stack 2, which carries the card 20, and with stack 1, which carries
    the cards 10 and 11. *)
Module BulkExample.

Definition board : loc := 1%positive.
Definition stored : loc := 2%positive.
Definition second : loc := 3%positive.
Definition second_cards : loc := 4%positive.
Definition card20 : loc := 5%positive.
Definition loaded_stack : loc := 6%positive.
Definition loaded_cards : loc := 7%positive.
Definition card10 : loc := 8%positive.
Definition card11 : loc := 9%positive.

Definition bulk_heap : heap :=
  <[board := Obj (<["id" := VNum 7]> ∅)]>
  (<[stored := Obj (<["id" := VNum 1]> (<["title" := VStr "To do"]> ∅))]>
  (<[second := Obj (<["id" := VNum 2]> (<["cards" := VRef second_cards]> ∅))]>
  (<[second_cards := Arr [card20]]>
  (<[card20 := Obj (<["id" := VNum 20]> ∅)]>
  (<[loaded_stack := Obj (<["id" := VNum 1]>
                           (<["cards" := VRef loaded_cards]> ∅))]>
  (<[loaded_cards := Arr [card10; card11]]>
  (<[card10 := Obj (<["id" := VNum 10]> ∅)]>
  (<[card11 := Obj (<["id" := VNum 11]> ∅)]> ∅)))))))).

Definition before_load : state :=
  with_objects (with_stacks initial_state [stored]) bulk_heap.

Definition answer : list loc := [second; loaded_stack].

End BulkExample.

(** ** A stored stack that carries cards

    The store holds stack 1 as an [addStack] of an answer that carried
    cards left it (the commit of [createStack] stores the answer as it
    is). The service then answers a bulk load with stack 1 and the cards 10
    and 11. *)
Module StaleExample.

Definition board : loc := 1%positive.
Definition created : loc := 2%positive.
Definition old_cards : loc := 3%positive.
Definition card5 : loc := 4%positive.
Definition loaded_stack : loc := 5%positive.
Definition loaded_cards : loc := 6%positive.
Definition card10 : loc := 7%positive.
Definition card11 : loc := 8%positive.

Definition stale_heap : heap :=
  <[board := Obj (<["id" := VNum 7]> ∅)]>
  (<[created := Obj (<["id" := VNum 1]> (<["cards" := VRef old_cards]> ∅))]>
  (<[old_cards := Arr [card5]]>
  (<[card5 := Obj (<["id" := VNum 5]> ∅)]>
  (<[loaded_stack := Obj (<["id" := VNum 1]>
                           (<["cards" := VRef loaded_cards]> ∅))]>
  (<[loaded_cards := Arr [card10; card11]]>
  (<[card10 := Obj (<["id" := VNum 10]> ∅)]>
  (<[card11 := Obj (<["id" := VNum 11]> ∅)]> ∅))))))).

Definition before_load : state :=
  Mutation.addStack (with_objects initial_state stale_heap) created.

End StaleExample.
(** ** Properties of the order helper *)

Section ApplyOrder.
Context {A : Type}.
Implicit Types (xs : list A) (x : A) (r a : nat).

Lemma splice1_length xs r :
  (r < length xs)%nat → length (splice1 r xs) = pred (length xs).
Proof.
  intros Hr. unfold splice1.
  rewrite length_app, length_take, length_drop. lia.
Qed.

Lemma splice_in_lookup xs x a :
  (a ≤ length xs)%nat → splice_in a x xs !! a = Some x.
Proof.
  intros Ha. unfold splice_in.
  rewrite lookup_app_r; rewrite length_take; [|lia].
  replace (a - a `min` length xs)%nat with 0%nat by lia. done.
Qed.

Lemma splice1_splice_in xs x a :
  (a ≤ length xs)%nat → splice1 a (splice_in a x xs) = xs.
Proof.
  intros Ha. unfold splice1, splice_in.
  rewrite take_app_le; [|rewrite length_take; lia].
  rewrite take_take, Nat.min_id.
  rewrite drop_app_ge; rewrite length_take; [|lia].
  replace (S a - a `min` length xs)%nat with 1%nat.
  - simpl. rewrite drop_0. apply take_drop.
  - lia.
Qed.

Lemma splice_in_splice1 xs x r :
  xs !! r = Some x → splice_in r x (splice1 r xs) = xs.
Proof.
  intros Hx. unfold splice1, splice_in.
  pose proof (lookup_lt_Some _ _ _ Hx) as Hr.
  rewrite take_app_le; [|rewrite length_take; lia].
  rewrite take_take, Nat.min_id.
  rewrite drop_app_ge; rewrite length_take; [|lia].
  replace (r - r `min` length xs)%nat with 0%nat by lia.
  rewrite drop_0.
  rewrite <- (take_drop_middle xs r x Hx) at 3. done.
Qed.

Lemma applyOrderToArray_Permutation xs r a :
  applyOrderToArray xs r a ≡ₚ xs.
Proof.
  unfold applyOrderToArray. destruct (xs !! r) as [x|] eqn:Hx; [|done].
  unfold splice_in, splice1.
  rewrite <- Permutation_middle.
  rewrite take_drop.
  rewrite <- (take_drop_middle xs r x Hx) at 3.
  by rewrite <- Permutation_middle.
Qed.

Lemma applyOrderToArray_length xs r a :
  length (applyOrderToArray xs r a) = length xs.
Proof. apply Permutation_length, applyOrderToArray_Permutation. Qed.

(** C5. Reorder round trip: for every sequence [xs] and all indices [r] and
    [a] inside [xs], moving the element at [r] to [a] and then the element
    at [a] back to [r] gives [xs] again, element for element. *)
Theorem applyOrder_round_trip xs r a :
  (r < length xs)%nat → (a < length xs)%nat →
  applyOrderToArray (applyOrderToArray xs r a) a r = xs.
Proof.
  intros Hr Ha.
  destruct (lookup_lt_is_Some_2 xs r Hr) as [x Hx].
  unfold applyOrderToArray at 2. rewrite Hx.
  pose proof (splice1_length xs r Hr) as Hlen.
  unfold applyOrderToArray.
  rewrite splice_in_lookup by lia.
  rewrite splice1_splice_in by lia.
  by apply splice_in_splice1.
Qed.

End ApplyOrder.

(** Order idempotence: moving an element to the index it is at changes
    nothing. *)
Lemma applyOrderToArray_same_index {A} (xs : list A) r :
  (r < length xs)%nat → applyOrderToArray xs r r = xs.
Proof.
  intros Hr. destruct (lookup_lt_is_Some_2 xs r Hr) as [x Hx].
  unfold applyOrderToArray. rewrite Hx. by apply splice_in_splice1.
Qed.

Example applyOrderToArray_second_to_front :
  applyOrderToArray ["A"; "B"; "C"] 1 0 = ["B"; "A"; "C"].
Proof. reflexivity. Qed.

Example applyOrderToArray_last_to_front :
  applyOrderToArray ["A"; "B"; "C"] 2 0 = ["C"; "A"; "B"].
Proof. reflexivity. Qed.

Example applyOrderToArray_front_to_last :
  applyOrderToArray ["A"; "B"; "C"] 0 2 = ["B"; "C"; "A"].
Proof. reflexivity. Qed.

(** Elements that compare equal keep the order they came in. *)
Example sort_by_is_stable :
  sort_by (λ a b : Z * string, (a.1 - b.1)%Z)
    [(2%Z, "x"); (1%Z, "y"); (2%Z, "z"); (1%Z, "w")]
  = [(1%Z, "y"); (1%Z, "w"); (2%Z, "x"); (2%Z, "z")].
Proof. reflexivity. Qed.

Lemma applyOrder_round_trip_witness :
applyOrderToArray (applyOrderToArray ["A"; "B"; "C"; "D"] 3 1) 1 3
= ["A"; "B"; "C"; "D"].
Proof. apply (applyOrder_round_trip ["A"; "B"; "C"; "D"] 3 1); simpl; lia. Defined.

(** ** The heap *)

Lemma is_object_fields h l :
  is_object h l = true → h !! l = Some (Obj (fields_of h l)).
Proof.
  unfold is_object, fields_of. destruct (h !! l) as [[f|ls]|]; done.
Qed.

Lemma fields_of_set_field h l k v l' :
  fields_of (set_field h l k v) l'
  = if decide (l = l') then
      (if is_object h l then <[k := v]> (fields_of h l) else fields_of h l)
    else fields_of h l'.
Proof.
  unfold set_field, is_object, fields_of.
  destruct (h !! l) as [[f|ls]|] eqn:Hl.
  - rewrite lookup_insert. destruct (decide (l = l')); [done|].
    by destruct (h !! l').
  - destruct (decide (l = l')) as [<-|]; [by rewrite Hl|done].
  - destruct (decide (l = l')) as [<-|]; [by rewrite Hl|done].
Qed.

Lemma get_field_set_field_eq h l k v :
  is_object h l = true → get_field (set_field h l k v) l k = v.
Proof.
  intros Hl. unfold get_field. rewrite fields_of_set_field, decide_True by done.
  rewrite Hl. by rewrite lookup_insert_eq.
Qed.

Lemma get_field_set_field_ne h l k v l' k' :
  l ≠ l' ∨ k ≠ k' → get_field (set_field h l k v) l' k' = get_field h l' k'.
Proof.
  intros Hne. unfold get_field. rewrite fields_of_set_field.
  destruct (decide (l = l')) as [<-|]; [|done].
  destruct Hne as [|Hk]; [done|].
  destruct (is_object h l); [|done]. by rewrite lookup_insert_ne.
Qed.

Lemma is_object_set_field h l k v l' :
  is_object (set_field h l k v) l' = is_object h l'.
Proof.
  unfold set_field, is_object.
  destruct (h !! l) as [[f|ls]|] eqn:Hl; try done.
  rewrite lookup_insert. destruct (decide (l = l')) as [<-|]; [|done].
  by rewrite Hl.
Qed.

(** ** Sorting *)

Section SortBy.
Context {A : Type} (cmp : A → A → Z) (key : A → Z).

Local Abbreviation key_le := (key_le key).
Local Abbreviation key_lt := (key_lt key).

Lemma insert_by_Permutation x l : insert_by cmp x l ≡ₚ x :: l.
Proof.
  induction l as [|y l IH]; simpl; [done|].
  destruct (cmp x y <=? 0)%Z; [done|].
  rewrite IH. apply perm_swap.
Qed.

Lemma sort_by_Permutation l : sort_by cmp l ≡ₚ l.
Proof.
  induction l as [|x l IH]; simpl; [done|].
  rewrite insert_by_Permutation. by rewrite IH.
Qed.

Lemma insert_by_sorted x l :
  (∀ u v, u ∈ x :: l → v ∈ x :: l → cmp u v = (key u - key v)%Z) →
  StronglySorted key_le l → StronglySorted key_le (insert_by cmp x l).
Proof.
  intros Hcmp Hl. induction Hl as [|y l Hl IH Hy]; simpl.
  - repeat constructor.
  - rewrite (Hcmp x y) by set_solver.
    destruct (Z.leb_spec (key x - key y) 0) as [Hle|Hgt].
    + apply SSorted_cons; [by apply SSorted_cons|].
      constructor; [unfold key_le; lia|].
      eapply Forall_impl; [exact Hy|]. unfold key_le. intros; simpl in *; lia.
    + apply SSorted_cons.
      * apply IH. intros u v Hu Hv.
        apply Hcmp; rewrite !elem_of_cons in *; tauto.
      * rewrite insert_by_Permutation. constructor; [unfold key_le; lia|done].
Qed.

Lemma sort_by_sorted l :
  (∀ u v, u ∈ l → v ∈ l → cmp u v = (key u - key v)%Z) →
  StronglySorted key_le (sort_by cmp l).
Proof.
  induction l as [|x l IH]; intros Hcmp; simpl; [constructor|].
  apply insert_by_sorted.
  - intros u v Hu Hv. rewrite sort_by_Permutation in Hu, Hv. by apply Hcmp.
  - apply IH. intros u v Hu Hv. apply Hcmp; by right.
Qed.

Lemma key_lt_sorted_inj l x y :
  StronglySorted key_lt l → x ∈ l → y ∈ l → key x = key y → x = y.
Proof.
  induction 1 as [|z l Hl IH Hz]; [set_solver|].
  rewrite Forall_forall in Hz. unfold key_lt in Hz.
  intros Hx Hy Hk. inv Hx; inv Hy; try done.
  - match goal with H : _ ∈ l |- _ => apply Hz in H end. lia.
  - match goal with H : _ ∈ l |- _ => apply Hz in H end. lia.
  - by apply IH.
Qed.

(** A sequence without equal keys has one sorted arrangement, and the sort
    finds it. *)
Lemma sort_by_unique l l' :
  l ≡ₚ l' →
  (∀ u v, u ∈ l → v ∈ l → cmp u v = (key u - key v)%Z) →
  StronglySorted key_lt l' →
  sort_by cmp l = l'.
Proof.
  intros Hperm Hcmp Hl'.
  apply (StronglySorted_unique_strong key_le).
  - intros u v Hu Hv Huv Hvu. unfold key_le in *.
    rewrite sort_by_Permutation, Hperm in Hu.
    apply (key_lt_sorted_inj l'); [done..|lia].
  - by apply sort_by_sorted.
  - clear -Hl'. induction Hl' as [|x l0 Hl0 IH Hx]; constructor; [done|].
    eapply Forall_impl; [exact Hx|]. unfold key_lt, key_le. intros; simpl in *; lia.
  - by rewrite sort_by_Permutation.
Qed.

(** Keys that count up along the sequence are strictly sorted. *)
Lemma counting_keys_sorted (c : Z) l :
  (∀ i s, l !! i = Some s → key s = (c + Z.of_nat i)%Z) →
  StronglySorted key_lt l.
Proof.
  revert c. induction l as [|x l IH]; intros c Hkeys; [constructor|].
  constructor.
  - apply (IH (c + 1)%Z). intros i s Hi.
    rewrite (Hkeys (S i) s Hi). lia.
  - apply Forall_forall. intros y Hy.
    apply list_elem_of_lookup in Hy as [i Hi].
    unfold key_lt. rewrite (Hkeys 0%nat x eq_refl), (Hkeys (S i) y Hi). lia.
Qed.

End SortBy.

(** ** Re-stamping the order of the stacks of a board *)

Lemma restamp_field_other i newOrder h s k :
  k ≠ "order" → get_field (restamp i newOrder h) s k = get_field h s k.
Proof.
  intros Hk. revert i h. induction newOrder as [|x rest IH]; intros i h; simpl.
  - done.
  - rewrite IH. apply get_field_set_field_ne. right. congruence.
Qed.

Lemma restamp_not_in i newOrder h s k :
  s ∉ newOrder → get_field (restamp i newOrder h) s k = get_field h s k.
Proof.
  revert i h. induction newOrder as [|x rest IH]; intros i h Hs; simpl.
  - done.
  - rewrite not_elem_of_cons in Hs. destruct Hs as [Hx Hrest].
    rewrite IH by done. apply get_field_set_field_ne. left. congruence.
Qed.

Lemma restamp_is_object i newOrder h s :
  is_object (restamp i newOrder h) s = is_object h s.
Proof.
  revert i h. induction newOrder as [|x rest IH]; intros i h; simpl.
  - done.
  - by rewrite IH, is_object_set_field.
Qed.

Lemma restamp_order i newOrder h :
  NoDup newOrder →
  Forall (λ s, is_object h s = true) newOrder →
  ∀ j s, newOrder !! j = Some s →
    get_field (restamp i newOrder h) s "order" = VNum (Z.of_nat (i + j)).
Proof.
  intros Hnd. revert i h.
  induction Hnd as [|x rest Hx Hnd IH]; intros i h Hobj j s Hj; [done|].
  apply Forall_cons in Hobj as [Hobjx Hobj]. simpl.
  destruct j as [|j]; simpl in Hj.
  - injection Hj as ->. rewrite restamp_not_in by done.
    rewrite get_field_set_field_eq by done. do 2 f_equal. lia.
  - rewrite (IH (S i) _) with (j := j) by
      (done || (eapply Forall_impl; [exact Hobj|];
                intros; simpl; by rewrite is_object_set_field)).
    do 2 f_equal. lia.
Qed.

Lemma map_counting {A B} (f : A → B) (g : nat → B) (c : nat) (l : list A) :
  (∀ j s, l !! j = Some s → f s = g (c + j)%nat) →
  map f l = map g (seq c (length l)).
Proof.
  revert c. induction l as [|x l IH]; intros c Hfg; simpl; [done|].
  f_equal.
  - rewrite (Hfg 0%nat x eq_refl). f_equal. lia.
  - apply IH. intros j s Hj. rewrite (Hfg (S j) s Hj). f_equal. lia.
Qed.

Lemma stacksByBoard_Permutation st id :
  stacksByBoard st id ≡ₚ stacks_of_board st id.
Proof. apply sort_by_Permutation. Qed.

(** Whatever permutation of the stacks of a board is stamped, the ordered
    stacks of the board are that permutation afterwards and every stack
    carries its position. The reorder helper only has to permute. *)
Lemma restamp_board st b newOrder :
  let h := objects st in
  let st' := with_objects st (restamp 0 newOrder h) in
  NoDup (stacks st) →
  Forall (λ s, is_object h s = true) (stacks st) →
  newOrder ≡ₚ stacks_of_board st b →
  stacksByBoard st' b = newOrder
  ∧ stacks_of_board st' b = stacks_of_board st b
  ∧ (∀ i s, newOrder !! i = Some s →
       get_field (objects st') s "order" = VNum (Z.of_nat i)).
Proof.
  intros h st' Hnd Hobj Hperm. subst st'. simpl.
  set (h' := restamp 0 newOrder h).
  assert (Hnd' : NoDup newOrder).
  { rewrite Hperm. unfold stacks_of_board.
    apply NoDup_ListNoDup, List.NoDup_filter. by apply NoDup_ListNoDup. }
  assert (Hobj' : Forall (λ s, is_object h s = true) newOrder).
  { rewrite Hperm. unfold stacks_of_board.
    apply Forall_forall. intros s Hs.
    apply list_elem_of_In, filter_In in Hs as [Hs _].
    rewrite Forall_forall in Hobj. by apply Hobj, list_elem_of_In. }
  assert (Hord : ∀ j s, newOrder !! j = Some s →
            get_field h' s "order" = VNum (Z.of_nat j)).
  { intros j s Hj. unfold h'.
    by rewrite (restamp_order 0 newOrder h Hnd' Hobj' j s Hj). }
  assert (Hpart : stacks_of_board (with_objects st h') b = stacks_of_board st b).
  { unfold stacks_of_board. simpl.
    apply List.filter_ext. intros s. fold h. unfold h'.
    by rewrite restamp_field_other. }
  split; [|by split].
  unfold stacksByBoard. fold (stacks_of_board (with_objects st h') b).
  rewrite Hpart. simpl.
  apply (sort_by_unique _ (order_key h')); [done| |].
  - intros u v Hu Hv. rewrite <- Hperm in Hu, Hv.
    apply list_elem_of_lookup in Hu as [i Hi], Hv as [j Hj].
    unfold compare_order, order_key.
    by rewrite (Hord i u Hi), (Hord j v Hj).
  - apply (counting_keys_sorted _ 0%Z). intros i s Hi.
    unfold order_key. rewrite (Hord i s Hi). lia.
Qed.

(** C3. Order re-stamping: on a store that holds every stack object once,
    after the [orderStack] mutation with indices inside the [n] stacks of
    the board, the ordered stacks of the board are the reordered sequence,
    every stack of it carries its position as [order], and the [order]
    fields of the stacks stored for the board are exactly [0 .. n-1]. *)
Theorem orderStack_restamps_order st p :
  let b := get_field (objects st) (stack p) "boardId" in
  let n := length (stacksByBoard st b) in
  let st' := Mutation.orderStack st p in
  NoDup (stacks st) →
  Forall (λ s, is_object (objects st) s = true) (stacks st) →
  removedIndex p < n → addedIndex p < n →
  stacksByBoard st' b
    = applyOrderToArray (stacksByBoard st b) (removedIndex p) (addedIndex p)
  ∧ length (stacksByBoard st' b) = n
  ∧ (∀ i s, stacksByBoard st' b !! i = Some s →
       get_field (objects st') s "order" = VNum (Z.of_nat i))
  ∧ map (λ s, get_field (objects st') s "order") (stacks_of_board st' b)
      ≡ₚ map (λ i, VNum (Z.of_nat i)) (seq 0 n).
Proof.
  intros b n st' Hnd Hobj Hr Ha.
  set (new := applyOrderToArray (stacksByBoard st b) (removedIndex p)
                (addedIndex p)).
  assert (Hst' : st' = with_objects st (restamp 0 new (objects st))) by done.
  assert (Hperm : new ≡ₚ stacks_of_board st b).
  { unfold new. rewrite applyOrderToArray_Permutation.
    apply stacksByBoard_Permutation. }
  assert (Hlen : length new = n) by apply applyOrderToArray_length.
  destruct (restamp_board st b new Hnd Hobj Hperm) as (Hsorted & Hpart & Hord).
  rewrite <- Hst' in Hsorted, Hpart, Hord.
  split; [done|]. split; [by rewrite Hsorted|]. split.
  - intros i s Hi. rewrite Hsorted in Hi. by apply Hord.
  - rewrite Hpart, <- Hperm, <- Hlen.
    rewrite (map_counting _ (λ i, VNum (Z.of_nat i)) 0 new); [done|].
    intros j s Hj. by apply Hord.
Qed.

Lemma orderStack_restamps_order_witness :
  stacksByBoard (Mutation.orderStack ThreeStacks.three_stacks ThreeStacks.move_B_first)
      (VNum 7)
    = [ThreeStacks.B; ThreeStacks.A; ThreeStacks.C]
  ∧ map (λ s, get_field
                (objects (Mutation.orderStack ThreeStacks.three_stacks
                            ThreeStacks.move_B_first)) s "order")
      [ThreeStacks.B; ThreeStacks.A; ThreeStacks.C]
    = [VNum 0; VNum 1; VNum 2].
Proof.
  destruct (orderStack_restamps_order ThreeStacks.three_stacks ThreeStacks.move_B_first)
    as (Hnew & Hlen & Hpos & Hall).
  - apply NoDup_ListNoDup. repeat constructor; simpl; intuition discriminate.
  - repeat constructor.
  - vm_compute. lia.
  - vm_compute. lia.
  - split; [exact Hnew|]. cbn [map].
    rewrite (Hpos 0 ThreeStacks.B), (Hpos 1 ThreeStacks.A), (Hpos 2 ThreeStacks.C);
      [reflexivity|rewrite Hnew; reflexivity..].
Defined.

(** ** Rolling a reorder back *)

(** What the failure handler of [orderStack] commits: the payload
    [{ stack, addedIndex, removedIndex }] names the same properties as the
    payload of the first commit, so the same reorder is applied again. *)
Lemma orderStack_rejected_commits_same_reorder st p err response data message :
  let st1 := Mutation.orderStack st p in
  get_prop (objects st1) err "response" = Ok response →
  get_prop (objects st1) response "data" = Ok data →
  get_prop (objects st1) data "message" = Ok message →
  start_and_settle (OrderStackAction p) (Rejected err) st
  = (Ok tt,
     {| store := Mutation.orderStack st1 p;
        trace := [Committed (OrderStack p);
                  Requested (ReorderStack (get_field (objects st1) (stack p) "id")
                               (addedIndex p));
                  Notified "Failed to change order";
                  Logged message;
                  Committed (OrderStack p)] |}).
Proof.
  destruct p as [s r a]. intros st1 Hr Hd Hm. subst st1.
  unfold start_and_settle, dispatch, Action.orderStack, context. simpl.
  unfold mbind, M_bind, call, commit, emit, get_state, lift, mret, M_ret.
  simpl in *. rewrite Hr, Hd, Hm. done.
Qed.

(** A rejection that carries no response makes the handler raise where it
    reads the message to log, before it commits anything: the reorder stays
    as it was applied. *)
Lemma orderStack_rejected_without_response st p err :
  let st1 := Mutation.orderStack st p in
  get_prop (objects st1) err "response" = Ok VUndef →
  start_and_settle (OrderStackAction p) (Rejected err) st
  = (Throw TypeError,
     {| store := st1;
        trace := [Committed (OrderStack p);
                  Requested (ReorderStack (get_field (objects st1) (stack p) "id")
                               (addedIndex p));
                  Notified "Failed to change order"] |}).
Proof.
  destruct p as [s r a]. intros st1 Hr. subst st1.
  unfold start_and_settle, dispatch, Action.orderStack, context. simpl.
  unfold mbind, M_bind, call, commit, emit, get_state, lift, mret, M_ret.
  simpl in *. rewrite Hr. done.
Qed.

(** C1. Rollback of a rejected reorder, evaluated on the stacks
    [A(0), B(1), C(2)]: moving [C] from index 2 to index 0 gives
    [C(0), A(1), B(2)] at once; when the remote call is rejected the handler
    commits the same reorder once more and the store ends at
    [B(0), C(1), A(2)], not at the order it started from. With indices 1
    and 0 the repeated reorder happens to give the first order back, and a
    rejection without a response leaves the reorder in place. *)
Theorem orderStack_rollback_repeats_reorder :
  ThreeStacks.board_order ThreeStacks.three_stacks
    = [(VStr "A", VNum 0); (VStr "B", VNum 1); (VStr "C", VNum 2)]
  ∧ ThreeStacks.board_order
      (store_after (start (OrderStackAction ThreeStacks.move_C_first)
                      ThreeStacks.three_stacks))
    = [(VStr "C", VNum 0); (VStr "A", VNum 1); (VStr "B", VNum 2)]
  ∧ ThreeStacks.board_order
      (store_after (start_and_settle (OrderStackAction ThreeStacks.move_C_first)
                      (Rejected (VRef ThreeStacks.server_error))
                      ThreeStacks.three_stacks))
    = [(VStr "B", VNum 0); (VStr "C", VNum 1); (VStr "A", VNum 2)]
  ∧ ThreeStacks.board_order
      (store_after (start_and_settle (OrderStackAction ThreeStacks.move_B_first)
                      (Rejected (VRef ThreeStacks.server_error))
                      ThreeStacks.three_stacks))
    = [(VStr "A", VNum 0); (VStr "B", VNum 1); (VStr "C", VNum 2)]
  ∧ ThreeStacks.board_order
      (store_after (start_and_settle (OrderStackAction ThreeStacks.move_B_first)
                      (Rejected (VRef ThreeStacks.network_error))
                      ThreeStacks.three_stacks))
    = [(VStr "B", VNum 0); (VStr "A", VNum 1); (VStr "C", VNum 2)].
Proof. repeat split; vm_compute; reflexivity. Qed.

(** ** Board filters *)

(** C7. Filter semantics on the boards [{archived: true}],
    [{archived: false}] and [{shared: true, archived: false}]:
    [noneArchivedBoards] leaves the first board out, [archivedBoards] holds
    the first board only, and [filteredBoards] under the filter ARCHIVED is
    the menu item of the first board and nothing else. *)
Theorem filter_semantics_three_boards
    {menu_item : Type} (boardToMenuItem : heap → loc → menu_item) :
  noneArchivedBoards BoardExample.three_boards
    = [BoardExample.second; BoardExample.third]
  ∧ archivedBoards BoardExample.three_boards = [BoardExample.first]
  ∧ filteredBoards boardToMenuItem
      (Mutation.setBoardFilter BoardExample.three_boards BOARD_FILTERS_ARCHIVED)
    = [boardToMenuItem BoardExample.boards_heap BoardExample.first].
Proof. repeat split; vm_compute; reflexivity. Qed.



Lemma sharedBoards_elem st b :
  b ∈ sharedBoards st ↔
    b ∈ boards st
    ∧ to_boolean (get_field (objects st) b "shared") = true
    ∧ to_boolean (get_field (objects st) b "deletedAt") = false.
Proof.
  unfold sharedBoards. rewrite !list_elem_of_In, filter_In, andb_true_iff.
  rewrite negb_true_iff. tauto.
Qed.



(** ** Array searches *)

Lemma findIndex_None {A} (p : A → bool) (l : list A) :
  findIndex p l = None ↔ ∀ x, x ∈ l → p x = false.
Proof.
  induction l as [|y l IH]; simpl.
  - split; [intros _ x Hx; by apply elem_of_nil in Hx|done].
  - destruct (p y) eqn:Hy.
    + split; [done|]. intros H. specialize (H y (list_elem_of_here _ _)). congruence.
    + rewrite fmap_None, IH. split.
      * intros H x Hx. apply elem_of_cons in Hx as [->|Hx]; auto.
      * intros H x Hx. apply H. by right.
Qed.

Lemma findIndex_Some {A} (p : A → bool) (l : list A) (i : nat) :
  findIndex p l = Some i ↔
    ∃ x, l !! i = Some x ∧ p x = true
         ∧ ∀ j y, j < i → l !! j = Some y → p y = false.
Proof.
  revert i. induction l as [|z l IH]; intros i; simpl.
  - split; [done|]. by intros (x & Hx & _).
  - destruct (p z) eqn:Hz.
    + split.
      * intros [= <-]. exists z. repeat split; [done|]. intros j y Hj. lia.
      * intros (x & Hx & Hpx & Hmin). destruct i as [|i]; [done|].
        specialize (Hmin 0 z ltac:(lia) eq_refl). congruence.
    + rewrite fmap_Some. split.
      * intros (i' & Hi' & ->). apply IH in Hi' as (x & Hx & Hpx & Hmin).
        exists x. repeat split; [done..|].
        intros [|j] y Hj Hy; simpl in Hy; [congruence|].
        apply (Hmin j); [lia|done].
      * intros (x & Hx & Hpx & Hmin). destruct i as [|i]; simpl in Hx.
        { congruence. }
        exists i. split; [|done]. apply IH. exists x. repeat split; [done..|].
        intros j y Hj Hy. apply (Hmin (S j)); [lia|done].
Qed.

(** [find] returns the element [findIndex] points at. *)
Lemma find_findIndex {A} (p : A → bool) (l : list A) :
  find p l = i ← findIndex p l; l !! i.
Proof.
  induction l as [|z l IH]; simpl; [done|].
  destruct (p z); [done|]. rewrite IH.
  by destruct (findIndex p l).
Qed.

Lemma find_None {A} (p : A → bool) (l : list A) :
  find p l = None ↔ ∀ x, x ∈ l → p x = false.
Proof.
  rewrite <- findIndex_None, find_findIndex.
  destruct (findIndex p l) as [i|] eqn:Hi; simpl; [|done].
  apply findIndex_Some in Hi as (x & Hx & _). rewrite Hx. done.
Qed.

Lemma strict_eq_true a b : strict_eq a b = true ↔ a = b.
Proof. unfold strict_eq. apply bool_decide_eq_true. Qed.

Lemma strict_eq_false a b : strict_eq a b = false ↔ a ≠ b.
Proof. unfold strict_eq. apply bool_decide_eq_false. Qed.

(** ** Labels of the current board *)

Lemma set_field_object h l k v :
  is_object h l = true →
  set_field h l k v = <[l := Obj (<[k := v]> (fields_of h l))]> h.
Proof.
  intros Hl. unfold set_field. by rewrite (is_object_fields h l Hl).
Qed.

(** C8. Label lookups on the current board, whose labels are the array
    [ls]: removing a label id that no label of [ls] has changes nothing and
    does not raise; updating with a label whose id no label of [ls] has
    raises a [TypeError]; updating with a label whose id is present
    overwrites the title and the color of the first label with that id, in
    the object of that label, and nothing else. *)
Theorem label_lookup_asymmetry st b arr ls :
  let h := objects st in
  currentBoard st = VRef b →
  get_field h b "labels" = VRef arr →
  h !! arr = Some (Arr ls) →
  Forall (λ l, is_object h l = true) ls →
  (∀ labelId,
     (∀ l, l ∈ ls → get_field h l "id" ≠ labelId) →
     Mutation.removeLabelFromCurrentBoard st labelId = Ok st)
  ∧ (∀ newLabel,
       (∀ l, l ∈ ls → get_field h l "id" ≠ get_field h newLabel "id") →
       Mutation.updateLabelFromCurrentBoard st newLabel = Throw TypeError)
  ∧ (∀ newLabel,
       (∃ l, l ∈ ls ∧ get_field h l "id" = get_field h newLabel "id") →
       ∃ i l,
         ls !! i = Some l
         ∧ get_field h l "id" = get_field h newLabel "id"
         ∧ (∀ j l', j < i → ls !! j = Some l' →
              get_field h l' "id" ≠ get_field h newLabel "id")
         ∧ Mutation.updateLabelFromCurrentBoard st newLabel
           = Ok (with_objects st
                   (<[l := Obj (<["color" := get_field h newLabel "color"]>
                                 (<["title" := get_field h newLabel "title"]>
                                    (fields_of h l)))]> h))).
Proof.
  intros h Hcur Hlabels Harr Hobj.
  assert (Hget : get_prop h (currentBoard st) "labels" = Ok (VRef arr)).
  { rewrite Hcur. simpl. by rewrite Hlabels. }
  assert (Has : as_array h (VRef arr) = Ok (arr, ls)).
  { simpl. by rewrite Harr. }
  split; [|split].
  - intros labelId Habsent. unfold Mutation.removeLabelFromCurrentBoard.
    fold h. rewrite Hget. simpl. rewrite Harr. simpl.
    replace (findIndex _ ls) with (@None nat); [done|].
    symmetry. apply findIndex_None. intros l Hl.
    apply strict_eq_false. intros ->. by apply (Habsent l).
  - intros newLabel Habsent. unfold Mutation.updateLabelFromCurrentBoard.
    fold h. rewrite Hget. simpl. rewrite Harr. simpl.
    replace (find _ ls) with (@None loc); [done|].
    symmetry. apply find_None. intros l Hl.
    apply strict_eq_false. intros Heq. by apply (Habsent l).
  - intros newLabel (l0 & Hl0 & Hid0).
    set (p := λ l, strict_eq (get_field h newLabel "id") (get_field h l "id")).
    destruct (findIndex p ls) as [i|] eqn:Hi.
    2:{ apply findIndex_None with (x := l0) in Hi; [|done].
        unfold p in Hi. apply strict_eq_false in Hi. congruence. }
    pose proof Hi as Hi'.
    apply findIndex_Some in Hi' as (l & Hl & Hpl & Hmin).
    exists i, l. unfold p in Hpl. apply strict_eq_true in Hpl.
    split; [done|]. split; [done|]. split.
    { intros j l' Hj Hl' Heq. specialize (Hmin j l' Hj Hl').
      unfold p in Hmin. apply strict_eq_false in Hmin. congruence. }
    unfold Mutation.updateLabelFromCurrentBoard.
    fold h. rewrite Hget. simpl. rewrite Harr. simpl.
    fold p. rewrite find_findIndex, Hi. simpl. rewrite Hl.
    assert (Hlobj : is_object h l = true).
    { rewrite Forall_forall in Hobj. apply Hobj.
      apply list_elem_of_lookup. by exists i. }
    do 2 f_equal.
    rewrite get_field_set_field_ne by (right; done).
    rewrite (set_field_object h l) by done.
    rewrite set_field_object.
    + unfold fields_of at 1. rewrite lookup_insert_eq.
      by rewrite insert_insert_eq.
    + unfold is_object. by rewrite lookup_insert_eq.
Qed.

Lemma label_lookup_asymmetry_witness :
  Mutation.removeLabelFromCurrentBoard LabelExample.on_board (VNum 9)
    = Ok LabelExample.on_board
  ∧ Mutation.updateLabelFromCurrentBoard LabelExample.on_board
      LabelExample.unknown
    = Throw TypeError
  ∧ ∃ st', Mutation.updateLabelFromCurrentBoard LabelExample.on_board
             LabelExample.renamed = Ok st'
           ∧ fields_of (objects st') LabelExample.feature
             = <["color" := VStr "0000ff"]> (<["title" := VStr "chore"]>
                 (fields_of LabelExample.labels_heap LabelExample.feature)).
Proof.
  destruct (label_lookup_asymmetry LabelExample.on_board LabelExample.board
              LabelExample.labels [LabelExample.bug; LabelExample.feature])
    as (Hremove & Hupdate & Hpresent).
  - reflexivity.
  - reflexivity.
  - reflexivity.
  - repeat constructor.
  - split; [|split].
    + apply Hremove. intros l Hl.
      apply elem_of_cons in Hl as [->|Hl]; [discriminate|].
      apply elem_of_cons in Hl as [->|Hl]; [discriminate|].
      by apply elem_of_nil in Hl.
    + apply Hupdate. intros l Hl.
      apply elem_of_cons in Hl as [->|Hl]; [discriminate|].
      apply elem_of_cons in Hl as [->|Hl]; [discriminate|].
      by apply elem_of_nil in Hl.
    + destruct (Hpresent LabelExample.renamed) as (i & l & Hl & Hid & Hmin & Hres).
      { exists LabelExample.feature. split; [|reflexivity].
        right. left. }
      assert (l = LabelExample.feature) as ->.
      { destruct i as [|[|i]]; simpl in Hl; [| |discriminate].
        - injection Hl as <-. discriminate Hid.
        - by injection Hl as <-. }
      eexists. split; [exact Hres|].
      simpl. unfold fields_of at 1. rewrite lookup_insert_eq. reflexivity.
Defined.

(** ** The board filter *)

Lemma mutate_boardFilter m st :
  boardFilter (state_after (mutate m st) st)
  = match m with
    | SetBoardFilter filter => filter
    | _ => boardFilter st
    end.
Proof.
  destruct m; simpl; try done.
  - unfold Mutation.addStack. destruct (findIndex _ _); done.
  - unfold Mutation.deleteStack. destruct (findIndex _ _); done.
  - unfold Mutation.updateStack. destruct (findIndex _ _); done.
  - unfold Mutation.addCard. destruct (findIndex _ _); done.
  - unfold Mutation.addBoard. destruct (findIndex _ _); done.
  - unfold Mutation.removeLabelFromCurrentBoard.
    destruct (get_prop _ _ _) as [v|]; simpl; [|done].
    destruct (as_array _ v) as [[arr ls]|]; simpl; [|done].
    destruct (findIndex _ _); done.
  - unfold Mutation.updateLabelFromCurrentBoard.
    destruct (get_prop _ _ _) as [v|]; simpl; [|done].
    destruct (as_array _ v) as [[arr ls]|]; simpl; [|done].
    destruct (find _ _); done.
  - unfold Mutation.addLabelToCurrentBoard.
    destruct (get_prop _ _ _) as [v|]; simpl; [|done].
    destruct (as_array _ v) as [[arr ls]|]; simpl; done.
Qed.

Section KeepsFilter.
Context {A B : Type}.
Implicit Types (c : M A) (f : A → M B).

Lemma keeps_filter_ret (Q : A → Prop) (a : A) : Q a → keeps_filter Q (mret a).
Proof. intros Ha w. by split. Qed.

Lemma keeps_filter_bind (Q : A → Prop) (Q' : B → Prop) c f :
  keeps_filter Q c → (∀ a, Q a → keeps_filter Q' (f a)) →
  keeps_filter Q' (c ≫= f).
Proof.
  intros Hc Hf w. unfold mbind, M_bind.
  destruct (Hc w) as [Hw HQ]. destruct (c w) as [[a|e] w']; simpl in *.
  - destruct (Hf a HQ w') as [Hw' HQ']. split; [congruence|done].
  - by split.
Qed.

Lemma keeps_filter_weaken (Q Q' : A → Prop) c :
  keeps_filter Q c → (∀ a, Q a → Q' a) → keeps_filter Q' c.
Proof.
  intros Hc HQ w. destruct (Hc w) as [Hw Ha]. split; [done|].
  destruct ((c w).1); auto.
Qed.

Lemma keeps_filter_throw (Q : A → Prop) e : keeps_filter Q (throw e).
Proof. intros w. by split. Qed.

Lemma keeps_filter_lift (r : result A) : keeps_filter (λ _, True) (lift r).
Proof. intros w. split; [done|]. simpl. by destruct r. Qed.

End KeepsFilter.

Lemma keeps_filter_emit e : keeps_filter (λ _, True) (emit e).
Proof. intros w. by split. Qed.

Lemma keeps_filter_get_state : keeps_filter (λ _, True) get_state.
Proof. intros w. by split. Qed.

Lemma keeps_filter_put_objects h : keeps_filter (λ _, True) (put_objects h).
Proof. intros w. by split. Qed.

Lemma keeps_filter_commit m :
  (∀ filter, m ≠ SetBoardFilter filter) → keeps_filter (λ _, True) (commit m).
Proof.
  intros Hm w. unfold commit.
  pose proof (mutate_boardFilter m (store w)) as Hf.
  destruct (mutate m (store w)) as [st'|e]; simpl in *; [|done].
  split; [|done]. rewrite Hf. destruct m; try done. by destruct (Hm filter).
Qed.

Lemma keeps_filter_call name m :
  (∀ filter, m ≠ SetBoardFilter filter) ∨ name ≠ "commit" →
  keeps_filter (λ _, True) (call (context name) m).
Proof.
  intros Hm. unfold context. destruct (decide (name = "commit")) as [->|Hn].
  - destruct Hm as [Hm|]; [|done]. by apply keeps_filter_commit.
  - apply keeps_filter_throw.
Qed.

Lemma keeps_filter_for_each {A} (l : list A) (body : A → M unit) :
  (∀ x, keeps_filter (λ _, True) (body x)) →
  keeps_filter (λ _, True) (for_each l body).
Proof.
  intros Hbody. induction l as [|x l IH]; simpl.
  - by apply keeps_filter_ret.
  - eapply keeps_filter_bind; [apply Hbody|]. intros _ _. apply IH.
Qed.

Lemma keeps_filter_entity r : keeps_filter (λ _, True) (entity r).
Proof. intros w. split; [by destruct r|]. by destruct r. Qed.

Lemma keeps_filter_entities r : keeps_filter (λ _, True) (entities r).
Proof. intros w. split; [by destruct r|]. by destruct r. Qed.

Lemma keeps_filter_settle hs o :
  handlers_keep_filter hs → keeps_filter (λ _, True) (settle hs o).
Proof.
  intros [Hf Hr]. destruct o as [r|err]; simpl.
  - destruct (on_fulfilled hs) as [k|] eqn:Hk; simpl.
    + by apply Hf.
    + by apply keeps_filter_ret.
  - destruct (on_rejected hs) as [k|] eqn:Hk; simpl.
    + by apply Hr.
    + by apply keeps_filter_ret.
Qed.

(** Going through a computation step by step. *)
Ltac keeps_filter_step :=
  first
    [ apply keeps_filter_emit
    | apply keeps_filter_get_state
    | apply keeps_filter_put_objects
    | apply keeps_filter_lift
    | apply keeps_filter_entity
    | apply keeps_filter_entities
    | apply keeps_filter_commit; intros ?; discriminate
    | apply keeps_filter_call; left; intros ?; discriminate
    | apply keeps_filter_call; right; discriminate
    | apply keeps_filter_for_each; intros ?
    | apply (keeps_filter_bind (λ _, True)); [|intros ? _]
    | apply keeps_filter_ret;
      split; simpl; intros ? ? [= <-] ].

Lemma dispatch_keeps_filter a : keeps_filter handlers_keep_filter (dispatch a).
Proof.
  destruct a as [[s r i]| | | | | | | | | | | | | | | | |]; simpl;
    unfold Action.orderStack, Action.loadStacks, Action.createStack,
      Action.deleteStack, Action.updateStack, Action.archiveBoard,
      Action.updateBoard, Action.createBoard, Action.removeBoard,
      Action.loadBoards, Action.loadSharees, Action.setBoardFilter,
      Action.toggleNav, Action.toggleSidebar, Action.setCurrentBoard,
      Action.removeLabelFromCurrentBoard, Action.updateLabelFromCurrentBoard,
      Action.addLabelToCurrentBoard, no_handlers;
    repeat keeps_filter_step; done.
Qed.

(** C10. Dispatching [setBoardFilter] raises for every state and every
    filter: the action takes [commmit] out of its context, which has no
    such member, and calls it. Nothing is committed and the state is the one
    it was dispatched on, also after any remote outcome. The mutation
    [setBoardFilter] is the only one that changes [boardFilter], and no
    action of the store changes it, whatever its remote call settles with:
    [boardFilter] changes only where that mutation is committed directly. *)
Theorem setBoardFilter_action_raises st filter :
  (∀ w, dispatch (SetBoardFilterAction filter) w = (Throw TypeError, w))
  ∧ (∀ o, start_and_settle (SetBoardFilterAction filter) o st
          = (Throw TypeError, {| store := st; trace := [] |}))
  ∧ boardFilter (state_after (mutate (SetBoardFilter filter) st) st) = filter
  ∧ (∀ m, boardFilter (state_after (mutate m st) st)
          = match m with
            | SetBoardFilter filter' => filter'
            | _ => boardFilter st
            end)
  ∧ (∀ a o, boardFilter (store_after (start_and_settle a o st))
            = boardFilter st).
Proof.
  split; [done|]. split; [done|]. split; [done|].
  split; [intros m; apply mutate_boardFilter|].
  intros a o. unfold store_after, start_and_settle.
  assert (keeps_filter (λ _, True) (hs ← dispatch a; settle hs o)) as Hk.
  { eapply keeps_filter_bind; [apply dispatch_keeps_filter|].
    intros hs Hhs. by apply keeps_filter_settle. }
  apply (Hk {| store := st; trace := [] |}).
Qed.

(** ** Adding stacks and boards *)

Lemma findIndex_fmap {A B} (f : A → B) (p : B → bool) (l : list A) :
  findIndex p (f <$> l) = findIndex (p ∘ f) l.
Proof.
  induction l as [|x l IH]; simpl; [done|].
  destruct (p (f x)); [done|]. f_equal. exact IH.
Qed.

Lemma findIndex_ext {A} (p q : A → bool) (l : list A) :
  (∀ x, x ∈ l → p x = q x) → findIndex p l = findIndex q l.
Proof.
  induction l as [|x l IH]; intros Hpq; simpl; [done|].
  rewrite (Hpq x) by left. rewrite IH; [done|].
  intros y Hy. apply Hpq. by right.
Qed.

Lemma findIndex_lt {A} (p : A → bool) (l : list A) i :
  findIndex p l = Some i → i < length l.
Proof.
  intros Hi. apply findIndex_Some in Hi as (x & Hx & _).
  by apply lookup_lt_Some in Hx.
Qed.

Lemma findIndex_app_new {A} (p : A → bool) (l : list A) x :
  findIndex p l = None → p x = true → findIndex p (l ++ [x]) = Some (length l).
Proof.
  intros Hl Hx. apply findIndex_Some. exists x.
  split; [by rewrite lookup_app_r, Nat.sub_diag|]. split; [done|].
  intros j y Hj Hy. rewrite lookup_app_l in Hy by done.
  rewrite findIndex_None in Hl. apply Hl. apply list_elem_of_lookup. by exists j.
Qed.

Lemma findIndex_alter {A} (p : A → bool) (f : A → A) (l : list A) i x :
  findIndex p l = Some i → l !! i = Some x → p (f x) = true →
  findIndex p (alter f i l) = Some i.
Proof.
  intros Hi Hx Hfx. apply findIndex_Some in Hi as (x' & Hx' & _ & Hmin).
  apply findIndex_Some. exists (f x).
  split; [by rewrite list_lookup_alter_eq, Hx|]. split; [done|].
  intros j y Hj Hy. rewrite list_lookup_alter_ne in Hy by lia. by apply (Hmin j).
Qed.

Lemma strict_eq_sym a b : strict_eq a b = strict_eq b a.
Proof.
  unfold strict_eq. destruct (decide (a = b)) as [->|Hne].
  - done.
  - rewrite !bool_decide_eq_false_2; congruence.
Qed.

Lemma strict_eq_refl a : strict_eq a a = true.
Proof. by apply strict_eq_true. Qed.

(** *** Records and growing heaps *)

Lemma get_field_record h l : get_field h l "id" = id_of_record (fields_of h l).
Proof. done. Qed.

Lemma fresh_unused (h : heap) : h !! fresh (dom h) = None.
Proof. apply not_elem_of_dom, is_fresh. Qed.

Lemma fields_of_weaken h h' l :
  h ⊆ h' → is_object h l = true → fields_of h' l = fields_of h l.
Proof.
  intros Hsub Hl. apply is_object_fields in Hl.
  unfold fields_of at 1. by rewrite (lookup_weaken _ _ _ _ Hl Hsub).
Qed.

Lemma is_object_weaken h h' l :
  h ⊆ h' → is_object h l = true → is_object h' l = true.
Proof.
  intros Hsub Hl. apply is_object_fields in Hl.
  unfold is_object. by rewrite (lookup_weaken _ _ _ _ Hl Hsub).
Qed.

Lemma records_weaken h h' l :
  h ⊆ h' → Forall (λ s, is_object h s = true) l → records h' l = records h l.
Proof.
  intros Hsub Hl. unfold records. apply list_fmap_ext.
  intros i s Hs. apply fields_of_weaken; [done|].
  rewrite Forall_forall in Hl. apply Hl. apply list_elem_of_lookup. by exists i.
Qed.

Lemma ids_records h l : ids h l = id_of_record <$> records h l.
Proof. unfold ids, records. by rewrite <- list_fmap_compose. Qed.

Lemma id_of_record_union x e :
  id_of_record e = id_of_record x → id_of_record (x ∪ e) = id_of_record x.
Proof.
  unfold id_of_record. intros He. rewrite lookup_union.
  destruct (x !! "id") as [v|]; simpl.
  - by destruct (e !! "id").
  - destruct (e !! "id"); done.
Qed.

Lemma alter_as_insert {A} (f : A → A) (l : list A) i x :
  l !! i = Some x → alter f i l = <[i := f x]> l.
Proof.
  intros Hx. apply list_eq. intros j. destruct (decide (i = j)) as [<-|Hne].
  - rewrite list_lookup_alter_eq, Hx.
    by rewrite list_lookup_insert_eq by (by eapply lookup_lt_Some).
  - by rewrite list_lookup_alter_ne, list_lookup_insert_ne.
Qed.

(** What an upsert that merges does to the records of its collection: it
    is the [add_merging] of the specification. The heap only grows, by the
    merged object. [coll] is the collection before, [coll'] and [h'] are the
    collection and the heap after. *)
Lemma merge_refines h (coll : list loc) (p : loc) i e :
  Forall (λ s, is_object h s = true) coll →
  findIndex (λ y, strict_eq (get_field h y "id") (get_field h p "id")) coll
    = Some i →
  coll !! i = Some e →
  let merged := (alloc h (Obj (object_assign h (Some e) p))).1 in
  let h' := (alloc h (Obj (object_assign h (Some e) p))).2 in
  records h' (<[i := merged]> coll)
    = add_merging (records h coll) (fields_of h p)
  ∧ h ⊆ h'
  ∧ Forall (λ s, is_object h' s = true) (<[i := merged]> coll).
Proof.
  intros Hobj Hi He. unfold alloc, object_assign. simpl.
  set (m := fresh (dom h)).
  set (h' := <[m := Obj (fields_of h p ∪ fields_of h e)]> h).
  assert (Hsub : h ⊆ h') by apply insert_subseteq, fresh_unused.
  assert (Hm : fields_of h' m = fields_of h p ∪ fields_of h e).
  { unfold fields_of at 1, h'. by rewrite lookup_insert_eq. }
  split; [|split; [done|]].
  - unfold add_merging, records. rewrite findIndex_fmap.
    change (findIndex _ coll) with
      (findIndex (λ y, strict_eq (get_field h y "id") (get_field h p "id")) coll).
    rewrite Hi. rewrite list_fmap_insert, Hm.
    rewrite (alter_as_insert _ _ i (fields_of h e)) by (by rewrite list_lookup_fmap, He).
    f_equal. by apply (records_weaken h h').
  - apply Forall_insert.
    + eapply Forall_impl; [exact Hobj|]. intros s Hs. simpl in *.
      by apply (is_object_weaken h h').
    + unfold is_object, h'. by rewrite lookup_insert_eq.
Qed.

Lemma append_refines h (coll : list loc) (p : loc) :
  findIndex (λ y, strict_eq (get_field h y "id") (get_field h p "id")) coll
    = None →
  records h (coll ++ [p]) = add_merging (records h coll) (fields_of h p).
Proof.
  intros Hi. unfold add_merging, records. rewrite findIndex_fmap.
  change (findIndex _ coll) with
    (findIndex (λ y, strict_eq (get_field h y "id") (get_field h p "id")) coll).
  rewrite Hi. by rewrite fmap_app.
Qed.

Lemma addStack_refines st p :
  let h := objects st in
  let st' := Mutation.addStack st p in
  Forall (λ s, is_object h s = true) (stacks st) →
  is_object h p = true →
  records (objects st') (stacks st')
    = add_merging (records h (stacks st)) (fields_of h p)
  ∧ h ⊆ objects st'
  ∧ Forall (λ s, is_object (objects st') s = true) (stacks st')
  ∧ cards st' = cards st ∧ boards st' = boards st.
Proof.
  intros h st' Hobj Hp. subst st'. unfold Mutation.addStack. fold h.
  destruct (findIndex _ (stacks st)) as [i|] eqn:Hi.
  - pose proof Hi as Hi'. apply findIndex_Some in Hi' as (e & He & _).
    rewrite find_findIndex, Hi. simpl. rewrite He.
    pose proof (merge_refines h (stacks st) p i e Hobj Hi He) as Hm.
    simpl in *. destruct Hm as (Hrec & Hsub & Hobj'). by repeat split.
  - simpl. split; [by apply append_refines|]. split; [done|].
    split; [|done]. apply Forall_app. split; [done|]. by constructor.
Qed.

Lemma addCard_refines st p :
  let h := objects st in
  let st' := Mutation.addCard st p in
  Forall (λ s, is_object h s = true) (cards st) →
  is_object h p = true →
  records (objects st') (cards st')
    = add_merging (records h (cards st)) (fields_of h p)
  ∧ h ⊆ objects st'
  ∧ Forall (λ s, is_object (objects st') s = true) (cards st')
  ∧ stacks st' = stacks st ∧ boards st' = boards st.
Proof.
  intros h st' Hobj Hp. subst st'. unfold Mutation.addCard. fold h.
  destruct (findIndex _ (cards st)) as [i|] eqn:Hi.
  - pose proof Hi as Hi'. apply findIndex_Some in Hi' as (e & He & _).
    rewrite find_findIndex, Hi. simpl. rewrite He.
    pose proof (merge_refines h (cards st) p i e Hobj Hi He) as Hm.
    simpl in *. destruct Hm as (Hrec & Hsub & Hobj'). by repeat split.
  - simpl. split; [by apply append_refines|]. split; [done|].
    split; [|done]. apply Forall_app. split; [done|]. by constructor.
Qed.

Lemma addBoard_refines st p :
  let h := objects st in
  let st' := Mutation.addBoard st p in
  records (objects st') (boards st')
    = add_replacing (records h (boards st)) (fields_of h p)
  ∧ objects st' = h.
Proof.
  intros h st'. subst st'. unfold Mutation.addBoard, add_replacing. fold h.
  unfold records at 2. rewrite findIndex_fmap.
  rewrite (findIndex_ext (same_id_as (fields_of h p) ∘ fields_of h)
             (λ b, strict_eq (get_field h p "id") (get_field h b "id")));
    [|intros b _; apply strict_eq_sym].
  destruct (findIndex _ (boards st)) as [i|] eqn:Hi; simpl.
  - split; [|done]. unfold records. by rewrite list_fmap_insert.
  - split; [|done]. unfold records. by rewrite fmap_app.
Qed.

(** *** One record per id *)

Section AddRecords.
Implicit Types (rs : list (gmap string val)) (x : gmap string val).

Lemma same_id_absent rs x :
  findIndex (same_id_as x) rs = None ↔ id_of_record x ∉ id_of_record <$> rs.
Proof.
  rewrite findIndex_None, list_elem_of_fmap. split.
  - intros Hall (r & Hid & Hr). specialize (Hall r Hr).
    unfold same_id_as in Hall. apply strict_eq_false in Hall. congruence.
  - intros Hnot r Hr. unfold same_id_as. apply strict_eq_false.
    intros Hid. apply Hnot. by exists r.
Qed.

Lemma same_id_present rs x i :
  findIndex (same_id_as x) rs = Some i →
  ∃ e, rs !! i = Some e ∧ id_of_record e = id_of_record x.
Proof.
  intros Hi. apply findIndex_Some in Hi as (e & He & Hid & _).
  exists e. split; [done|]. unfold same_id_as in Hid. by apply strict_eq_true in Hid.
Qed.

(** Either way of adding leaves the ids of the collection as they are when
    the id is there already, and appends the id otherwise. *)
Lemma add_merging_ids rs x :
  id_of_record <$> add_merging rs x
  = if decide (id_of_record x ∈ id_of_record <$> rs)
    then id_of_record <$> rs
    else (id_of_record <$> rs) ++ [id_of_record x].
Proof.
  unfold add_merging. destruct (findIndex _ rs) as [i|] eqn:Hi.
  - destruct (same_id_present rs x i Hi) as (e & He & Hid).
    rewrite decide_True.
    2:{ apply list_elem_of_fmap. exists e. split; [done|].
        apply list_elem_of_lookup. by exists i. }
    rewrite (alter_as_insert _ _ i e He), list_fmap_insert.
    rewrite id_of_record_union by done.
    apply list_insert_id. by rewrite list_lookup_fmap, He, <- Hid.
  - apply same_id_absent in Hi. rewrite decide_False by done.
    by rewrite fmap_app.
Qed.

Lemma add_replacing_ids rs x :
  id_of_record <$> add_replacing rs x
  = if decide (id_of_record x ∈ id_of_record <$> rs)
    then id_of_record <$> rs
    else (id_of_record <$> rs) ++ [id_of_record x].
Proof.
  unfold add_replacing. destruct (findIndex _ rs) as [i|] eqn:Hi.
  - destruct (same_id_present rs x i Hi) as (e & He & Hid).
    rewrite decide_True.
    2:{ apply list_elem_of_fmap. exists e. split; [done|].
        apply list_elem_of_lookup. by exists i. }
    rewrite list_fmap_insert.
    apply list_insert_id. by rewrite list_lookup_fmap, He, <- Hid.
  - apply same_id_absent in Hi. rewrite decide_False by done.
    by rewrite fmap_app.
Qed.

(** Adding the same payload twice is adding it once. *)
Lemma add_merging_idempotent rs x :
  add_merging (add_merging rs x) x = add_merging rs x.
Proof.
  unfold add_merging at 2. destruct (findIndex _ rs) as [i|] eqn:Hi.
  - destruct (same_id_present rs x i Hi) as (e & He & Hid).
    unfold add_merging.
    rewrite (findIndex_alter _ _ rs i e Hi He).
    2:{ unfold same_id_as. apply strict_eq_true. by apply id_of_record_union. }
    rewrite list_alter_alter_eq. rewrite Hi. apply list_alter_ext; [|done].
    intros r _. simpl. by rewrite (assoc_L (∪)), (idemp_L (∪)).
  - unfold add_merging.
    rewrite (findIndex_app_new _ rs x Hi).
    2:{ unfold same_id_as. apply strict_eq_refl. }
    rewrite alter_app_r_alt by done. rewrite Nat.sub_diag, Hi. simpl.
    by rewrite (idemp_L (∪)).
Qed.

Lemma add_replacing_idempotent rs x :
  add_replacing (add_replacing rs x) x = add_replacing rs x.
Proof.
  unfold add_replacing at 2. destruct (findIndex _ rs) as [i|] eqn:Hi.
  - destruct (same_id_present rs x i Hi) as (e & He & Hid).
    unfold add_replacing. rewrite list_insert_alter.
    rewrite (findIndex_alter _ _ rs i e Hi He).
    2:{ unfold same_id_as. apply strict_eq_refl. }
    rewrite <- list_insert_alter, Hi. apply list_insert_insert_eq.
  - unfold add_replacing.
    rewrite (findIndex_app_new _ rs x Hi).
    2:{ unfold same_id_as. apply strict_eq_refl. }
    rewrite insert_app_r_alt by done. by rewrite Nat.sub_diag, Hi.
Qed.

(** A sequence of adds, in either way, keeps one record per id, and the
    ids of the collection are the ids it had and the ids that were added. *)
Lemma add_all_unique (add : list (gmap string val) → gmap string val →
                           list (gmap string val)) xs :
  (∀ rs x, id_of_record <$> add rs x
           = if decide (id_of_record x ∈ id_of_record <$> rs)
             then id_of_record <$> rs
             else (id_of_record <$> rs) ++ [id_of_record x]) →
  ∀ rs,
    NoDup (id_of_record <$> rs) →
    NoDup (id_of_record <$> foldl add rs xs)
    ∧ ∀ v, v ∈ id_of_record <$> foldl add rs xs
           ↔ v ∈ id_of_record <$> rs ∨ v ∈ id_of_record <$> xs.
Proof.
  intros Hadd. induction xs as [|x xs IH]; intros rs Hnd; simpl.
  - split; [done|]. intros v. rewrite elem_of_nil. tauto.
  - destruct (IH (add rs x)) as [Hnd' Hin].
    + rewrite Hadd. case_decide; [done|].
      apply NoDup_app. split; [done|]. split; [|apply NoDup_singleton].
      intros v Hv. rewrite list_elem_of_singleton. by intros ->.
    + split; [done|]. intros v. rewrite Hin, Hadd, elem_of_cons.
      case_decide as Hx.
      * split; [tauto|]. intros [?|[->|?]]; tauto.
      * rewrite elem_of_app, list_elem_of_singleton. tauto.
Qed.

End AddRecords.

Lemma addStack_all_refines ps :
  ∀ st,
    Forall (λ s, is_object (objects st) s = true) (stacks st) →
    Forall (λ s, is_object (objects st) s = true) ps →
    let st' := foldl Mutation.addStack st ps in
    records (objects st') (stacks st')
      = foldl add_merging (records (objects st) (stacks st))
          (records (objects st) ps)
    ∧ objects st ⊆ objects st'.
Proof.
  induction ps as [|p ps IH]; intros st Hobj Hps; simpl; [done|].
  apply Forall_cons in Hps as [Hp Hps].
  destruct (addStack_refines st p Hobj Hp) as (Hrec & Hsub & Hobj' & _).
  destruct (IH (Mutation.addStack st p)) as [Hrec' Hsub'].
  - done.
  - eapply Forall_impl; [exact Hps|]. intros s Hs. simpl in *.
    by apply (is_object_weaken (objects st)).
  - split; [|by etrans].
    rewrite Hrec', Hrec. f_equal. by apply records_weaken.
Qed.

Lemma addBoard_all_refines ps :
  ∀ st,
    let st' := foldl Mutation.addBoard st ps in
    records (objects st') (boards st')
      = foldl add_replacing (records (objects st) (boards st))
          (records (objects st) ps)
    ∧ objects st' = objects st.
Proof.
  induction ps as [|p ps IH]; intros st; simpl; [done|].
  destruct (addBoard_refines st p) as [Hrec Hh].
  destruct (IH (Mutation.addBoard st p)) as [Hrec' Hh'].
  split; [|congruence]. rewrite Hrec', Hrec, Hh. done.
Qed.

Lemma same_id_index rs x i e :
  NoDup (id_of_record <$> rs) →
  rs !! i = Some e → id_of_record e = id_of_record x →
  findIndex (same_id_as x) rs = Some i.
Proof.
  intros Hnd He Hid.
  destruct (findIndex (same_id_as x) rs) as [j|] eqn:Hj.
  - destruct (same_id_present rs x j Hj) as (e' & He' & Hid').
    f_equal. apply (NoDup_lookup _ j i (id_of_record x) Hnd).
    + by rewrite list_lookup_fmap, He', <- Hid'.
    + by rewrite list_lookup_fmap, He, <- Hid.
  - apply same_id_absent in Hj. destruct Hj.
    apply list_elem_of_fmap. exists e. split; [done|].
    apply list_elem_of_lookup. by exists i.
Qed.

(** C4, against the specification. [addBoard] does not merge the incoming
    fields over the existing record: the board with the id of the payload
    is replaced by the payload, and the color the existing record had is
    gone. [addStack] on the same collection keeps it. *)
Lemma addBoard_replaces_existing_record :
  records (objects UpsertExample.one_record) (boards UpsertExample.one_record)
    = [<["id" := VNum 5]> (<["title" := VStr "old"]>
         (<["color" := VStr "red"]> ∅))]
  ∧ records (objects (Mutation.addBoard UpsertExample.one_record
                        UpsertExample.payload))
      (boards (Mutation.addBoard UpsertExample.one_record UpsertExample.payload))
    = [<["id" := VNum 5]> (<["title" := VStr "new"]> ∅)]
  ∧ records (objects (Mutation.addStack UpsertExample.one_record
                        UpsertExample.payload))
      (stacks (Mutation.addStack UpsertExample.one_record UpsertExample.payload))
    = [<["id" := VNum 5]> (<["title" := VStr "new"]>
         (<["color" := VStr "red"]> ∅))].
Proof. repeat split; vm_compute; reflexivity. Qed.

(** C4, as the code has it. On a store whose stacks and boards have one
    record per id: after any sequence of [addStack] (of [addBoard])
    mutations, with ids repeated or not, the collection still has one record
    per id, and its ids are the ids it had and the ids of the payloads. An
    [addStack] whose id exists puts, in the place of the existing record,
    the existing fields overwritten by the incoming ones, so fields the
    payload does not have stay; an [addBoard] whose id exists puts the
    payload in the place of the existing record, so fields the payload does
    not have are gone. Neither appends then; both append a payload whose id
    is new. Adding the same payload a second time changes no record. *)
Theorem add_is_upsert_by_id st payloads :
  let h := objects st in
  let stack_records := records h (stacks st) in
  let board_records := records h (boards st) in
  let records_of_stacks st' := records (objects st') (stacks st') in
  let records_of_boards st' := records (objects st') (boards st') in
  let ids_of_stacks st' := ids (objects st') (stacks st') in
  let ids_of_boards st' := ids (objects st') (boards st') in
  Forall (λ s, is_object h s = true) (stacks st) →
  Forall (λ s, is_object h s = true) payloads →
  NoDup (ids h (stacks st)) →
  NoDup (ids h (boards st)) →
  (NoDup (ids_of_stacks (foldl Mutation.addStack st payloads))
   ∧ ∀ v, v ∈ ids_of_stacks (foldl Mutation.addStack st payloads)
          ↔ v ∈ ids h (stacks st) ∨ v ∈ ids h payloads)
  ∧ (NoDup (ids_of_boards (foldl Mutation.addBoard st payloads))
     ∧ ∀ v, v ∈ ids_of_boards (foldl Mutation.addBoard st payloads)
            ↔ v ∈ ids h (boards st) ∨ v ∈ ids h payloads)
  ∧ (∀ p, p ∈ payloads →
       (∀ i e, stack_records !! i = Some e →
               id_of_record e = get_field h p "id" →
               records_of_stacks (Mutation.addStack st p)
               = <[i := fields_of h p ∪ e]> stack_records)
       ∧ (get_field h p "id" ∉ ids h (stacks st) →
          records_of_stacks (Mutation.addStack st p)
          = stack_records ++ [fields_of h p])
       ∧ (∀ i e, board_records !! i = Some e →
                 id_of_record e = get_field h p "id" →
                 records_of_boards (Mutation.addBoard st p)
                 = <[i := fields_of h p]> board_records)
       ∧ (get_field h p "id" ∉ ids h (boards st) →
          records_of_boards (Mutation.addBoard st p)
          = board_records ++ [fields_of h p])
       ∧ records_of_stacks (Mutation.addStack (Mutation.addStack st p) p)
         = records_of_stacks (Mutation.addStack st p)
       ∧ Mutation.addBoard (Mutation.addBoard st p) p = Mutation.addBoard st p).
Proof.
  intros h stack_records board_records records_of_stacks records_of_boards
    ids_of_stacks ids_of_boards Hobj Hps Hnds Hndb.
  rewrite ids_records in Hnds, Hndb. fold stack_records in Hnds.
  fold board_records in Hndb.
  split; [|split].
  - destruct (addStack_all_refines payloads st Hobj Hps) as [Hrec _].
    unfold ids_of_stacks. rewrite ids_records, Hrec. fold h stack_records.
    rewrite !ids_records. fold stack_records.
    by apply (add_all_unique add_merging _ add_merging_ids).
  - destruct (addBoard_all_refines payloads st) as [Hrec _].
    unfold ids_of_boards. rewrite ids_records, Hrec. fold h board_records.
    rewrite !ids_records. fold board_records.
    by apply (add_all_unique add_replacing _ add_replacing_ids).
  - intros p Hp.
    assert (Hpobj : is_object h p = true).
    { rewrite Forall_forall in Hps. by apply Hps. }
    destruct (addStack_refines st p Hobj Hpobj) as (Hs & Hsub & Hobj' & _).
    destruct (addBoard_refines st p) as [Hb Hbh].
    fold h stack_records in Hs. fold h board_records in Hb.
    split; [|split; [|split; [|split; [|split]]]].
    + intros i e He Hid. unfold records_of_stacks. rewrite Hs.
      unfold add_merging.
      rewrite (same_id_index stack_records (fields_of h p) i e Hnds He Hid).
      by apply alter_as_insert.
    + intros Hnew. unfold records_of_stacks. rewrite Hs. unfold add_merging.
      rewrite ids_records in Hnew. fold stack_records in Hnew.
      by rewrite (proj2 (same_id_absent stack_records (fields_of h p))).
    + intros i e He Hid. unfold records_of_boards. rewrite Hb.
      unfold add_replacing.
      by rewrite (same_id_index board_records (fields_of h p) i e Hndb He Hid).
    + intros Hnew. unfold records_of_boards. rewrite Hb. unfold add_replacing.
      rewrite ids_records in Hnew. fold board_records in Hnew.
      by rewrite (proj2 (same_id_absent board_records (fields_of h p))).
    + unfold records_of_stacks.
      destruct (addStack_refines (Mutation.addStack st p) p Hobj') as (Hs' & _).
      { by apply (is_object_weaken h). }
      rewrite Hs', Hs.
      rewrite (fields_of_weaken h (objects (Mutation.addStack st p)) p Hsub Hpobj).
      apply add_merging_idempotent.
    + clear. unfold Mutation.addBoard.
      set (q := λ b, strict_eq (get_field (objects st) p "id")
                       (get_field (objects st) b "id")).
      destruct (findIndex q (boards st)) as [i|] eqn:Hi; simpl; fold q.
      * pose proof (findIndex_Some q (boards st) i) as [Hfind _].
        destruct (Hfind Hi) as (e & He & Hqe & Hmin).
        replace (findIndex q (<[i := p]> (boards st))) with (Some i).
        { unfold with_boards. simpl. by rewrite list_insert_insert_eq. }
        symmetry. apply findIndex_Some. exists p.
        split; [apply list_lookup_insert_eq; by eapply lookup_lt_Some|].
        split; [apply strict_eq_refl|].
        intros j y Hj Hy. rewrite list_lookup_insert_ne in Hy by lia.
        by apply (Hmin j).
      * rewrite (findIndex_app_new q (boards st) p Hi) by apply strict_eq_refl.
        unfold with_boards. simpl.
        rewrite insert_app_r_alt by done. by rewrite Nat.sub_diag.
Qed.

Lemma add_is_upsert_by_id_witness :
  records (objects (Mutation.addStack UpsertExample.one_record
                      UpsertExample.payload))
    (stacks (Mutation.addStack UpsertExample.one_record UpsertExample.payload))
  = <[0 := fields_of UpsertExample.upsert_heap UpsertExample.payload
           ∪ fields_of UpsertExample.upsert_heap UpsertExample.existing]>
      (records UpsertExample.upsert_heap [UpsertExample.existing]).
Proof.
  destruct (add_is_upsert_by_id UpsertExample.one_record
              [UpsertExample.payload; UpsertExample.payload])
    as (_ & _ & Hadd).
  - repeat constructor.
  - repeat constructor.
  - apply NoDup_singleton.
  - apply NoDup_singleton.
  - destruct (Hadd UpsertExample.payload) as (Hmerge & _); [left|].
    apply (Hmerge 0
             (fields_of UpsertExample.upsert_heap UpsertExample.existing));
      reflexivity.
Defined.

(** ** Loading stacks that carry their cards *)

Lemma fields_of_delete_field h l k l' :
  fields_of (delete_field h l k) l'
  = if decide (l = l') then delete k (fields_of h l') else fields_of h l'.
Proof.
  unfold delete_field, fields_of.
  destruct (h !! l) as [[f|ls]|] eqn:Hl.
  - rewrite lookup_insert. destruct (decide (l = l')) as [<-|]; [|done].
    by rewrite Hl.
  - destruct (decide (l = l')) as [<-|]; [|done]. rewrite Hl. by rewrite delete_empty.
  - destruct (decide (l = l')) as [<-|]; [|done]. rewrite Hl. by rewrite delete_empty.
Qed.

Lemma is_object_delete_field h l k l' :
  is_object (delete_field h l k) l' = is_object h l'.
Proof.
  unfold delete_field, is_object.
  destruct (h !! l) as [[f|ls]|] eqn:Hl; try done.
  rewrite lookup_insert. destruct (decide (l = l')) as [<-|]; [|done].
  by rewrite Hl.
Qed.

Lemma add_merging_has_id rs x :
  id_of_record x ∈ id_of_record <$> add_merging rs x.
Proof.
  rewrite add_merging_ids. case_decide; [done|].
  apply elem_of_app. right. by left.
Qed.

Lemma add_merging_keeps_ids rs x v :
  v ∈ id_of_record <$> rs → v ∈ id_of_record <$> add_merging rs x.
Proof.
  intros Hv. rewrite add_merging_ids. case_decide; [done|].
  apply elem_of_app. by left.
Qed.

(** A field that neither the payload nor the stored records with its id
    have is a field no record with that id has after the add. *)
Lemma add_merging_field_absent rs x k :
  x !! k = None →
  (∀ r, r ∈ rs → id_of_record r = id_of_record x → r !! k = None) →
  ∀ r, r ∈ add_merging rs x → id_of_record r = id_of_record x → r !! k = None.
Proof.
  intros Hx Hrs r Hr Hid. unfold add_merging in Hr.
  destruct (findIndex _ rs) as [i|] eqn:Hi.
  - destruct (same_id_present rs x i Hi) as (e & He & Hide).
    apply list_elem_of_lookup in Hr as [j Hj].
    destruct (decide (i = j)) as [<-|Hne].
    + rewrite list_lookup_alter_eq, He in Hj. simpl in Hj. injection Hj as <-.
      apply lookup_union_None. split; [done|].
      apply Hrs; [|done]. apply list_elem_of_lookup. by exists i.
    + rewrite list_lookup_alter_ne in Hj by done.
      apply Hrs; [|done]. apply list_elem_of_lookup. by exists j.
  - apply elem_of_app in Hr as [Hr|Hr]; [by apply Hrs|].
    apply list_elem_of_singleton in Hr. by subst.
Qed.


(** * More of the stack module *)

(** ** Removing and replacing by id *)

Lemma findIndex_app_l {A} (p : A → bool) (l k : list A) i :
  findIndex p l = Some i → findIndex p (l ++ k) = Some i.
Proof.
  intros Hi. apply findIndex_Some in Hi as (x & Hx & Hpx & Hmin).
  apply findIndex_Some. exists x.
  split; [by apply lookup_app_l_Some|]. split; [done|].
  intros j y Hj Hy. apply (Hmin j); [done|].
  rewrite lookup_app_l in Hy; [done|]. apply lookup_lt_Some in Hx. lia.
Qed.

Lemma splice1_app_last {A} (l : list A) x : splice1 (length l) (l ++ [x]) = l.
Proof.
  unfold splice1. rewrite take_app_length.
  rewrite drop_ge; [by rewrite app_nil_r|]. rewrite length_app. simpl. lia.
Qed.

(** With one element per key, taking out the first element with a key is
    taking out every element with that key. *)
Lemma splice1_filter {A} (f : A → val) (v : val) (l : list A) i :
  NoDup (f <$> l) →
  findIndex (λ y, strict_eq (f y) v) l = Some i →
  splice1 i l = List.filter (λ y, negb (strict_eq (f y) v)) l.
Proof.
  revert i. induction l as [|x l IH]; intros i Hnd Hi; [done|].
  rewrite fmap_cons in Hnd. apply NoDup_cons in Hnd as [Hx Hnd].
  simpl in *. destruct (strict_eq (f x) v) eqn:Hxv; simpl.
  - injection Hi as <-. unfold splice1. simpl. rewrite drop_0.
    apply strict_eq_true in Hxv. subst v.
    symmetry. apply forallb_filter_id. apply forallb_forall. intros y Hy.
    apply negb_true_iff, strict_eq_false. intros Heq. apply Hx.
    rewrite <- Heq. apply list_elem_of_fmap_2. by apply list_elem_of_In.
  - apply fmap_Some in Hi as (i' & Hi' & ->).
    unfold splice1 in *. simpl. f_equal. by apply IH.
Qed.

Lemma state_eta st :
  {| navShown := navShown st; sidebarShown := sidebarShown st;
     currentBoard := currentBoard st; boards := boards st;
     sharees := sharees st; boardFilter := boardFilter st;
     stacks := stacks st; cards := cards st; objects := objects st |} = st.
Proof. by destruct st. Qed.

(** X1. [deleteStack] takes the first stack with the id of its payload out of
    the collection and touches nothing else: when no stack has that id the
    state is the same; otherwise the collection is one shorter, every stack
    with another id stays, in order; when the collection has one record per
    id, what is left is exactly the stacks with another id, so the id is
    gone; and with [i] the first index of a stack with the id, what is left
    is the collection without its element at [i], later stacks with the
    same id included. *)
Theorem deleteStack_removes_by_id st p :
  let h := objects st in
  let st' := Mutation.deleteStack st p in
  let other := λ s, negb (strict_eq (get_field h s "id") (get_field h p "id")) in
  st' = with_stacks st (stacks st')
  ∧ (get_field h p "id" ∉ ids h (stacks st) → st' = st)
  ∧ (get_field h p "id" ∈ ids h (stacks st) →
       S (length (stacks st')) = length (stacks st))
  ∧ List.filter other (stacks st') = List.filter other (stacks st)
  ∧ (NoDup (ids h (stacks st)) →
       stacks st' = List.filter other (stacks st)
       ∧ get_field h p "id" ∉ ids (objects st') (stacks st'))
  ∧ (∀ i s, stacks st !! i = Some s →
       get_field h s "id" = get_field h p "id" →
       (∀ j s', j < i → stacks st !! j = Some s' →
                get_field h s' "id" ≠ get_field h p "id") →
       stacks st' = take i (stacks st) ++ drop (S i) (stacks st)).
Proof.
  intros h st' other. subst st'. unfold Mutation.deleteStack. fold h.
  set (q := λ _stack, strict_eq (get_field h _stack "id") (get_field h p "id")).
  assert (Hother : ∀ s, other s = negb (q s)) by done.
  destruct (findIndex q (stacks st)) as [i|] eqn:Hi.
  - pose proof Hi as Hi'. apply findIndex_Some in Hi' as (s & Hs & Hqs & Hmin).
    unfold q in Hqs. apply strict_eq_true in Hqs.
    pose proof (lookup_lt_Some _ _ _ Hs) as Hlt.
    split; [done|]. split; [|split; [|split; [|split]]].
    5:{ intros k x Hk Hx Hfirst. simpl.
        assert (i = k) as ->; [|done].
        destruct (Nat.lt_trichotomy i k) as [Hlt'|[Heq|Hgt]]; [|done|].
        - by destruct (Hfirst i s Hlt' Hs).
        - specialize (Hmin k x Hgt Hk). unfold q in Hmin.
          apply strict_eq_false in Hmin. by destruct Hmin. }
    + intros Habsent. destruct Habsent. rewrite <- Hqs.
      apply list_elem_of_fmap_2 with (f := λ s, get_field h s "id").
      apply list_elem_of_lookup. by exists i.
    + intros _. simpl. rewrite splice1_length by done. lia.
    + simpl. unfold splice1.
      rewrite <- (take_drop_middle (stacks st) i s Hs) at 3.
      rewrite !List.filter_app. simpl.
      rewrite Hother. unfold q. rewrite Hqs, strict_eq_refl. done.
    + intros Hnd. simpl.
      assert (Hfilter : splice1 i (stacks st) = List.filter other (stacks st)).
      { apply (splice1_filter (λ s, get_field h s "id")); done. }
      split; [done|]. rewrite Hfilter. unfold ids.
      intros Hin. apply list_elem_of_fmap in Hin as (s' & Hid & Hs').
      apply list_elem_of_In, filter_In in Hs' as [_ Hs'].
      rewrite Hother in Hs'. apply negb_true_iff, strict_eq_false in Hs'.
      by rewrite Hid in Hs'.
  - split; [by rewrite <- (state_eta st) at 1|]. split; [done|].
    split; [|split; [done|split]].
    3:{ intros k x Hk Hx _. rewrite findIndex_None in Hi.
        assert (Hin : x ∈ stacks st) by (by eapply list_elem_of_lookup_2).
        specialize (Hi x Hin). unfold q in Hi.
        apply strict_eq_false in Hi. by destruct Hi. }
    + intros Hin. apply list_elem_of_fmap in Hin as (s & Hid & Hs).
      rewrite findIndex_None in Hi. specialize (Hi s Hs).
      unfold q in Hi. apply strict_eq_false in Hi. by destruct Hi.
    + intros Hnd.
      assert (Hall : List.filter other (stacks st) = stacks st).
      { apply forallb_filter_id, forallb_forall. intros s Hs.
        rewrite Hother. apply negb_true_iff.
        rewrite findIndex_None in Hi. by apply Hi, list_elem_of_In. }
      split; [done|]. intros Hin.
      apply list_elem_of_fmap in Hin as (s & Hid & Hs).
      rewrite findIndex_None in Hi. specialize (Hi s Hs).
      unfold q in Hi. apply strict_eq_false in Hi. by destruct Hi.
Qed.

(** X2. [updateStack] puts its payload object in the place of the first
    stack with the same id: the heap, the length of the collection and its
    ids stay, the record at that place is the payload with no field of the
    old record left, as a replacing add would leave it; when no stack has
    the id nothing changes, and nothing is appended. *)
Theorem updateStack_replaces_in_place st p :
  let h := objects st in
  let st' := Mutation.updateStack st p in
  st' = with_stacks st (stacks st')
  ∧ length (stacks st') = length (stacks st)
  ∧ ids h (stacks st') = ids h (stacks st)
  ∧ (get_field h p "id" ∉ ids h (stacks st) → st' = st)
  ∧ (get_field h p "id" ∈ ids h (stacks st) →
       p ∈ stacks st'
       ∧ records h (stacks st')
         = add_replacing (records h (stacks st)) (fields_of h p))
  ∧ (∀ i s, stacks st !! i = Some s →
       get_field h s "id" = get_field h p "id" →
       (∀ j s', j < i → stacks st !! j = Some s' →
                get_field h s' "id" ≠ get_field h p "id") →
       stacks st' = <[i := p]> (stacks st)).
Proof.
  intros h st'. subst st'. unfold Mutation.updateStack. fold h.
  set (q := λ _stack, strict_eq (get_field h _stack "id") (get_field h p "id")).
  assert (Hrec : findIndex (same_id_as (fields_of h p)) (records h (stacks st))
                 = findIndex q (stacks st)).
  { unfold records. by rewrite findIndex_fmap. }
  destruct (findIndex q (stacks st)) as [i|] eqn:Hi.
  - pose proof Hi as Hi'. apply findIndex_Some in Hi' as (s & Hs & Hqs & Hmin).
    unfold q in Hqs. apply strict_eq_true in Hqs.
    pose proof (lookup_lt_Some _ _ _ Hs) as Hlt.
    assert (Hin : get_field h p "id" ∈ ids h (stacks st)).
    { rewrite <- Hqs. apply list_elem_of_fmap_2 with (f := λ s, get_field h s "id").
      apply list_elem_of_lookup. by exists i. }
    split; [done|]. split; [apply length_insert|]. split; [|split; [done|split]].
    + simpl. unfold ids. rewrite list_fmap_insert. apply list_insert_id.
      by rewrite list_lookup_fmap, Hs, <- Hqs.
    + intros _. simpl. split.
      * apply list_elem_of_lookup. exists i. by apply list_lookup_insert_eq.
      * unfold add_replacing. rewrite Hrec. unfold records.
        by rewrite list_fmap_insert.
    + intros i' s' Hs' Hid' Hmin'. simpl. f_equal.
      destruct (Nat.lt_trichotomy i i') as [Hlt'|[->|Hgt]]; [|done|].
      * specialize (Hmin' i s Hlt' Hs). by destruct Hmin'.
      * specialize (Hmin i' s' Hgt Hs'). unfold q in Hmin.
        apply strict_eq_false in Hmin. by destruct Hmin.
  - assert (Hnot : get_field h p "id" ∉ ids h (stacks st)).
    { intros Hin. apply list_elem_of_fmap in Hin as (s & Hid & Hs).
      rewrite findIndex_None in Hi. specialize (Hi s Hs).
      unfold q in Hi. apply strict_eq_false in Hi. by destruct Hi. }
    split; [by rewrite <- (state_eta st) at 1|]. split; [done|]. split; [done|].
    split; [done|]. split; [done|].
    intros i s Hs Hid _. destruct Hnot. rewrite <- Hid.
    apply list_elem_of_fmap_2 with (f := λ s, get_field h s "id").
    apply list_elem_of_lookup. by exists i.
Qed.


(** ** What the stack mutations keep *)

Lemma ids_restamp i newOrder h l : ids (restamp i newOrder h) l = ids h l.
Proof.
  unfold ids. apply list_fmap_ext. intros j s _.
  by apply restamp_field_other.
Qed.

Lemma addStack_well_formed st p :
  collection_well_formed (objects st) (stacks st) →
  is_object (objects st) p = true →
  collection_well_formed (objects (Mutation.addStack st p))
    (stacks (Mutation.addStack st p))
  ∧ objects st ⊆ objects (Mutation.addStack st p).
Proof.
  intros [Hobj Hnd] Hp.
  destruct (addStack_refines st p Hobj Hp) as (Hrec & Hsub & Hobj' & _).
  split; [|done]. split; [done|].
  rewrite ids_records, Hrec, add_merging_ids. rewrite ids_records in Hnd.
  case_decide; [done|].
  apply NoDup_app. split; [done|]. split; [|apply NoDup_singleton].
  intros v Hv. rewrite list_elem_of_singleton. by intros ->.
Qed.

Lemma deleteStack_well_formed st p :
  collection_well_formed (objects st) (stacks st) →
  collection_well_formed (objects (Mutation.deleteStack st p))
    (stacks (Mutation.deleteStack st p)).
Proof.
  intros [Hobj Hnd]. unfold Mutation.deleteStack.
  destruct (findIndex _ (stacks st)) as [i|]; [|done]. simpl.
  unfold splice1. rewrite <- delete_take_drop. split.
  - by apply Forall_delete.
  - unfold ids. rewrite list_fmap_delete.
    eapply sublist_NoDup; [exact Hnd|apply sublist_delete].
Qed.

Lemma updateStack_well_formed st p :
  collection_well_formed (objects st) (stacks st) →
  is_object (objects st) p = true →
  collection_well_formed (objects (Mutation.updateStack st p))
    (stacks (Mutation.updateStack st p)).
Proof.
  intros [Hobj Hnd] Hp. unfold Mutation.updateStack.
  destruct (findIndex _ (stacks st)) as [i|] eqn:Hi; [|done].
  apply findIndex_Some in Hi as (s & Hs & Hqs & _).
  apply strict_eq_true in Hqs. simpl. split.
  - by apply Forall_insert.
  - unfold ids in *. rewrite list_fmap_insert, list_insert_id; [done|].
    by rewrite list_lookup_fmap, Hs, <- Hqs.
Qed.

Lemma orderStack_well_formed st p :
  collection_well_formed (objects st) (stacks st) →
  collection_well_formed (objects (Mutation.orderStack st p))
    (stacks (Mutation.orderStack st p)).
Proof.
  intros [Hobj Hnd]. unfold Mutation.orderStack. simpl. split.
  - eapply Forall_impl; [exact Hobj|]. intros s Hs. simpl in *.
    by rewrite restamp_is_object.
  - by rewrite ids_restamp.
Qed.

(** A stack mutation never turns an object into something else. *)
Lemma stack_mutation_keeps_objects m st l :
  collection_well_formed (objects st) (stacks st) →
  stack_mutation (objects st) m = true →
  is_object (objects st) l = true →
  is_object (objects (state_after (mutate m st) st)) l = true.
Proof.
  intros Hwf Hm Hl.
  destruct m as [s|p|s|s|c|b|b| | |bs|v|f|cb|id|x|x]; simpl in *; try done.
  - destruct (addStack_well_formed st s Hwf Hm) as [_ Hsub].
    by apply (is_object_weaken (objects st)).
  - unfold Mutation.orderStack. simpl. by rewrite restamp_is_object.
  - unfold Mutation.deleteStack. by destruct (findIndex _ _).
  - unfold Mutation.updateStack. by destruct (findIndex _ _).
Qed.

(** X3. The mutations of the stack module keep the collection well formed:
    from a store whose stacks are objects with one record per id, any
    sequence of [addStack], [orderStack], [deleteStack] and [updateStack]
    commits with object payloads leads to a store whose stacks are objects
    with one record per id again, and no object is stored twice. *)
Theorem stack_mutations_keep_well_formed ms st :
  collection_well_formed (objects st) (stacks st) →
  Forall (λ m, stack_mutation (objects st) m = true) ms →
  collection_well_formed (objects (commit_all ms st)) (stacks (commit_all ms st))
  ∧ NoDup (stacks (commit_all ms st)).
Proof.
  revert st. induction ms as [|m ms IH]; intros st Hwf Hms.
  - split; [done|]. destruct Hwf as [_ Hnd]. by apply NoDup_fmap_1 in Hnd.
  - apply Forall_cons in Hms as [Hm Hms]. unfold commit_all. simpl.
    apply IH.
    + destruct m; simpl in *; try done.
      * by apply addStack_well_formed.
      * by apply orderStack_well_formed.
      * by apply deleteStack_well_formed.
      * by apply updateStack_well_formed.
    + eapply Forall_impl; [exact Hms|]. intros m' Hm'. simpl in *.
      destruct m'; simpl in *; try done;
        by apply stack_mutation_keeps_objects.
Qed.

Lemma stack_mutations_keep_well_formed_witness :
  NoDup (stacks (commit_all
                   [OrderStack ThreeStacks.move_C_first;
                    AddStack ThreeStacks.B;
                    DeleteStack ThreeStacks.A;
                    UpdateStack ThreeStacks.C]
                   ThreeStacks.three_stacks)).
Proof.
  apply (stack_mutations_keep_well_formed
           [OrderStack ThreeStacks.move_C_first; AddStack ThreeStacks.B;
            DeleteStack ThreeStacks.A; UpdateStack ThreeStacks.C]
           ThreeStacks.three_stacks).
  - split; [repeat constructor|].
    apply NoDup_ListNoDup. vm_compute.
    repeat constructor; simpl; intuition discriminate.
  - repeat constructor.
Defined.

(** X4. What [addStack] stores. For a payload with a new id it stores the
    payload object itself, at the end, and a [deleteStack] of the same
    payload gives the state back. For a payload whose id exists it stores
    a new object: the payload is not in the collection afterwards, every
    stored reference is an old one or points at an object the heap did not
    have, and the objects the heap had, the payload and the replaced record
    among them, are as they were. *)
Theorem addStack_stores_payload_or_copy st p :
  let h := objects st in
  let st' := Mutation.addStack st p in
  collection_well_formed h (stacks st) →
  is_object h p = true →
  (get_field h p "id" ∉ ids h (stacks st) →
     stacks st' = stacks st ++ [p]
     ∧ objects st' = h
     ∧ Mutation.deleteStack st' p = st)
  ∧ (get_field h p "id" ∈ ids h (stacks st) →
       (p ∉ stacks st')
       ∧ length (stacks st') = length (stacks st)
       ∧ (∀ s, s ∈ stacks st' → s ∈ stacks st ∨ h !! s = None)
       ∧ h ⊆ objects st').
Proof.
  intros h st' [Hobj Hnd] Hp. subst st'. unfold Mutation.addStack. fold h.
  set (q := λ _stack, strict_eq (get_field h _stack "id") (get_field h p "id")).
  destruct (findIndex q (stacks st)) as [i|] eqn:Hi.
  - pose proof Hi as Hi'. apply findIndex_Some in Hi' as (e & He & Hqe & Hmin).
    unfold q in Hqe. apply strict_eq_true in Hqe.
    pose proof (lookup_lt_Some _ _ _ He) as Hlt.
    assert (Hin : get_field h p "id" ∈ ids h (stacks st)).
    { rewrite <- Hqe. apply list_elem_of_fmap_2 with (f := λ s, get_field h s "id").
      apply list_elem_of_lookup. by exists i. }
    split; [done|]. intros _. simpl.
    set (m := fresh (dom h)).
    assert (Hm : h !! m = None) by apply fresh_unused.
    assert (Hpm : p ≠ m).
    { intros ->. apply is_object_fields in Hp. congruence. }
    split; [|split; [apply length_insert|split]].
    + intros Hpin. apply list_elem_of_lookup in Hpin as [j Hj].
      destruct (decide (i = j)) as [<-|Hne].
      * rewrite list_lookup_insert_eq in Hj by done. congruence.
      * rewrite list_lookup_insert_ne in Hj by done.
        apply Hne. apply (NoDup_lookup _ i j (get_field h p "id") Hnd).
        -- unfold ids. by rewrite list_lookup_fmap, He, <- Hqe.
        -- unfold ids. by rewrite list_lookup_fmap, Hj.
    + intros s Hs. apply list_elem_of_lookup in Hs as [j Hj].
      destruct (decide (i = j)) as [<-|Hne].
      * rewrite list_lookup_insert_eq in Hj by done. injection Hj as <-. by right.
      * rewrite list_lookup_insert_ne in Hj by done. left.
        apply list_elem_of_lookup. by exists j.
    + by apply insert_subseteq.
  - assert (Hnot : get_field h p "id" ∉ ids h (stacks st)).
    { intros Hin. apply list_elem_of_fmap in Hin as (s & Hid & Hs).
      rewrite findIndex_None in Hi. specialize (Hi s Hs).
      unfold q in Hi. apply strict_eq_false in Hi. by destruct Hi. }
    split; [|done]. intros _. split; [done|]. split; [done|].
    unfold Mutation.deleteStack. simpl. fold h. fold q.
    rewrite (findIndex_app_new q (stacks st) p Hi) by apply strict_eq_refl.
    simpl. rewrite splice1_app_last. unfold with_stacks. simpl. apply state_eta.
Qed.

Lemma addStack_stores_payload_or_copy_witness :
  (UpsertExample.payload
     ∉ stacks (Mutation.addStack UpsertExample.one_record UpsertExample.payload))
  ∧ Mutation.deleteStack
      (Mutation.addStack
         (with_stacks UpsertExample.one_record []) UpsertExample.payload)
      UpsertExample.payload
    = with_stacks UpsertExample.one_record [].
Proof.
  split.
  - destruct (addStack_stores_payload_or_copy UpsertExample.one_record
                UpsertExample.payload) as [_ Hcopy].
    + split; [repeat constructor|]. apply NoDup_singleton.
    + reflexivity.
    + apply Hcopy. vm_compute. left.
  - destruct (addStack_stores_payload_or_copy
                (with_stacks UpsertExample.one_record []) UpsertExample.payload)
      as [Hnew _].
    + split; [constructor|]. apply NoDup_nil_2.
    + reflexivity.
    + apply Hnew. vm_compute. apply not_elem_of_nil.
Defined.

(** ** The ordered view of a board *)

Section SortByMore.
Context {A : Type} (cmp : A → A → Z) (key : A → Z).

Lemma insert_by_ext (cmp' : A → A → Z) x l :
  (∀ v, v ∈ l → cmp x v = cmp' x v) →
  insert_by cmp x l = insert_by cmp' x l.
Proof.
  induction l as [|y l IH]; intros Hext; simpl; [done|].
  rewrite (Hext y) by left. destruct (cmp' x y <=? 0)%Z; [done|].
  f_equal. apply IH. intros v Hv. apply Hext. by right.
Qed.

Lemma sort_by_ext (cmp' : A → A → Z) l :
  (∀ u v, u ∈ l → v ∈ l → cmp u v = cmp' u v) →
  sort_by cmp l = sort_by cmp' l.
Proof.
  induction l as [|x l IH]; intros Hext; simpl; [done|].
  rewrite IH by (intros u v Hu Hv; apply Hext; by right).
  apply insert_by_ext. intros v Hv.
  rewrite sort_by_Permutation in Hv. apply Hext; [left|by right].
Qed.




End SortByMore.




(** ** What a reorder leaves alone *)

Lemma set_field_lookup_ne h l k v l' :
  l ≠ l' → set_field h l k v !! l' = h !! l'.
Proof.
  intros Hne. unfold set_field.
  destruct (h !! l) as [[f|ls]|]; [|done..]. by rewrite lookup_insert_ne.
Qed.

Lemma restamp_lookup_not_in i newOrder h l :
  l ∉ newOrder → restamp i newOrder h !! l = h !! l.
Proof.
  revert i h. induction newOrder as [|x rest IH]; intros i h Hl; simpl; [done|].
  rewrite not_elem_of_cons in Hl. destruct Hl as [Hx Hrest].
  rewrite IH by done. by apply set_field_lookup_ne.
Qed.

Lemma get_field_lookup h h' l k :
  h' !! l = h !! l → get_field h' l k = get_field h l k.
Proof. intros Heq. unfold get_field, fields_of. by rewrite Heq. Qed.

(** X6. [orderStack] writes [order] fields of the stacks of the board of its
    payload and nothing else: the collections and the other fields of the
    state stay, every cell that is no stack of that board stays, no field
    but [order] changes, and the ordered view of every other board is the
    one it was. *)
Theorem orderStack_touches_one_board st p :
  let h := objects st in
  let b := get_field h (stack p) "boardId" in
  let st' := Mutation.orderStack st p in
  st' = with_objects st (objects st')
  ∧ (∀ l, l ∉ stacks_of_board st b → objects st' !! l = h !! l)
  ∧ (∀ l k, k ≠ "order" → get_field (objects st') l k = get_field h l k)
  ∧ (∀ l, is_object (objects st') l = is_object h l)
  ∧ (∀ id, id ≠ b → stacksByBoard st' id = stacksByBoard st id).
Proof.
  intros h b st'. subst st'. unfold Mutation.orderStack. fold h. simpl.
  set (new := applyOrderToArray _ _ _).
  assert (Hperm : new ≡ₚ stacks_of_board st b).
  { unfold new. rewrite applyOrderToArray_Permutation.
    apply sort_by_Permutation. }
  assert (Hout : ∀ l, l ∉ stacks_of_board st b → restamp 0 new h !! l = h !! l).
  { intros l Hl. apply restamp_lookup_not_in. by rewrite Hperm. }
  split; [done|]. split; [done|].
  split; [intros l k Hk; by apply restamp_field_other|].
  split; [intros l; apply restamp_is_object|].
  intros id Hid. unfold stacksByBoard. simpl. fold h.
  assert (Hfilter :
    List.filter (λ s, strict_eq (get_field (restamp 0 new h) s "boardId") id)
      (stacks st)
    = List.filter (λ s, strict_eq (get_field h s "boardId") id) (stacks st)).
  { apply List.filter_ext. intros s. by rewrite restamp_field_other. }
  rewrite Hfilter. apply sort_by_ext.
  assert (Hkeep : ∀ u,
    u ∈ List.filter (λ s, strict_eq (get_field h s "boardId") id) (stacks st) →
    restamp 0 new h !! u = h !! u).
  { intros u Hu. apply Hout. intros Hub.
    apply list_elem_of_In, filter_In in Hu as [_ Hu].
    apply list_elem_of_In, filter_In in Hub as [_ Hub].
    apply strict_eq_true in Hu, Hub. fold h in Hub. congruence. }
  intros u v Hu Hv. unfold compare_order.
  by rewrite (get_field_lookup h _ u "order" (Hkeep u Hu)),
             (get_field_lookup h _ v "order" (Hkeep v Hv)).
Qed.

(** ** Undoing a reorder *)

Lemma applyOrderToArray_undo {A} (xs : list A) r a :
  r < length xs → a < length xs →
  applyOrderToArray (applyOrderToArray xs r a) a r = xs.
Proof.
  intros Hr Ha. destruct (lookup_lt_is_Some_2 xs r Hr) as [x Hx].
  pose proof (splice1_length xs r Hr) as Hlen.
  unfold applyOrderToArray. rewrite Hx.
  rewrite splice_in_lookup by lia. rewrite splice1_splice_in by lia.
  by apply splice_in_splice1.
Qed.

Lemma orderStack_unfold st p :
  Mutation.orderStack st p
  = with_objects st
      (restamp 0
         (applyOrderToArray
            (stacksByBoard st (get_field (objects st) (stack p) "boardId"))
            (removedIndex p) (addedIndex p))
         (objects st)).
Proof. done. Qed.

Lemma restamp_lookup_in i newOrder h :
  NoDup newOrder →
  Forall (λ s, is_object h s = true) newOrder →
  ∀ j l, newOrder !! j = Some l →
    restamp i newOrder h !! l
    = Some (Obj (<["order" := VNum (Z.of_nat (i + j))]> (fields_of h l))).
Proof.
  intros Hnd. revert i h.
  induction Hnd as [|x rest Hx Hnd IH]; intros i h Hobj j l Hj; [done|].
  apply Forall_cons in Hobj as [Hobjx Hobj]. simpl.
  destruct j as [|j]; simpl in Hj.
  - injection Hj as ->. rewrite restamp_lookup_not_in by done.
    rewrite set_field_object by done. rewrite lookup_insert_eq.
    do 4 f_equal. lia.
  - assert (Hne : x ≠ l).
    { intros ->. apply Hx. apply list_elem_of_lookup. by exists j. }
    rewrite (IH (S i) _) with (j := j); [| |done].
    + rewrite fields_of_set_field, decide_False by done. do 4 f_equal. lia.
    + eapply Forall_impl; [exact Hobj|]. intros s Hs. simpl in *.
      by rewrite is_object_set_field.
Qed.

(** X7. The reorder with the two indices swapped undoes a reorder. On a
    store that holds every stack object once, after [orderStack] with the
    indices [r] and [a] inside the board and then [orderStack] with [a] and
    [r], the ordered stacks of the board are the sequence they were, each
    carrying its position as [order]; and when every stack carried its
    position before, the state is the one it was. *)
Theorem orderStack_swapped_indices_undo st s r a :
  let h := objects st in
  let b := get_field h s "boardId" in
  let cur := stacksByBoard st b in
  let st2 :=
    Mutation.orderStack
      (Mutation.orderStack st
         {| stack := s; removedIndex := r; addedIndex := a |})
      {| stack := s; removedIndex := a; addedIndex := r |} in
  NoDup (stacks st) →
  Forall (λ x, is_object h x = true) (stacks st) →
  r < length cur → a < length cur →
  stacksByBoard st2 b = cur
  ∧ (∀ i x, cur !! i = Some x →
       get_field (objects st2) x "order" = VNum (Z.of_nat i))
  ∧ ((∀ i x, cur !! i = Some x → get_field h x "order" = VNum (Z.of_nat i)) →
     st2 = st).
Proof.
  intros h b cur st2 Hnd Hobj Hr Ha.
  set (new1 := applyOrderToArray cur r a).
  set (st1 := Mutation.orderStack st
                {| stack := s; removedIndex := r; addedIndex := a |}) in *.
  assert (Hst1 : st1 = with_objects st (restamp 0 new1 h)) by done.
  assert (Hperm0 : cur ≡ₚ stacks_of_board st b)
    by apply stacksByBoard_Permutation.
  assert (Hperm1 : new1 ≡ₚ stacks_of_board st b).
  { unfold new1. by rewrite applyOrderToArray_Permutation. }
  destruct (restamp_board st b new1 Hnd Hobj Hperm1) as (Hsorted1 & Hpart1 & _).
  change (with_objects st (restamp 0 new1 (objects st))) with st1
    in Hsorted1, Hpart1.
  assert (Hb1 : get_field (objects st1) s "boardId" = b).
  { rewrite Hst1. simpl. by apply restamp_field_other. }
  assert (Hst2 : st2 = with_objects st1 (restamp 0 cur (objects st1))).
  { unfold st2. rewrite orderStack_unfold.
    cbn [stack removedIndex addedIndex]. rewrite Hb1, Hsorted1.
    unfold new1. by rewrite applyOrderToArray_undo. }
  assert (Hnd1 : NoDup (stacks st1)) by (by rewrite Hst1).
  assert (Hobj1 : Forall (λ x, is_object (objects st1) x = true) (stacks st1)).
  { rewrite Hst1. simpl. eapply Forall_impl; [exact Hobj|].
    intros x Hx. simpl in *. by rewrite restamp_is_object. }
  assert (Hperm2 : cur ≡ₚ stacks_of_board st1 b) by (by rewrite Hpart1).
  destruct (restamp_board st1 b cur Hnd1 Hobj1 Hperm2) as (Hsorted2 & _ & Hord2).
  rewrite <- Hst2 in Hsorted2, Hord2.
  split; [done|]. split; [done|].
  intros Hnorm. rewrite Hst2, Hst1. unfold with_objects. simpl.
  etrans; [|apply (state_eta st)]. f_equal. fold h.
  assert (Hcur_nd : NoDup cur).
  { rewrite Hperm0. unfold stacks_of_board.
    apply NoDup_ListNoDup, List.NoDup_filter. by apply NoDup_ListNoDup. }
  assert (Hcur_obj : Forall (λ x, is_object h x = true) cur).
  { rewrite Hperm0. unfold stacks_of_board. apply Forall_forall. intros x Hx.
    apply list_elem_of_In, filter_In in Hx as [Hx _].
    rewrite Forall_forall in Hobj. by apply Hobj, list_elem_of_In. }
  assert (Hnew_nd : NoDup new1) by (by rewrite Hperm1, <- Hperm0).
  assert (Hnew_obj : Forall (λ x, is_object h x = true) new1)
    by (by rewrite Hperm1, <- Hperm0).
  apply map_eq. intros l.
  destruct (decide (l ∈ cur)) as [Hl|Hl].
  - apply list_elem_of_lookup in Hl as [j Hj].
    assert (Hl1 : l ∈ new1).
    { rewrite Hperm1, <- Hperm0. apply list_elem_of_lookup. by exists j. }
    apply list_elem_of_lookup in Hl1 as [j' Hj'].
    rewrite (restamp_lookup_in 0 cur _ Hcur_nd) with (j := j); [| |done].
    2:{ eapply Forall_impl; [exact Hcur_obj|]. intros x Hx. simpl in *.
        by rewrite restamp_is_object. }
    unfold fields_of at 1.
    rewrite (restamp_lookup_in 0 new1 h Hnew_nd Hnew_obj j' l Hj').
    rewrite insert_insert_eq.
    assert (Hlobj : is_object h l = true).
    { rewrite Forall_forall in Hcur_obj. apply Hcur_obj.
      apply list_elem_of_lookup. by exists j. }
    rewrite (is_object_fields h l Hlobj). do 2 f_equal.
    apply insert_id. specialize (Hnorm j l Hj).
    unfold get_field in Hnorm.
    destruct (fields_of h l !! "order") as [v|]; simpl in Hnorm; [|done].
    by subst v.
  - rewrite restamp_lookup_not_in by done.
    apply restamp_lookup_not_in. by rewrite Hperm1, <- Hperm0.
Qed.

Lemma orderStack_swapped_indices_undo_witness :
  Mutation.orderStack
    (Mutation.orderStack ThreeStacks.three_stacks ThreeStacks.move_C_first)
    {| stack := ThreeStacks.C; removedIndex := 0; addedIndex := 2 |}
  = ThreeStacks.three_stacks.
Proof.
  destruct (orderStack_swapped_indices_undo ThreeStacks.three_stacks
              ThreeStacks.C 2 0) as (_ & _ & Hsame).
  - apply NoDup_ListNoDup. repeat constructor; simpl; intuition discriminate.
  - repeat constructor.
  - vm_compute. lia.
  - vm_compute. lia.
  - apply Hsame. intros [|[|[|i]]] x Hx; vm_compute in Hx; try discriminate;
      injection Hx as <-; reflexivity.
Defined.

(** * More of the root store *)

(** ** Boards *)

Lemma filter_sublist {A} (f : A → bool) (l : list A) :
  List.filter f l `sublist_of` l.
Proof.
  induction l as [|x l IH]; simpl; [constructor|].
  destruct (f x); by constructor.
Qed.

Lemma fmap_filter_sublist {A B} (g : A → B) (f : A → bool) (l : list A) :
  g <$> List.filter f l `sublist_of` g <$> l.
Proof.
  induction l as [|x l IH]; simpl; [constructor|].
  destruct (f x); simpl; by constructor.
Qed.

(** X8. [removeBoard] takes every board with the id of its payload out of
    the collection, and nothing else: afterwards no board has that id,
    the boards left are the boards with another id in the order they had,
    and removing again changes nothing. It undoes an [addBoard] of a board
    whose id was new. *)
Theorem removeBoard_removes_every_match st p :
  let h := objects st in
  let st' := Mutation.removeBoard st p in
  st' = with_boards st (boards st')
  ∧ (get_field h p "id" ∉ ids h (boards st'))
  ∧ (∀ b, b ∈ boards st'
          ↔ b ∈ boards st ∧ get_field h b "id" ≠ get_field h p "id")
  ∧ boards st' `sublist_of` boards st
  ∧ Mutation.removeBoard st' p = st'
  ∧ (get_field h p "id" ∉ ids h (boards st) →
       st' = st ∧ Mutation.removeBoard (Mutation.addBoard st p) p = st).
Proof.
  intros h st'. subst st'. unfold Mutation.removeBoard. fold h. simpl.
  set (keep := λ b, negb (strict_eq (get_field h p "id") (get_field h b "id"))).
  assert (Hkeep : ∀ b, keep b = true ↔ get_field h b "id" ≠ get_field h p "id").
  { intros b. unfold keep. rewrite negb_true_iff, strict_eq_false. naive_solver. }
  split; [done|]. split; [|split; [|split; [|split]]].
  - intros Hin. apply list_elem_of_fmap in Hin as (b & Hid & Hb).
    apply list_elem_of_In, filter_In in Hb as [_ Hb]. apply Hkeep in Hb.
    by destruct Hb.
  - intros b. by rewrite !list_elem_of_In, filter_In, Hkeep.
  - apply filter_sublist.
  - unfold with_boards. simpl. f_equal. fold h. fold keep.
    apply forallb_filter_id, forallb_forall. intros b Hb.
    by apply filter_In in Hb as [_ Hb].
  - intros Hnew.
    assert (Hall : List.filter keep (boards st) = boards st).
    { apply forallb_filter_id, forallb_forall. intros b Hb.
      apply Hkeep. intros Hid. apply Hnew. rewrite <- Hid.
      apply list_elem_of_fmap_2 with (f := λ s, get_field h s "id").
      by apply list_elem_of_In. }
    split.
    + rewrite Hall. unfold with_boards. apply state_eta.
    + unfold Mutation.addBoard. fold h.
      destruct (findIndex _ (boards st)) as [i|] eqn:Hi.
      * apply findIndex_Some in Hi as (b & Hb & Hpb & _).
        apply strict_eq_true in Hpb. destruct Hnew. rewrite Hpb.
        apply list_elem_of_fmap_2 with (f := λ s, get_field h s "id").
        apply list_elem_of_lookup. by exists i.
      * simpl. fold h. fold keep. rewrite List.filter_app, Hall. simpl.
        unfold keep at 1. rewrite strict_eq_refl. simpl.
        rewrite app_nil_r. unfold with_boards. simpl. apply state_eta.
Qed.

Lemma addBoard_keeps_one_record_per_id st p :
  NoDup (ids (objects st) (boards st)) →
  NoDup (ids (objects (Mutation.addBoard st p)) (boards (Mutation.addBoard st p))).
Proof.
  intros Hnd. destruct (addBoard_refines st p) as [Hrec _].
  rewrite ids_records, Hrec, add_replacing_ids. rewrite ids_records in Hnd.
  case_decide; [done|].
  apply NoDup_app. split; [done|]. split; [|apply NoDup_singleton].
  intros v Hv. rewrite list_elem_of_singleton. by intros ->.
Qed.

(** X9. Adding and removing boards keeps one record per id and stays out
    of everything else: after any sequence of [addBoard] and [removeBoard]
    commits on a store whose boards have one record per id, the boards have
    one record per id, and the heap, the stacks and the cards are the ones
    they were. *)
Theorem board_mutations_keep_one_record_per_id ms st :
  NoDup (ids (objects st) (boards st)) →
  Forall (λ m, board_mutation m = true) ms →
  NoDup (ids (objects (commit_all ms st)) (boards (commit_all ms st)))
  ∧ objects (commit_all ms st) = objects st
  ∧ stacks (commit_all ms st) = stacks st
  ∧ cards (commit_all ms st) = cards st.
Proof.
  revert st. induction ms as [|m ms IH]; intros st Hnd Hms; [done|].
  apply Forall_cons in Hms as [Hm Hms]. unfold commit_all. simpl.
  destruct m as [s|p|s|s|c|b|b| | |bs|v|f|cb|id|l|l]; simpl in Hm; try done;
    simpl.
  - destruct (IH (Mutation.addBoard st b)) as (H1 & H2 & H3 & H4);
      [by apply addBoard_keeps_one_record_per_id|done|].
    split; [done|].
    unfold commit_all in *. rewrite H2, H3, H4.
    unfold Mutation.addBoard. by destruct (findIndex _ _).
  - destruct (IH (Mutation.removeBoard st b)) as (H1 & H2 & H3 & H4);
      [|done|by split].
    unfold Mutation.removeBoard, ids. simpl.
    eapply sublist_NoDup; [exact Hnd|apply fmap_filter_sublist].
Qed.

Lemma board_mutations_keep_one_record_per_id_witness :
  NoDup (ids (objects (commit_all
                         [AddBoard UpsertExample.payload;
                          RemoveBoard UpsertExample.existing;
                          AddBoard UpsertExample.existing]
                         UpsertExample.one_record))
           (boards (commit_all
                      [AddBoard UpsertExample.payload;
                       RemoveBoard UpsertExample.existing;
                       AddBoard UpsertExample.existing]
                      UpsertExample.one_record))).
Proof.
  apply (board_mutations_keep_one_record_per_id
           [AddBoard UpsertExample.payload; RemoveBoard UpsertExample.existing;
            AddBoard UpsertExample.existing] UpsertExample.one_record).
  - apply NoDup_singleton.
  - repeat constructor.
Defined.

(** ** The views of the boards *)

Lemma filter_filter_andb {A} (f g : A → bool) (l : list A) :
  List.filter g (List.filter f l) = List.filter (λ x, f x && g x) l.
Proof.
  induction l as [|x l IH]; simpl; [done|].
  destruct (f x); simpl; [|done]. destruct (g x); by rewrite IH.
Qed.

Lemma filter_none {A} (l : list A) : List.filter (λ _, false) l = [].
Proof. by induction l. Qed.

(** X10. [filteredBoards] against the plain getters. Under the filter ALL it
    projects the boards whose [archived] is [false], under ARCHIVED those
    whose [archived] is [true], deleted or not: [noneArchivedBoards] and
    [archivedBoards] are what is left of these selections when the boards
    with a [deletedAt] are taken out, so the views agree on a store without
    deleted boards, and a deleted board that is not archived is shown by
    [filteredBoards] and hidden by [noneArchivedBoards]. Under a filter that
    is none of the three, [filteredBoards] is empty. *)
Theorem filteredBoards_against_getters
    {menu_item : Type} (boardToMenuItem : heap → loc → menu_item) st :
  let h := objects st in
  let archived_is v := λ b, strict_eq (get_field h b "archived") (VBool v) in
  let live := λ b, negb (to_boolean (get_field h b "deletedAt")) in
  let under filter := filteredBoards boardToMenuItem
                        (Mutation.setBoardFilter st filter) in
  under BOARD_FILTERS_ALL
    = map (boardToMenuItem h) (List.filter (archived_is false) (boards st))
  ∧ under BOARD_FILTERS_ARCHIVED
    = map (boardToMenuItem h) (List.filter (archived_is true) (boards st))
  ∧ noneArchivedBoards st
    = List.filter live (List.filter (archived_is false) (boards st))
  ∧ archivedBoards st
    = List.filter live (List.filter (archived_is true) (boards st))
  ∧ (Forall (λ b, live b = true) (boards st) →
       under BOARD_FILTERS_ALL = map (boardToMenuItem h) (noneArchivedBoards st)
       ∧ under BOARD_FILTERS_ARCHIVED
         = map (boardToMenuItem h) (archivedBoards st))
  ∧ (∀ b, b ∈ boards st → archived_is false b = true → live b = false →
       (b ∉ noneArchivedBoards st)
       ∧ boardToMenuItem h b ∈ under BOARD_FILTERS_ALL)
  ∧ (∀ filter, filter ≠ BOARD_FILTERS_ALL → filter ≠ BOARD_FILTERS_ARCHIVED →
       filter ≠ BOARD_FILTERS_SHARED → under filter = []).
Proof.
  intros h archived_is live under.
  assert (Hall : under BOARD_FILTERS_ALL
    = map (boardToMenuItem h) (List.filter (archived_is false) (boards st))).
  { unfold under, filteredBoards.
    cbn [Mutation.setBoardFilter boardFilter boards objects]. f_equal.
    apply List.filter_ext. intros b. fold h.
    change (strict_eq BOARD_FILTERS_ALL BOARD_FILTERS_ALL) with true.
    change (strict_eq BOARD_FILTERS_ALL BOARD_FILTERS_ARCHIVED) with false.
    change (strict_eq BOARD_FILTERS_ALL BOARD_FILTERS_SHARED) with false.
    cbn [andb orb]. by rewrite !orb_false_r. }
  assert (Harch : under BOARD_FILTERS_ARCHIVED
    = map (boardToMenuItem h) (List.filter (archived_is true) (boards st))).
  { unfold under, filteredBoards.
    cbn [Mutation.setBoardFilter boardFilter boards objects]. f_equal.
    apply List.filter_ext. intros b. fold h.
    change (strict_eq BOARD_FILTERS_ARCHIVED BOARD_FILTERS_ALL) with false.
    change (strict_eq BOARD_FILTERS_ARCHIVED BOARD_FILTERS_ARCHIVED) with true.
    change (strict_eq BOARD_FILTERS_ARCHIVED BOARD_FILTERS_SHARED) with false.
    cbn [andb orb]. by rewrite !orb_false_r. }
  assert (Hnone : noneArchivedBoards st
    = List.filter live (List.filter (archived_is false) (boards st))).
  { by rewrite filter_filter_andb. }
  assert (Harchived : archivedBoards st
    = List.filter live (List.filter (archived_is true) (boards st))).
  { by rewrite filter_filter_andb. }
  split; [done|]. split; [done|]. split; [done|]. split; [done|].
  split; [|split].
  - intros Hlive.
    assert (Hid : ∀ f, List.filter live (List.filter f (boards st))
                       = List.filter f (boards st)).
    { intros f. apply forallb_filter_id, forallb_forall. intros b Hb.
      apply filter_In in Hb as [Hb _].
      rewrite Forall_forall in Hlive. by apply Hlive, list_elem_of_In. }
    rewrite Hall, Harch, Hnone, Harchived. by rewrite !Hid.
  - intros b Hb Hfalse Hdead. split.
    + rewrite Hnone. intros Hin.
      apply list_elem_of_In, filter_In in Hin as [_ Hin]. congruence.
    + rewrite Hall. apply list_elem_of_In, in_map, filter_In.
      split; [by apply list_elem_of_In|done].
  - intros filter H1 H2 H3. unfold under, filteredBoards.
    cbn [Mutation.setBoardFilter boardFilter boards objects].
    rewrite (proj2 (strict_eq_false filter BOARD_FILTERS_ALL) H1).
    rewrite (proj2 (strict_eq_false filter BOARD_FILTERS_ARCHIVED) H2).
    rewrite (proj2 (strict_eq_false filter BOARD_FILTERS_SHARED) H3).
    cbn [andb orb]. by rewrite filter_none.
Qed.

(** X11. The plain getters split the live boards. No board is in both
    [noneArchivedBoards] and [archivedBoards]; a stored board is in one of
    them exactly when it has no [deletedAt] and its [archived] is a
    boolean; each getter gives a sublist of the stored boards, in their
    order; and [sharedBoards] only has live boards too. *)
Theorem board_getters_split_live_boards st b :
  let h := objects st in
  ¬ (b ∈ noneArchivedBoards st ∧ b ∈ archivedBoards st)
  ∧ (b ∈ noneArchivedBoards st ∨ b ∈ archivedBoards st
     ↔ b ∈ boards st
       ∧ to_boolean (get_field h b "deletedAt") = false
       ∧ ∃ v, get_field h b "archived" = VBool v)
  ∧ (b ∈ sharedBoards st → to_boolean (get_field h b "deletedAt") = false)
  ∧ noneArchivedBoards st `sublist_of` boards st
  ∧ archivedBoards st `sublist_of` boards st
  ∧ sharedBoards st `sublist_of` boards st.
Proof.
  intros h.
  assert (Hnone : b ∈ noneArchivedBoards st ↔
            b ∈ boards st ∧ get_field h b "archived" = VBool false
            ∧ to_boolean (get_field h b "deletedAt") = false).
  { unfold noneArchivedBoards. fold h.
    rewrite !list_elem_of_In, filter_In, andb_true_iff, negb_true_iff.
    by rewrite strict_eq_true. }
  assert (Harch : b ∈ archivedBoards st ↔
            b ∈ boards st ∧ get_field h b "archived" = VBool true
            ∧ to_boolean (get_field h b "deletedAt") = false).
  { unfold archivedBoards. fold h.
    rewrite !list_elem_of_In, filter_In, andb_true_iff, negb_true_iff.
    by rewrite strict_eq_true. }
  split; [|split; [|split]].
  - rewrite Hnone, Harch. intros [(_ & H1 & _) (_ & H2 & _)]. congruence.
  - rewrite Hnone, Harch. split.
    + intros [(? & ? & ?)|(? & ? & ?)]; eauto.
    + intros (? & ? & [[] ?]); [right|left]; done.
  - rewrite sharedBoards_elem. tauto.
  - repeat split; apply filter_sublist.
Qed.

(** ** Adding and removing labels *)

Lemma fields_of_insert_array h arr ls ls' l :
  h !! arr = Some (Arr ls) →
  fields_of (<[arr := Arr ls']> h) l = fields_of h l.
Proof.
  intros Harr. unfold fields_of. rewrite lookup_insert.
  destruct (decide (arr = l)) as [<-|]; [|done]. by rewrite Harr.
Qed.

Lemma get_field_insert_array h arr ls ls' l k :
  h !! arr = Some (Arr ls) →
  get_field (<[arr := Arr ls']> h) l k = get_field h l k.
Proof.
  intros Harr. unfold get_field. by rewrite (fields_of_insert_array h arr ls).
Qed.

(** X12. Labels of the current board, whose labels are the array [ls].
    [addLabelToCurrentBoard] appends the label to that array and changes
    nothing else; removing the id of a label that was just added, and that
    no other label has, gives the state back. [removeLabelFromCurrentBoard]
    with an id that is present takes the first label with that id out of
    the array and leaves every object as it is; when the labels have one
    record per id, no label with that id is left. *)
Theorem labels_add_and_remove st b arr ls :
  let h := objects st in
  currentBoard st = VRef b →
  get_field h b "labels" = VRef arr →
  h !! arr = Some (Arr ls) →
  (∀ newLabel,
     Mutation.addLabelToCurrentBoard st newLabel
       = Ok (with_objects st (<[arr := Arr (ls ++ [newLabel])]> h))
     ∧ (get_field h newLabel "id" ∉ ids h ls →
        Mutation.removeLabelFromCurrentBoard
          (with_objects st (<[arr := Arr (ls ++ [newLabel])]> h))
          (get_field h newLabel "id")
        = Ok st))
  ∧ (∀ i l,
       ls !! i = Some l →
       (∀ j l', j < i → ls !! j = Some l' →
                get_field h l' "id" ≠ get_field h l "id") →
       Mutation.removeLabelFromCurrentBoard st (get_field h l "id")
         = Ok (with_objects st (<[arr := Arr (splice1 i ls)]> h))
       ∧ (NoDup (ids h ls) →
          get_field h l "id" ∉ ids h (splice1 i ls))).
Proof.
  intros h Hcur Hlabels Harr.
  assert (Hget : get_prop h (currentBoard st) "labels" = Ok (VRef arr)).
  { rewrite Hcur. simpl. by rewrite Hlabels. }
  split.
  - intros newLabel. split.
    + unfold Mutation.addLabelToCurrentBoard. fold h. rewrite Hget. simpl.
      by rewrite Harr.
    + intros Hnew. unfold Mutation.removeLabelFromCurrentBoard. simpl.
      set (h' := <[arr := Arr (ls ++ [newLabel])]> h).
      assert (Hget' : get_prop h' (currentBoard st) "labels" = Ok (VRef arr)).
      { rewrite Hcur. simpl. unfold h'.
        by rewrite (get_field_insert_array h arr ls), Hlabels. }
      assert (Harr' : h' !! arr = Some (Arr (ls ++ [newLabel])))
        by apply lookup_insert_eq.
      rewrite Hget'. simpl. rewrite Harr'. simpl.
      set (q := λ l, strict_eq (get_field h newLabel "id") (get_field h' l "id")).
      assert (Hq : findIndex q (ls ++ [newLabel]) = Some (length ls)).
      { apply findIndex_app_new.
        - apply findIndex_None. intros l Hl. unfold q, h'.
          rewrite (get_field_insert_array h arr ls) by done.
          apply strict_eq_false. intros Heq. apply Hnew. rewrite Heq.
          by apply list_elem_of_fmap_2 with (f := λ s, get_field h s "id").
        - unfold q, h'. rewrite (get_field_insert_array h arr ls) by done.
          apply strict_eq_refl. }
      rewrite Hq. rewrite splice1_app_last. unfold h'.
      rewrite insert_insert_eq, (insert_id h arr (Arr ls) Harr).
      f_equal. unfold with_objects. simpl. apply state_eta.
  - intros i l Hl Hmin.
    set (q := λ l', strict_eq (get_field h l "id") (get_field h l' "id")).
    assert (Hq : findIndex q ls = Some i).
    { apply findIndex_Some. exists l. split; [done|].
      split; [apply strict_eq_refl|].
      intros j l' Hj Hl'. unfold q. apply strict_eq_false.
      intros Heq. by apply (Hmin j l'). }
    split.
    + unfold Mutation.removeLabelFromCurrentBoard. fold h. rewrite Hget.
      simpl. rewrite Harr. simpl. fold q. by rewrite Hq.
    + intros Hnd Hin. unfold ids in *.
      apply list_elem_of_fmap in Hin as (l' & Hid & Hl').
      assert (Hfilter := splice1_filter (λ s, get_field h s "id")
                           (get_field h l "id") ls i Hnd).
      rewrite Hfilter in Hl'.
      * apply list_elem_of_In, filter_In in Hl' as [_ Hl'].
        apply negb_true_iff, strict_eq_false in Hl'. by rewrite Hid in Hl'.
      * rewrite <- Hq. apply findIndex_ext. intros x _. apply strict_eq_sym.
Qed.

Lemma labels_add_and_remove_witness :
  Mutation.removeLabelFromCurrentBoard LabelExample.on_board (VNum 1)
  = Ok (with_objects LabelExample.on_board
          (<[LabelExample.labels := Arr [LabelExample.feature]]>
             LabelExample.labels_heap)).
Proof.
  destruct (labels_add_and_remove LabelExample.on_board LabelExample.board
              LabelExample.labels [LabelExample.bug; LabelExample.feature])
    as [_ Hremove]; [reflexivity|reflexivity|reflexivity|].
  destruct (Hremove 0 LabelExample.bug) as [Hres _]; [reflexivity| |exact Hres].
  intros j l' Hj. lia.
Defined.

(** ** Before a board is selected *)

(** X13. While no board is selected ([currentBoard] is [null], as in the
    state the store starts with), everything that reads the current board
    raises a [TypeError] and changes nothing: the three label mutations,
    the getter [currentBoardLabels], and the actions [createStack] and
    [addLabelToCurrentBoard], which raise before they call the remote
    service. A label action whose remote call has resolved raises in its
    commit, so the remote change is not taken over. *)
Theorem nothing_works_without_current_board st :
  currentBoard st = VNull ∨ currentBoard st = VUndef →
  currentBoardLabels st = Throw TypeError
  ∧ (∀ labelId,
       Mutation.removeLabelFromCurrentBoard st labelId = Throw TypeError)
  ∧ (∀ l, Mutation.updateLabelFromCurrentBoard st l = Throw TypeError)
  ∧ (∀ l, Mutation.addLabelToCurrentBoard st l = Throw TypeError)
  ∧ (∀ s, (start (CreateStackAction s) st).1 = Throw TypeError
          ∧ (start (CreateStackAction s) st).2 = {| store := st; trace := [] |})
  ∧ (∀ l, (start (AddLabelToCurrentBoardAction l) st).1 = Throw TypeError
          ∧ (start (AddLabelToCurrentBoardAction l) st).2
            = {| store := st; trace := [] |})
  ∧ (∀ l r,
       start_and_settle (RemoveLabelFromCurrentBoardAction l)
         (Resolved (Entity r)) st
       = (Throw TypeError,
          {| store := st; trace := [Requested (DeleteLabel l)] |})
       ∧ start_and_settle (UpdateLabelFromCurrentBoardAction l)
           (Resolved (Entity r)) st
         = (Throw TypeError,
            {| store := st; trace := [Requested (UpdateLabel l)] |})).
Proof.
  intros Hcur.
  assert (Hget : ∀ k, get_prop (objects st) (currentBoard st) k = Throw TypeError).
  { intros k. by destruct Hcur as [-> | ->]. }
  split; [apply Hget|]. split; [|split; [|split; [|split; [|split]]]].
  - intros labelId. unfold Mutation.removeLabelFromCurrentBoard.
    by rewrite Hget.
  - intros l. unfold Mutation.updateLabelFromCurrentBoard. by rewrite Hget.
  - intros l. unfold Mutation.addLabelToCurrentBoard. by rewrite Hget.
  - intros s. unfold start. simpl.
    unfold Action.createStack, mbind, M_bind, get_state, lift. simpl.
    by rewrite Hget.
  - intros l. unfold start. simpl.
    unfold Action.addLabelToCurrentBoard, mbind, M_bind, get_state, lift. simpl.
    by rewrite Hget.
  - intros l r. unfold start_and_settle. simpl.
    unfold Action.removeLabelFromCurrentBoard,
      Action.updateLabelFromCurrentBoard, mbind, M_bind, emit, mret, M_ret.
    simpl. unfold mbind, M_bind, get_state, commit. simpl.
    unfold Mutation.removeLabelFromCurrentBoard,
      Mutation.updateLabelFromCurrentBoard. by rewrite !Hget.
Qed.

Lemma nothing_works_without_current_board_witness :
  currentBoardLabels initial_state = Throw TypeError
  ∧ Mutation.addLabelToCurrentBoard initial_state 1%positive = Throw TypeError.
Proof.
  destruct (nothing_works_without_current_board initial_state)
    as (Hlabels & _ & _ & Hadd & _); [by left|].
  split; [exact Hlabels|apply Hadd].
Defined.

(** ** Remote calls and commits of the actions *)

Lemma start_createStack st s :
  (∃ e, start (CreateStackAction s) st = (Throw e, {| store := st; trace := [] |}))
  ∨ (∃ hs boardId,
       start (CreateStackAction s) st
       = (Ok hs,
          {| store := with_objects st (set_field (objects st) s "boardId" boardId);
             trace := [Requested (CreateStack s)] |})
       ∧ get_prop (objects st) (currentBoard st) "id" = Ok boardId
       ∧ on_rejected hs = None ∧ on_fulfilled hs ≠ None).
Proof.
  unfold start. simpl.
  unfold Action.createStack, mbind, M_bind, get_state, lift. simpl.
  destruct (get_prop (objects st) (currentBoard st) "id") as [v|e]; simpl.
  - right. eexists _, v. by repeat split.
  - left. by exists e.
Qed.

Lemma start_addLabel st l :
  (∃ e, start (AddLabelToCurrentBoardAction l) st
        = (Throw e, {| store := st; trace := [] |}))
  ∨ (∃ hs boardId,
       start (AddLabelToCurrentBoardAction l) st
       = (Ok hs,
          {| store := with_objects st (set_field (objects st) l "boardId" boardId);
             trace := [Requested (CreateLabel l)] |})
       ∧ get_prop (objects st) (currentBoard st) "id" = Ok boardId
       ∧ on_rejected hs = None ∧ on_fulfilled hs ≠ None).
Proof.
  unfold start. simpl.
  unfold Action.addLabelToCurrentBoard, mbind, M_bind, get_state, lift. simpl.
  destruct (get_prop (objects st) (currentBoard st) "id") as [v|e]; simpl.
  - right. eexists _, v. by repeat split.
  - left. by exists e.
Qed.

(** X14. Every action of the two store modules, dispatched on any state:
    it makes at most one remote call; the actions [removeBoard],
    [setBoardFilter], [toggleNav], [toggleSidebar] and [setCurrentBoard]
    make none and leave no callback; an action that makes a remote call has
    committed nothing before, unless it is [orderStack]; and no action but
    [orderStack] leaves a callback for a rejection, so a rejected call
    changes nothing. *)
Theorem actions_call_then_commit a st :
  let t := trace_after (start a st) in
  (length (remote_calls t) ≤ 1)%nat
  ∧ (local_action a = true → remote_calls t = [])
  ∧ (local_action a = true → ∀ hs, (start a st).1 = Ok hs → hs = no_handlers)
  ∧ (is_orderStack a = false → remote_calls t ≠ [] → commits t = [])
  ∧ (is_orderStack a = false →
       ∀ hs, (start a st).1 = Ok hs →
             on_rejected hs = None
             ∧ ∀ err w, settle hs (Rejected err) w = (Ok tt, w)).
Proof.
  intros t. subst t.
  destruct a as [[s r i]|b|s|s|s|b|b|d|b| | |f| | |b|l|l|l];
    try (destruct (start_createStack st s)
           as [[e He]|(hs & v & He & _ & Hrej & _)];
         rewrite He; unfold trace_after; simpl;
         (repeat split; try done; try lia; intros; simplify_eq; try done;
          by rewrite ?Hrej));
    try (destruct (start_addLabel st l)
           as [[e He]|(hs & v & He & _ & Hrej & _)];
         rewrite He; unfold trace_after; simpl;
         (repeat split; try done; try lia; intros; simplify_eq; try done;
          by rewrite ?Hrej));
    unfold start, trace_after; simpl;
    (repeat split; try done; try lia; intros; simplify_eq; done).
Qed.

(** * The board API client *)

(** X15. The URLs of the board API client. The URL of [updateLabel] does not
    depend on the label: its path is the text [/labels/${label.id}] as it is
    written, so every label is sent to one and the same URL. The methods
    that take a board or an id put it into the path: with a [generateUrl]
    that keeps different paths apart, boards with different integer ids get
    different URLs from [updateBoard], and labels with different integer
    ids get different URLs from [deleteLabel]. [deleteBoard] uses the URL of
    [updateBoard], and [createBoard] the URL of [loadBoards]; they differ
    in the method. *)
Theorem updateLabel_url_ignores_label (generateUrl : string → string) h :
  (∀ h' label label',
     call_url (BoardApi.updateLabel generateUrl h label).1
     = call_url (BoardApi.updateLabel generateUrl h' label').1)
  ∧ (∀ label,
       call_url (BoardApi.updateLabel generateUrl h label).1
       = generateUrl "/apps/deck/labels/${label.id}")
  ∧ (Inj (=) (=) generateUrl →
     (∀ board board' n m,
        get_field h board "id" = VNum n → get_field h board' "id" = VNum m →
        n ≠ m →
        call_url (BoardApi.updateBoard generateUrl h board).1
        ≠ call_url (BoardApi.updateBoard generateUrl h board').1)
     ∧ (∀ n m, n ≠ m →
          call_url (BoardApi.deleteLabel generateUrl h (VNum n)).1
          ≠ call_url (BoardApi.deleteLabel generateUrl h (VNum m)).1))
  ∧ (∀ board,
       call_url (BoardApi.deleteBoard generateUrl h board).1
       = call_url (BoardApi.updateBoard generateUrl h board).1
       ∧ call_method (BoardApi.deleteBoard generateUrl h board).1
         ≠ call_method (BoardApi.updateBoard generateUrl h board).1)
  ∧ (∀ boardData,
       call_url (BoardApi.createBoard generateUrl h boardData).1
       = call_url (BoardApi.loadBoards generateUrl h).1
       ∧ call_method (BoardApi.createBoard generateUrl h boardData).1
         ≠ call_method (BoardApi.loadBoards generateUrl h).1).
Proof.
  split; [done|]. split; [done|]. split; [|split].
  - intros Hinj. split.
    + intros board board' n m Hn Hm Hne. simpl. unfold BoardApi.url.
      rewrite Hn, Hm. simpl. intros Heq.
      apply Hinj in Heq. apply (inj (String.append _)) in Heq.
      apply (inj (String.append _)) in Heq. by apply (inj pretty) in Heq.
    + intros n m Hne. simpl. unfold BoardApi.url. simpl. intros Heq.
      apply Hinj in Heq. apply (inj (String.append _)) in Heq.
      apply (inj (String.append _)) in Heq. by apply (inj pretty) in Heq.
  - intros board. by split.
  - intros boardData. by split.
Qed.

(** How the client passes the outcome of its call on. The closing [catch]
    changes nothing: every method rejects with exactly the reason [axios]
    rejected with, and resolves with the [data] of the response; when the
    call is fulfilled with no response, reading its [data] raises and the
    promise rejects with that error. [deleteBoard] resolves with nothing,
    whatever the response. *)
Lemma client_passes_outcome_on (generateUrl : string → string) h :
  (∀ p, catch_ p (λ err, Ok (RejectedWith err)) = p)
  ∧ (∀ r, BoardApi.resolve_with_data h (RejectedWith r) = RejectedWith r
          ∧ BoardApi.resolve_with_nothing (RejectedWith r) = RejectedWith r)
  ∧ (∀ response,
       BoardApi.resolve_with_data h (Fulfilled (VRef response))
       = Fulfilled (get_field h response "data"))
  ∧ BoardApi.resolve_with_data h (Fulfilled VUndef)
    = RejectedWith (Raised TypeError)
  ∧ (∀ v, BoardApi.resolve_with_nothing (Fulfilled v) = Fulfilled VUndef)
  ∧ (∀ board boardData id label,
       (BoardApi.updateBoard generateUrl h board).2 = BoardApi.resolve_with_data h
       ∧ (BoardApi.createBoard generateUrl h boardData).2
         = BoardApi.resolve_with_data h
       ∧ (BoardApi.unDeleteBoard generateUrl h board).2
         = BoardApi.resolve_with_data h
       ∧ (BoardApi.loadBoards generateUrl h).2 = BoardApi.resolve_with_data h
       ∧ (BoardApi.loadById generateUrl h id).2 = BoardApi.resolve_with_data h
       ∧ (BoardApi.deleteLabel generateUrl h id).2 = BoardApi.resolve_with_data h
       ∧ (BoardApi.updateLabel generateUrl h label).2
         = BoardApi.resolve_with_data h
       ∧ (BoardApi.createLabel generateUrl h label).2
         = BoardApi.resolve_with_data h
       ∧ (BoardApi.deleteBoard generateUrl h board).2
         = BoardApi.resolve_with_nothing).
Proof.
  split; [by intros [v|r]|]. repeat split.
Qed.

(** * Archiving a board, end to end *)




(** * Creating a stack, end to end *)

(** X17. Creating a stack, from the action to the getter. With a board
    selected, [createStack] writes the id of that board into the [boardId]
    of its payload object before the call, without a commit, and changes
    nothing else. When the service answers with a stack of that board whose
    id no stored stack has, the answer is appended to the stacks and
    [stacksByBoard] lists it for the selected board; the stacks stored
    before stay in their places. *)
Theorem createStack_shows_on_current_board st b s created :
  let h := objects st in
  let boardId := get_field h b "id" in
  let started := start (CreateStackAction s) st in
  let after :=
    start_and_settle (CreateStackAction s) (Resolved (Entity created)) st in
  let st' := store_after after in
  currentBoard st = VRef b →
  is_object h s = true →
  created = s ∨ get_field h created "boardId" = boardId →
  get_field h created "id" ∉ ids h (stacks st) →
  (trace_after started = [Requested (CreateStack s)]
   ∧ stacks (store_after started) = stacks st
   ∧ get_field (objects (store_after started)) s "boardId" = boardId
   ∧ (∀ l k, l ≠ s ∨ k ≠ "boardId" →
        get_field (objects (store_after started)) l k = get_field h l k))
  ∧ after.1 = Ok tt
  ∧ trace_after after = [Requested (CreateStack s); Committed (AddStack created)]
  ∧ objects st' = objects (store_after started)
  ∧ stacks st' = stacks st ++ [created]
  ∧ created ∈ stacksByBoard st' boardId.
Proof.
  intros h boardId started after st' Hcur Hs Hboard Hnew.
  subst st' after started.
  unfold start_and_settle, start, store_after, trace_after. simpl.
  unfold Action.createStack, mbind, M_bind, get_state, lift. simpl.
  rewrite Hcur. simpl. fold h. fold boardId.
  set (h1 := set_field h s "boardId" boardId).
  assert (Hi : findIndex
                 (λ _stack, strict_eq (get_field h1 _stack "id")
                              (get_field h1 created "id")) (stacks st) = None).
  { apply findIndex_None. intros x Hx. apply strict_eq_false. intros Heq.
    apply Hnew. unfold h1 in Heq.
    rewrite !get_field_set_field_ne in Heq by (by right).
    rewrite <- Heq. apply list_elem_of_fmap. by exists x. }
  unfold commit, mutate, Mutation.addStack. simpl. fold h1. rewrite Hi. simpl.
  split.
  { split; [done|]. split; [done|]. split.
    - by apply get_field_set_field_eq.
    - intros l k Hne. apply get_field_set_field_ne.
      destruct Hne as [Hne|Hne]; [left|right]; done. }
  split; [done|]. split; [done|]. split; [done|]. split; [done|].
  rewrite stacksByBoard_Permutation. unfold stacks_of_board. simpl.
  apply list_elem_of_In, filter_In. split.
  - apply list_elem_of_In, elem_of_app. right. apply list_elem_of_singleton. done.
  - apply strict_eq_true. destruct Hboard as [->|Hb].
    + by apply get_field_set_field_eq.
    + destruct (decide (s = created)) as [->|Hne].
      * by apply get_field_set_field_eq.
      * unfold h1. rewrite get_field_set_field_ne by (by left). done.
Qed.

Lemma createStack_shows_on_current_board_witness :
  stacksByBoard
    (store_after
       (start_and_settle (CreateStackAction CreateExample.payload)
          (Resolved (Entity CreateExample.created)) CreateExample.selected))
    (VNum 7)
  = [CreateExample.created]
  ∧ get_field
      (objects (store_after
                  (start (CreateStackAction CreateExample.payload)
                     CreateExample.selected)))
      CreateExample.payload "boardId"
    = VNum 7.
Proof.
  destruct (createStack_shows_on_current_board CreateExample.selected
              CreateExample.board CreateExample.payload CreateExample.created)
    as ((_ & _ & Hstamp & _) & _).
  - reflexivity.
  - reflexivity.
  - right. reflexivity.
  - vm_compute. apply not_elem_of_nil.
  - split; [vm_compute; reflexivity|exact Hstamp].
Defined.

(** * A bulk load, for every answer *)

Lemma alloc_grows h c : h ⊆ (alloc h c).2.
Proof. unfold alloc. simpl. apply insert_subseteq, fresh_unused. Qed.

Lemma addCard_grows st c :
  objects st ⊆ objects (Mutation.addCard st c)
  ∧ root_of (Mutation.addCard st c) = root_of st
  ∧ stacks (Mutation.addCard st c) = stacks st.
Proof.
  unfold Mutation.addCard. destruct (findIndex _ (cards st)); simpl.
  - split; [apply insert_subseteq, fresh_unused|done].
  - done.
Qed.

Lemma addStack_grows st s :
  objects st ⊆ objects (Mutation.addStack st s)
  ∧ root_of (Mutation.addStack st s) = root_of st.
Proof.
  unfold Mutation.addStack. destruct (findIndex _ (stacks st)); simpl.
  - split; [apply insert_subseteq, fresh_unused|done].
  - done.
Qed.

Lemma foldl_addCard_grows cs st :
  objects st ⊆ objects (foldl Mutation.addCard st cs)
  ∧ root_of (foldl Mutation.addCard st cs) = root_of st.
Proof.
  revert st. induction cs as [|c cs IH]; intros st; simpl; [done|].
  destruct (IH (Mutation.addCard st c)) as [Hsub Hroot].
  destruct (addCard_grows st c) as (Hsub1 & Hroot1 & _).
  split; [by etrans|]. by rewrite Hroot.
Qed.

Lemma keeps_objects_refl h : keeps_objects h h.
Proof. by intros l Hl. Qed.

Lemma keeps_objects_trans h1 h2 h3 :
  keeps_objects h1 h2 → keeps_objects h2 h3 → keeps_objects h1 h3.
Proof.
  intros H12 H23 l Hl. destruct (H12 l Hl) as [Hl2 Hc2].
  destruct (H23 l Hl2) as [Hl3 Hc3]. split; [done|]. auto.
Qed.

Lemma keeps_objects_grows h h' : h ⊆ h' → keeps_objects h h'.
Proof.
  intros Hsub l Hl. split; [by apply (is_object_weaken h)|].
  by rewrite (fields_of_weaken h h' l Hsub Hl).
Qed.

Lemma keeps_objects_delete_cards h s :
  keeps_objects h (delete_field h s "cards").
Proof.
  intros l Hl. split; [by rewrite is_object_delete_field|].
  rewrite fields_of_delete_field. case_decide; [|done].
  intros _. apply lookup_delete_eq.
Qed.

Lemma for_each_addCard cs w :
  for_each cs (λ card, call (context "commit") (AddCard card)) w
  = (Ok tt,
     {| store := foldl Mutation.addCard (store w) cs;
        trace := trace w ++ (Committed ∘ AddCard <$> cs) |}).
Proof.
  revert w. induction cs as [|c cs IH]; intros [st t]; simpl.
  - by rewrite app_nil_r.
  - unfold mbind, M_bind. simpl. rewrite IH. simpl.
    by rewrite <- app_assoc.
Qed.

Lemma commits_app t1 t2 : commits (t1 ++ t2) = commits t1 ++ commits t2.
Proof. apply omap_app. Qed.

Lemma remote_calls_app t1 t2 :
  remote_calls (t1 ++ t2) = remote_calls t1 ++ remote_calls t2.
Proof. apply omap_app. Qed.

Lemma commits_addCards cs :
  commits (Committed ∘ AddCard <$> cs) = AddCard <$> cs
  ∧ remote_calls (Committed ∘ AddCard <$> cs) = [].
Proof.
  induction cs as [|c cs [IH1 IH2]]; [done|]. simpl. split; [|done].
  f_equal. exact IH1.
Qed.

Lemma omap_added_stack_cards cs : omap added_stack (AddCard <$> cs) = [].
Proof. induction cs as [|c cs IH]; [done|]. exact IH. Qed.

Lemma for_each_cons {A} (x : A) (l : list A) (body : A → M unit) w :
  for_each (x :: l) body w
  = match body x w with
    | (Ok _, w') => for_each l body w'
    | (Throw e, w') => (Throw e, w')
    end.
Proof. reflexivity. Qed.

Lemma loadStacks_body_run stack w :
  (st ← get_state;
   for_each
     (for_in_elements (objects st) (get_field (objects st) stack "cards"))
     (λ card, call (context "commit") (AddCard card)) ;;
   st ← get_state;
   put_objects (delete_field (objects st) stack "cards") ;;
   call (context "commit") (AddStack stack)) w
  = (Ok tt,
     {| store :=
          Mutation.addStack
            (with_objects
               (foldl Mutation.addCard (store w)
                  (for_in_elements (objects (store w))
                     (get_field (objects (store w)) stack "cards")))
               (delete_field
                  (objects
                     (foldl Mutation.addCard (store w)
                        (for_in_elements (objects (store w))
                           (get_field (objects (store w)) stack "cards"))))
                  stack "cards"))
            stack;
        trace :=
          (trace w
           ++ (Committed ∘ AddCard
                 <$> for_in_elements (objects (store w))
                       (get_field (objects (store w)) stack "cards")))
          ++ [Committed (AddStack stack)] |}).
Proof.
  destruct w as [st t].
  unfold mbind at 1, M_bind at 1, get_state at 1. simpl.
  unfold mbind at 1, M_bind at 1. rewrite for_each_addCard. simpl.
  reflexivity.
Qed.

Lemma loadStacks_loop ss w :
  ∃ st' t',
    for_each ss (λ stack,
        st ← get_state;
        for_each
          (for_in_elements (objects st) (get_field (objects st) stack "cards"))
          (λ card, call (context "commit") (AddCard card)) ;;
        st ← get_state;
        put_objects (delete_field (objects st) stack "cards") ;;
        call (context "commit") (AddStack stack)) w
    = (Ok tt, {| store := st'; trace := trace w ++ t' |})
    ∧ remote_calls t' = []
    ∧ omap added_stack (commits t') = ss
    ∧ Forall (λ m, is_Some (added_stack m) ∨ is_Some (added_card m)) (commits t')
    ∧ root_of st' = root_of (store w)
    ∧ keeps_objects (objects (store w)) (objects st')
    ∧ (∀ s, s ∈ ss → is_object (objects (store w)) s = true →
            fields_of (objects st') s !! "cards" = None).
Proof.
  revert w. induction ss as [|s ss IH]; intros w.
  - exists (store w), []. destruct w as [st t]. simpl. rewrite app_nil_r.
    split; [done|]. split; [done|]. split; [done|]. split; [done|].
    split; [done|]. split; [apply keeps_objects_refl|].
    intros s Hs. by apply elem_of_nil in Hs.
  - rewrite for_each_cons. cbv beta. rewrite loadStacks_body_run.
    destruct w as [st t]. cbn [store trace].
    set (cs := for_in_elements (objects st) (get_field (objects st) s "cards")).
    set (st1 := foldl Mutation.addCard st cs).
    set (st2 := Mutation.addStack
                  (with_objects st1 (delete_field (objects st1) s "cards")) s).
    destruct (IH {| store := st2;
                    trace := (t ++ (Committed ∘ AddCard <$> cs))
                             ++ [Committed (AddStack s)] |})
      as (st' & t' & Hrun & Hcalls & Hadded & Hkind & Hroot & Hkeep & Hcards).
    cbn [store trace] in Hrun, Hroot, Hkeep, Hcards.
    exists st', ((Committed ∘ AddCard <$> cs) ++ [Committed (AddStack s)] ++ t').
    destruct (commits_addCards cs) as [Hcc Hcr].
    destruct (foldl_addCard_grows cs st) as [Hsub1 Hroot1]. fold st1 in Hsub1, Hroot1.
    destruct (addStack_grows
                (with_objects st1 (delete_field (objects st1) s "cards")) s)
      as [Hsub2 Hroot2]. fold st2 in Hsub2, Hroot2. simpl in Hsub2.
    assert (Hk2 : keeps_objects (objects st) (objects st2)).
    { eapply keeps_objects_trans; [by apply keeps_objects_grows|].
      eapply keeps_objects_trans; [apply (keeps_objects_delete_cards _ s)|].
      by apply keeps_objects_grows. }
    split.
    { rewrite Hrun. f_equal. f_equal. by rewrite <- !app_assoc. }
    split.
    { rewrite !remote_calls_app, Hcr, Hcalls. done. }
    split.
    { rewrite !commits_app, Hcc, !omap_app, omap_added_stack_cards, Hadded.
      done. }
    split.
    { rewrite !commits_app, Hcc. apply Forall_app. split.
      - apply Forall_fmap, Forall_true. intros c. right. by eexists.
      - apply Forall_app. split; [|done].
        apply Forall_singleton. left. by eexists. }
    split.
    { rewrite Hroot, Hroot2. exact Hroot1. }
    split; [by eapply keeps_objects_trans|].
    intros x Hx Hobj. apply elem_of_cons in Hx as [->|Hx].
    + assert (Hs1 : is_object (objects st1) s = true)
        by (by apply (is_object_weaken (objects st))).
      assert (Hs2 : is_object (objects st2) s = true) by (by apply Hk2).
      apply (Hkeep s Hs2).
      rewrite (fields_of_weaken _ _ s Hsub2)
        by (by rewrite is_object_delete_field).
      rewrite fields_of_delete_field, decide_True by done.
      apply lookup_delete_eq.
    + apply Hcards; [done|]. by apply Hk2.
Qed.

(** X18. A bulk load, for every sequence of stacks the service answers
    with. The callback of [loadStacks] never raises; it commits nothing but
    [addCard] and [addStack], one [addStack] for every stack of the answer,
    in the order of the answer; it makes no further remote call and leaves
    the root store as it is. Every object the heap had is an object
    afterwards, and every stack of the answer that was one has no [cards]
    field left. An answer without a value commits nothing. *)
Theorem loadStacks_commits_each_stack st board ss :
  let h := objects st in
  let after :=
    start_and_settle (LoadStacksAction board) (Resolved (Entities ss)) st in
  let st' := store_after after in
  let t := trace_after after in
  after.1 = Ok tt
  ∧ remote_calls t = [LoadStacks (get_field h board "id")]
  ∧ omap added_stack (commits t) = ss
  ∧ Forall (λ m, is_Some (added_stack m) ∨ is_Some (added_card m)) (commits t)
  ∧ root_of st' = root_of st
  ∧ (∀ l, is_object h l = true → is_object (objects st') l = true)
  ∧ (∀ s, s ∈ ss → is_object h s = true →
          fields_of (objects st') s !! "cards" = None)
  ∧ start_and_settle (LoadStacksAction board) (Resolved Nothing) st
    = (Ok tt,
       {| store := st;
          trace := [Requested (LoadStacks (get_field h board "id"))] |}).
Proof.
  intros h after st' t. subst st' t after.
  destruct (loadStacks_loop ss
              {| store := st;
                 trace := [Requested (LoadStacks (get_field h board "id"))] |})
    as (st' & t' & Hrun & Hcalls & Hadded & Hkind & Hroot & Hkeep & Hcards).
  change (start_and_settle (LoadStacksAction board) (Resolved (Entities ss)) st)
    with (for_each ss (λ stack,
        st ← get_state;
        for_each
          (for_in_elements (objects st) (get_field (objects st) stack "cards"))
          (λ card, call (context "commit") (AddCard card)) ;;
        st ← get_state;
        put_objects (delete_field (objects st) stack "cards") ;;
        call (context "commit") (AddStack stack))
            {| store := st;
               trace := [Requested (LoadStacks (get_field h board "id"))] |}).
  rewrite Hrun. unfold store_after, trace_after. simpl in *.
  split; [done|]. split; [by rewrite Hcalls|]. split; [done|].
  split; [done|]. split; [done|]. split; [intros l Hl; by apply Hkeep|].
  split; [done|]. reflexivity.
Qed.

(** * When the stack actions touch the store *)

Lemma stacksByBoard_same_fields st h' id :
  (∀ l k, l ∈ stacks st → get_field h' l k = get_field (objects st) l k) →
  stacksByBoard (with_objects st h') id = stacksByBoard st id.
Proof.
  intros Hsame. unfold stacksByBoard. simpl.
  assert (Hfilter :
    List.filter (λ s, strict_eq (get_field h' s "boardId") id) (stacks st)
    = List.filter (λ s, strict_eq (get_field (objects st) s "boardId") id)
        (stacks st)).
  { induction (stacks st) as [|x l IH]; simpl; [done|].
    rewrite (Hsame x "boardId") by left.
    rewrite IH by (intros y k Hy; apply Hsame; by right). done. }
  rewrite Hfilter. apply sort_by_ext. intros u v Hu Hv.
  apply list_elem_of_In, filter_In in Hu as [Hu _].
  apply list_elem_of_In, filter_In in Hv as [Hv _].
  apply list_elem_of_In in Hu, Hv. unfold compare_order.
  by rewrite (Hsame u "order" Hu), (Hsame v "order" Hv).
Qed.

Lemma with_objects_same st : with_objects st (objects st) = st.
Proof. by destruct st. Qed.

(** What [createStack] has done to the store when it has made its remote
    call, or has raised before. *)
Lemma createStack_started st s :
  let st1 := store_after (start (CreateStackAction s) st) in
  (st1 = st ∧ trace_after (start (CreateStackAction s) st) = []
   ∧ (start (CreateStackAction s) st).1 = Throw TypeError
   ∧ get_prop (objects st) (currentBoard st) "id" = Throw TypeError)
  ∨ (∃ boardId,
       get_prop (objects st) (currentBoard st) "id" = Ok boardId
       ∧ st1 = with_objects st (set_field (objects st) s "boardId" boardId)
       ∧ trace_after (start (CreateStackAction s) st)
         = [Requested (CreateStack s)]).
Proof.
  unfold start, store_after, trace_after. simpl.
  unfold Action.createStack, mbind, M_bind, get_state, lift. simpl.
  destruct (get_prop (objects st) (currentBoard st) "id") as [id|[]] eqn:Hid;
    simpl.
  - right. by exists id.
  - left. done.
Qed.

(** C9. Of the actions of the stack module, [orderStack] alone commits a
    mutation before its remote call: its trace starts with the commit of
    the reorder, and the store it leaves is the reordered one. [loadStacks],
    [deleteStack] and [updateStack] commit nothing before their remote call
    and leave the whole store as it was. [createStack] commits nothing
    before its call either, and leaves the list of stored references as it
    was, but it writes the id of the selected board into the [boardId] of
    its payload object, and only that: when the payload is no stored stack,
    the records of the stacks and every view [stacksByBoard] are the ones
    they were; when it is a stored stack, the record of that stack has
    changed before the call. When the remote call of [createStack],
    [deleteStack] or [updateStack] is rejected, nothing more happens: these
    actions leave no callback for a rejection, so the store stays the one
    the action left at its call, which for [deleteStack] and [updateStack]
    is the store the action was dispatched on. Their commit comes after
    the remote call, when it resolves. *)
Theorem only_orderStack_commits_before_remote st :
  (∀ p,
     store_after (start (OrderStackAction p) st) = Mutation.orderStack st p
     ∧ trace_after (start (OrderStackAction p) st)
       = [Committed (OrderStack p);
          Requested (ReorderStack
                       (get_field (objects (Mutation.orderStack st p))
                          (stack p) "id")
                       (addedIndex p))]
     ∧ commits_before_request (trace_after (start (OrderStackAction p) st))
       = true)
  ∧ (∀ b,
       store_after (start (LoadStacksAction b) st) = st
       ∧ commits_before_request (trace_after (start (LoadStacksAction b) st))
         = false)
  ∧ (∀ s,
       store_after (start (DeleteStackAction s) st) = st
       ∧ commits_before_request (trace_after (start (DeleteStackAction s) st))
         = false)
  ∧ (∀ s,
       store_after (start (UpdateStackAction s) st) = st
       ∧ commits_before_request (trace_after (start (UpdateStackAction s) st))
         = false)
  ∧ (∀ s,
       let st1 := store_after (start (CreateStackAction s) st) in
       stacks st1 = stacks st
       ∧ st1 = with_objects st (objects st1)
       ∧ (∀ l, l ≠ s → objects st1 !! l = objects st !! l)
       ∧ (∀ l k, l ≠ s ∨ k ≠ "boardId" →
            get_field (objects st1) l k = get_field (objects st) l k)
       ∧ (∀ b, currentBoard st = VRef b → is_object (objects st) s = true →
            get_field (objects st1) s "boardId" = get_field (objects st) b "id")
       ∧ (s ∉ stacks st →
            records (objects st1) (stacks st1)
            = records (objects st) (stacks st)
            ∧ ∀ id, stacksByBoard st1 id = stacksByBoard st id)
       ∧ (trace_after (start (CreateStackAction s) st) = []
          ∨ trace_after (start (CreateStackAction s) st)
            = [Requested (CreateStack s)])
       ∧ commits (trace_after (start (CreateStackAction s) st)) = []
       ∧ commits_before_request (trace_after (start (CreateStackAction s) st))
         = false)
  ∧ (∀ s err,
       (start_and_settle (CreateStackAction s) (Rejected err) st).2
         = (start (CreateStackAction s) st).2
       ∧ (start_and_settle (DeleteStackAction s) (Rejected err) st).2
         = (start (DeleteStackAction s) st).2
       ∧ (start_and_settle (UpdateStackAction s) (Rejected err) st).2
         = (start (UpdateStackAction s) st).2
       ∧ store_after (start_and_settle (DeleteStackAction s) (Rejected err) st)
         = st
       ∧ store_after (start_and_settle (UpdateStackAction s) (Rejected err) st)
         = st)
  ∧ (∀ a s hs, a = CreateStackAction s ∨ a = DeleteStackAction s
               ∨ a = UpdateStackAction s →
       (start a st).1 = Ok hs →
       ∀ err w, settle hs (Rejected err) w = (Ok tt, w))
  ∧ (∀ s l,
       trace_after (start_and_settle (DeleteStackAction s)
                      (Resolved (Entity l)) st)
         = [Requested (DeleteStackById (get_field (objects st) s "id"));
            Committed (DeleteStack l)]
       ∧ trace_after (start_and_settle (UpdateStackAction s)
                        (Resolved (Entity l)) st)
         = [Requested (UpdateStackRemote s); Committed (UpdateStack l)]
       ∧ (trace_after (start_and_settle (CreateStackAction s)
                         (Resolved (Entity l)) st) = []
          ∨ trace_after (start_and_settle (CreateStackAction s)
                           (Resolved (Entity l)) st)
            = [Requested (CreateStack s); Committed (AddStack l)])).
Proof.
  split; [|split; [|split; [|split; [|split; [|split; [|split]]]]]].
  - intros [s r a]. by destruct st.
  - intros b. by destruct st.
  - intros s. by destruct st.
  - intros s. by destruct st.
  - intros s st1. subst st1.
    destruct (createStack_started st s)
      as [(-> & -> & _ & Hthrow)|(boardId & Hid & -> & ->)].
    + split; [done|]. split; [by rewrite with_objects_same|].
      split; [done|]. split; [done|]. split.
      { intros b Hb _. by rewrite Hb in Hthrow. }
      split; [done|]. split; [by left|done].
    + simpl. split; [done|]. split; [done|].
      split; [intros l Hl; by apply set_field_lookup_ne|].
      split.
      { intros l k Hne. apply get_field_set_field_ne.
        destruct Hne as [Hne|Hne]; [left|right]; done. }
      split.
      { intros b Hb Hs. rewrite Hb in Hid. simpl in Hid. injection Hid as <-.
        by apply get_field_set_field_eq. }
      split; [|split; [by right|done]].
      intros Hs.
      assert (Hsame : ∀ l k, l ∈ stacks st →
                get_field (set_field (objects st) s "boardId" boardId) l k
                = get_field (objects st) l k).
      { intros l k Hl. apply get_field_set_field_ne. left. by intros ->. }
      split; [|intros id; by apply stacksByBoard_same_fields].
      unfold records. apply list_fmap_ext. intros i l Hl.
      rewrite fields_of_set_field, decide_False; [done|].
      intros ->. apply Hs. by eapply list_elem_of_lookup_2.
  - intros s err. split; [|split; [|split; [|split]]; by destruct st].
    unfold start_and_settle, start. simpl.
    unfold Action.createStack, mbind, M_bind, get_state, lift. simpl.
    by destruct (get_prop (objects st) (currentBoard st) "id").
  - intros a s hs Ha; destruct Ha as [Ha|[Ha|Ha]]; subst a; unfold start; simpl.
    + unfold Action.createStack, mbind, M_bind, get_state, lift. simpl.
      destruct (get_prop (objects st) (currentBoard st) "id"); simpl; [|done].
      by intros [= <-].
    + by intros [= <-].
    + by intros [= <-].
  - intros s l. split; [by destruct st|]. split; [by destruct st|].
    unfold start_and_settle, trace_after. simpl.
    unfold Action.createStack, mbind, M_bind, get_state, lift. simpl.
    destruct (get_prop (objects st) (currentBoard st) "id"); simpl;
      [by right|by left].
Qed.

(** C9, against the specification. [createStack] changes a stored stack
    before its remote call when that stack is its payload: the stack of
    board 8 is given the id of the selected board 7 without a commit, so
    the view of board 8 loses it at the call, and a rejection leaves it
    that way. *)
Lemma createStack_rewrites_stored_stack :
  stacksByBoard StoredPayload.selected (VNum 8) = [StoredPayload.stored]
  ∧ commits
      (trace_after
         (start (CreateStackAction StoredPayload.stored) StoredPayload.selected))
    = []
  ∧ stacksByBoard
      (store_after
         (start (CreateStackAction StoredPayload.stored) StoredPayload.selected))
      (VNum 8)
    = []
  ∧ get_field
      (objects
         (store_after
            (start (CreateStackAction StoredPayload.stored)
               StoredPayload.selected)))
      StoredPayload.stored "boardId"
    = VNum 7
  ∧ stacksByBoard
      (store_after
         (start_and_settle (CreateStackAction StoredPayload.stored)
            (Rejected VUndef) StoredPayload.selected))
      (VNum 8)
    = []
  ∧ stacks
      (store_after
         (start_and_settle (CreateStackAction StoredPayload.stored)
            (Rejected VUndef) StoredPayload.selected))
    = [StoredPayload.stored].
Proof. repeat split; vm_compute; reflexivity. Qed.

(** * A bulk load that carries cards *)

(** ** Heaps along a load *)

Lemma stripped_refl dropped h : stripped dropped h h.
Proof. split; [|done]. intros l Hl. split; [done|by left]. Qed.

Lemma stripped_trans d1 d2 h1 h2 h3 :
  stripped d1 h1 h2 → stripped d2 h2 h3 → stripped (d1 ++ d2) h1 h3.
Proof.
  intros [H12 A12] [H23 A23]. split.
  - intros l Hl. destruct (H12 l Hl) as [Hl2 Hf2].
    destruct (H23 l Hl2) as [Hl3 Hf3]. split; [done|].
    destruct Hf2 as [Hf2|[Hd2 Hf2]], Hf3 as [Hf3|[Hd3 Hf3]].
    + left. congruence.
    + right. split; [apply elem_of_app; by right|]. congruence.
    + right. split; [apply elem_of_app; by left|]. congruence.
    + right. split; [apply elem_of_app; by left|].
      rewrite Hf3, Hf2. apply delete_delete_eq.
  - intros a ls. by rewrite A23, A12.
Qed.

Lemma stripped_alloc h f : stripped [] h (<[fresh (dom h) := Obj f]> h).
Proof.
  pose proof (fresh_unused h) as Hfresh. split.
  - intros l Hl.
    assert (Hne : fresh (dom h) ≠ l).
    { intros <-. unfold is_object in Hl. by rewrite Hfresh in Hl. }
    split.
    + unfold is_object. by rewrite lookup_insert_ne.
    + left. unfold fields_of. by rewrite lookup_insert_ne.
  - intros a ls. destruct (decide (fresh (dom h) = a)) as [<-|Hne].
    + rewrite lookup_insert_eq, Hfresh. split; intros; discriminate.
    + by rewrite lookup_insert_ne.
Qed.

Lemma stripped_delete h s : stripped [s] h (delete_field h s "cards").
Proof.
  split.
  - intros l Hl. split; [by rewrite is_object_delete_field|].
    rewrite fields_of_delete_field. destruct (decide (s = l)) as [<-|Hne].
    + right. split; [by left|done].
    + by left.
  - intros a ls. unfold delete_field.
    destruct (h !! s) as [[f|ls']|] eqn:Hs; [|done..].
    destruct (decide (s = a)) as [<-|Hne].
    + rewrite lookup_insert_eq, Hs. split; intros; discriminate.
    + by rewrite lookup_insert_ne.
Qed.

Lemma addCard_stripped st c :
  stripped [] (objects st) (objects (Mutation.addCard st c)).
Proof.
  unfold Mutation.addCard. destruct (findIndex _ (cards st)); simpl.
  - apply stripped_alloc.
  - apply stripped_refl.
Qed.

Lemma addStack_stripped st s :
  stripped [] (objects st) (objects (Mutation.addStack st s)).
Proof.
  unfold Mutation.addStack. destruct (findIndex _ (stacks st)); simpl.
  - apply stripped_alloc.
  - apply stripped_refl.
Qed.

Lemma stripped_is_object dropped h h' l :
  stripped dropped h h' → is_object h l = true → is_object h' l = true.
Proof. intros [H _] Hl. by apply H. Qed.

Lemma stripped_fields_kept dropped h h' l :
  stripped dropped h h' → is_object h l = true → l ∉ dropped →
  fields_of h' l = fields_of h l.
Proof.
  intros [H _] Hl Hnot. destruct (H l Hl) as [_ [Hf|[Hd _]]]; [done|].
  by destruct Hnot.
Qed.

Lemma stripped_get_field dropped h h' l k :
  stripped dropped h h' → is_object h l = true → k ≠ "cards" →
  get_field h' l k = get_field h l k.
Proof.
  intros [H _] Hl Hk. unfold get_field.
  destruct (H l Hl) as [_ [->|[_ ->]]]; [done|].
  by rewrite lookup_delete_ne.
Qed.

Lemma stripped_no_cards dropped h h' l :
  stripped dropped h h' → is_object h l = true →
  fields_of h l !! "cards" = None → fields_of h' l !! "cards" = None.
Proof.
  intros [H _] Hl Hc. destruct (H l Hl) as [_ [->|[_ ->]]]; [done|].
  apply lookup_delete_eq.
Qed.

Lemma stripped_for_in_elements dropped h h' v :
  stripped dropped h h' → for_in_elements h' v = for_in_elements h v.
Proof.
  intros [_ A]. destruct v as [| | | | |a]; try done. simpl.
  destruct (h !! a) as [[f|ls]|] eqn:Ha.
  - destruct (h' !! a) as [[f'|ls']|] eqn:Ha'; try done.
    apply A in Ha'. congruence.
  - apply A in Ha. by rewrite Ha.
  - destruct (h' !! a) as [[f'|ls']|] eqn:Ha'; try done.
    apply A in Ha'. congruence.
Qed.

Lemma stripped_cards_of dropped h h' l :
  stripped dropped h h' → is_object h l = true →
  cards_of h' l = cards_of h l ∨ cards_of h' l = [].
Proof.
  intros Hs Hl. unfold cards_of.
  rewrite (stripped_for_in_elements dropped h h') by done.
  destruct Hs as [H _]. unfold get_field.
  destruct (H l Hl) as [_ [->|[_ ->]]]; [by left|].
  right. by rewrite lookup_delete_eq.
Qed.

Lemma stripped_ids dropped h h' coll :
  stripped dropped h h' → Forall (λ s, is_object h s = true) coll →
  ids h' coll = ids h coll.
Proof.
  intros Hs Hcoll. unfold ids. apply list_fmap_ext. intros i x Hx.
  apply (stripped_get_field dropped); [done| |done].
  rewrite Forall_forall in Hcoll. apply Hcoll. by eapply list_elem_of_lookup_2.
Qed.

Lemma stripped_Forall_is_object dropped h h' (coll : list loc) :
  stripped dropped h h' → Forall (λ s, is_object h s = true) coll →
  Forall (λ s, is_object h' s = true) coll.
Proof.
  intros Hs Hcoll. eapply Forall_impl; [exact Hcoll|].
  intros x Hx. simpl in *. by eapply stripped_is_object.
Qed.

(** ** One stack of the answer *)

Lemma add_merging_other_id (rs : list (gmap string val)) x r :
  r ∈ add_merging rs x → id_of_record r ≠ id_of_record x → r ∈ rs.
Proof.
  unfold add_merging. destruct (findIndex _ rs) as [i|] eqn:Hi.
  - destruct (same_id_present rs x i Hi) as (e & He & Hide).
    intros Hr Hne. apply list_elem_of_lookup in Hr as [j Hj].
    destruct (decide (i = j)) as [<-|Hij].
    + rewrite list_lookup_alter_eq, He in Hj. simpl in Hj. injection Hj as <-.
      destruct Hne. by apply id_of_record_union.
    + rewrite list_lookup_alter_ne in Hj by done.
      by eapply list_elem_of_lookup_2.
  - intros Hr Hne. apply elem_of_app in Hr as [Hr|Hr]; [done|].
    apply list_elem_of_singleton in Hr as ->. done.
Qed.

Lemma addCards_ingest cs :
  ∀ st,
    Forall (λ c, is_object (objects st) c = true) (cards st) →
    Forall (λ c, is_object (objects st) c = true) cs →
    let st1 := foldl Mutation.addCard st cs in
    stripped [] (objects st) (objects st1)
    ∧ Forall (λ c, is_object (objects st1) c = true) (cards st1)
    ∧ stacks st1 = stacks st
    ∧ (∀ v, v ∈ ids (objects st) (cards st) →
            v ∈ ids (objects st1) (cards st1))
    ∧ (∀ c, c ∈ cs →
            get_field (objects st) c "id" ∈ ids (objects st1) (cards st1)).
Proof.
  induction cs as [|c cs IH]; intros st Hcards Hcs; simpl.
  - split; [apply stripped_refl|]. split; [done|]. split; [done|].
    split; [done|]. intros c Hc. by apply elem_of_nil in Hc.
  - apply Forall_cons in Hcs as [Hc Hcs].
    destruct (addCard_refines st c Hcards Hc) as (Hrec & _ & Hobj & Hst & _).
    pose proof (addCard_stripped st c) as Hs1.
    assert (Hcs' : Forall (λ c0, is_object (objects (Mutation.addCard st c)) c0
                                 = true) cs)
      by exact (stripped_Forall_is_object [] _ _ _ Hs1 Hcs).
    destruct (IH (Mutation.addCard st c) Hobj Hcs')
      as (Hs2 & Hobj2 & Hst2 & Hkeep & Hnew).
    assert (Hstep : ∀ v, v ∈ ids (objects st) (cards st) →
              v ∈ ids (objects (Mutation.addCard st c))
                    (cards (Mutation.addCard st c))).
    { intros v Hv. rewrite ids_records, Hrec. apply add_merging_keeps_ids.
      by rewrite <- ids_records. }
    split; [exact (stripped_trans [] [] _ _ _ Hs1 Hs2)|].
    split; [done|]. split; [by rewrite Hst2|].
    split; [intros v Hv; by apply Hkeep, Hstep|].
    intros c0 Hc0. apply elem_of_cons in Hc0 as [->|Hc0].
    + apply Hkeep. rewrite ids_records, Hrec, get_field_record.
      apply add_merging_has_id.
    + rewrite <- (stripped_get_field [] (objects st)
                    (objects (Mutation.addCard st c)) c0 "id"); [|done| |done].
      * by apply Hnew.
      * rewrite Forall_forall in Hcs. by apply Hcs.
Qed.

Lemma load_step st s rest :
  loadable st (s :: rest) →
  let cs := cards_of (objects st) s in
  let st1 := foldl Mutation.addCard st cs in
  let st2 :=
    Mutation.addStack
      (with_objects st1 (delete_field (objects st1) s "cards")) s in
  loadable st2 rest
  ∧ stripped [s] (objects st) (objects st2)
  ∧ (∀ v, v ∈ ids (objects st) (cards st) → v ∈ ids (objects st2) (cards st2))
  ∧ (∀ c, c ∈ cs →
          get_field (objects st) c "id" ∈ ids (objects st2) (cards st2))
  ∧ (∀ v, v ∈ ids (objects st) (stacks st) →
          v ∈ ids (objects st2) (stacks st2))
  ∧ get_field (objects st) s "id" ∈ ids (objects st2) (stacks st2)
  ∧ (∀ v, no_cards_under v st → no_cards_under v st2)
  ∧ fields_of (objects st2) s !! "cards" = None.
Proof.
  intros (Hstacks & Hcards & Hss) cs st1 st2.
  apply Forall_cons in Hss as [[Hs Hcs] Hrest].
  destruct (addCards_ingest cs st Hcards Hcs)
    as (S01 & Hcards1 & Hst1 & Hkeep1 & Hnew1).
  fold st1 in S01, Hcards1, Hst1, Hkeep1, Hnew1.
  set (h := objects st) in *. set (h1 := objects st1) in *.
  set (h1' := delete_field h1 s "cards").
  set (st1' := with_objects st1 h1') in *.
  pose proof (stripped_delete h1 s) as S11. fold h1' in S11.
  pose proof (stripped_trans _ _ _ _ _ S01 S11) as S01'. simpl in S01'.
  assert (Hstacks1' : Forall (λ x, is_object (objects st1') x = true)
                        (stacks st1')).
  { simpl. rewrite Hst1.
    exact (stripped_Forall_is_object [s] h h1' _ S01' Hstacks). }
  assert (Hs1' : is_object (objects st1') s = true)
    by exact (stripped_is_object [s] h h1' s S01' Hs).
  destruct (addStack_refines st1' s Hstacks1' Hs1')
    as (Hrec & _ & Hobj2 & Hc2 & _).
  pose proof (addStack_stripped st1' s) as S12.
  change (Mutation.addStack st1' s) with st2 in Hrec, Hobj2, Hc2, S12.
  simpl in Hrec, Hc2, S12.
  set (h2 := objects st2) in *.
  pose proof (stripped_trans _ _ _ _ _ S01' S12) as S02. simpl in S02.
  pose proof (stripped_trans _ _ _ _ _ S11 S12) as S1_2. simpl in S1_2.
  assert (Hnone : fields_of h1' s !! "cards" = None).
  { unfold h1'. rewrite fields_of_delete_field, decide_True by done.
    apply lookup_delete_eq. }
  assert (Hids_cards : ids h2 (cards st2) = ids h1 (cards st1)).
  { rewrite Hc2. by apply (stripped_ids [s]). }
  split.
  { split; [done|]. split.
    - rewrite Hc2. exact (stripped_Forall_is_object [s] h1 h2 _ S1_2 Hcards1).
    - eapply Forall_impl; [exact Hrest|]. intros x [Hx Hxc]. simpl.
      fold h2. split; [exact (stripped_is_object [s] h h2 x S02 Hx)|].
      destruct (stripped_cards_of [s] h h2 x S02 Hx) as [->| ->];
        [|constructor].
      exact (stripped_Forall_is_object [s] h h2 _ S02 Hxc). }
  split; [done|].
  split; [intros v Hv; rewrite Hids_cards; by apply Hkeep1|].
  split; [intros c Hc; rewrite Hids_cards; by apply Hnew1|].
  split.
  { intros v Hv. rewrite ids_records, Hrec. apply add_merging_keeps_ids.
    rewrite <- ids_records, Hst1. by rewrite (stripped_ids [s] h h1'). }
  split.
  { rewrite ids_records, Hrec.
    rewrite <- (stripped_get_field [s] h h1' s "id") by done.
    rewrite get_field_record. apply add_merging_has_id. }
  split; [|by apply (stripped_no_cards [] h1' h2)].
  intros v Hno x Hx Hidx.
  assert (Hin : fields_of h2 x ∈ records h2 (stacks st2))
    by (by apply list_elem_of_fmap_2).
  rewrite Hrec in Hin. rewrite get_field_record in Hidx.
  assert (Hold : ∀ r, r ∈ records h1' (stacks st1) → id_of_record r = v →
                      r !! "cards" = None).
  { intros r Hr Hidr. apply list_elem_of_fmap in Hr as (y & -> & Hy).
    rewrite Hst1 in Hy.
    assert (Hyobj : is_object h y = true).
    { rewrite Forall_forall in Hstacks. by apply Hstacks. }
    apply (stripped_no_cards [s] h h1'); [done..|].
    apply Hno; [done|]. fold h.
    rewrite <- (stripped_get_field [s] h h1' y "id") by done.
    by rewrite get_field_record. }
  destruct (decide (id_of_record (fields_of h1' s) = v)) as [Heq|Hne].
  - fold h2 in Hidx |- *.
    apply (add_merging_field_absent (records h1' (stacks st1))
             (fields_of h1' s) "cards" Hnone) with (r := fields_of h2 x);
      [|done|by rewrite Hidx, Heq].
    intros r Hr Hidr. apply Hold; [done|]. by rewrite Hidr, Heq.
  - fold h2 in Hidx |- *. apply Hold; [|done].
    apply (add_merging_other_id _ _ _ Hin). by rewrite Hidx.
Qed.

(** ** The whole answer *)

Lemma for_each_app {A} (l1 l2 : list A) (body : A → M unit) w :
  for_each (l1 ++ l2) body w
  = match for_each l1 body w with
    | (Ok _, w') => for_each l2 body w'
    | (Throw e, w') => (Throw e, w')
    end.
Proof.
  revert w. induction l1 as [|x l1 IH]; intros w; [done|].
  rewrite <- app_comm_cons, !for_each_cons.
  destruct (body x w) as [[[]|e] w']; [apply IH|done].
Qed.

Lemma load_loop ss :
  ∀ w rest,
    loadable (store w) (ss ++ rest) →
    ∃ st' t',
      for_each ss (λ stack,
          st ← get_state;
          for_each
            (for_in_elements (objects st) (get_field (objects st) stack "cards"))
            (λ card, call (context "commit") (AddCard card)) ;;
          st ← get_state;
          put_objects (delete_field (objects st) stack "cards") ;;
          call (context "commit") (AddStack stack)) w
      = (Ok tt, {| store := st'; trace := trace w ++ t' |})
      ∧ remote_calls t' = []
      ∧ loadable st' rest
      ∧ stripped ss (objects (store w)) (objects st')
      ∧ (∀ v, v ∈ ids (objects (store w)) (cards (store w)) →
              v ∈ ids (objects st') (cards st'))
      ∧ (∀ v, v ∈ ids (objects (store w)) (stacks (store w)) →
              v ∈ ids (objects st') (stacks st'))
      ∧ (∀ v, no_cards_under v (store w) → no_cards_under v st').
Proof.
  induction ss as [|s ss IH]; intros w rest Hload.
  - exists (store w), []. destruct w as [st t]. simpl. rewrite app_nil_r.
    split; [done|]. split; [done|]. split; [done|].
    split; [apply stripped_refl|]. done.
  - rewrite for_each_cons. cbv beta. rewrite loadStacks_body_run.
    destruct w as [st t]. cbn [store trace] in *.
    rewrite <- app_comm_cons in Hload.
    pose proof (load_step st s (ss ++ rest) Hload) as Hstep.
    unfold cards_of in Hstep at 1. cbv zeta in Hstep.
    set (cs := for_in_elements (objects st) (get_field (objects st) s "cards"))
      in *.
    set (st2 := Mutation.addStack _ s) in *.
    destruct Hstep as (Hload2 & S1 & Hc1 & _ & Hs1 & _ & Hno1 & _).
    destruct (IH {| store := st2;
                    trace := (t ++ (Committed ∘ AddCard <$> cs))
                             ++ [Committed (AddStack s)] |} rest Hload2)
      as (st' & t' & Hrun & Hcalls & Hload' & S2 & Hc2 & Hs2 & Hno2).
    cbn [store trace] in *.
    exists st', ((Committed ∘ AddCard <$> cs) ++ [Committed (AddStack s)] ++ t').
    destruct (commits_addCards cs) as [_ Hcr].
    split.
    { rewrite Hrun. f_equal. f_equal. by rewrite <- !app_assoc. }
    split; [by rewrite !remote_calls_app, Hcr, Hcalls|].
    split; [done|].
    split; [exact (stripped_trans [s] ss _ _ _ S1 S2)|].
    split; [intros v Hv; by apply Hc2, Hc1|].
    split; [intros v Hv; by apply Hs2, Hs1|].
    intros v Hv. by apply Hno2, Hno1.
Qed.

(** C6. Nested ingest: a bulk load resolves with a sequence of stacks that
    contains the stack [{id: 1, cards: [{id: 10}, {id: 11}]}], on a store
    whose stacks and cards are objects, as are the stacks of the answer and
    the cards they carry. The callback does not raise. It commits the two
    cards one by one and then the stack, in that order; afterwards the card
    store has cards with the ids 10 and 11, the stack store has a record
    with the id 1, and the stack object of the answer has no [cards] field
    left. The stored records with the id 1 have no [cards] field provided
    no stored stack with the id 1 had one before the load: the add merges,
    so the [cards] of a record that was stored with the id 1 stay. *)
Theorem loadStacks_nested_ingest st board ss stack arr c1 c2 :
  let h := objects st in
  let after :=
    start_and_settle (LoadStacksAction board) (Resolved (Entities ss)) st in
  let st' := store_after after in
  loadable st ss →
  stack ∈ ss →
  get_field h stack "id" = VNum 1 →
  get_field h stack "cards" = VRef arr →
  h !! arr = Some (Arr [c1; c2]) →
  get_field h c1 "id" = VNum 10 →
  get_field h c2 "id" = VNum 11 →
  after.1 = Ok tt
  ∧ (∃ t1 t2,
       commits (trace_after after)
       = t1 ++ [AddCard c1; AddCard c2; AddStack stack] ++ t2)
  ∧ VNum 10 ∈ ids (objects st') (cards st')
  ∧ VNum 11 ∈ ids (objects st') (cards st')
  ∧ VNum 1 ∈ ids (objects st') (stacks st')
  ∧ fields_of (objects st') stack !! "cards" = None
  ∧ (no_cards_under (VNum 1) st → no_cards_under (VNum 1) st').
Proof.
  intros h after st' Hload Hin Hid Hcs Harr Hid1 Hid2. subst st' after.
  destruct (list_elem_of_split_l ss stack Hin) as (pre & post & -> & Hnotin).
  (* what the store and the answer are before the load *)
  assert (Hstack : is_object h stack = true
                   ∧ Forall (λ c, is_object h c = true) (cards_of h stack)).
  { destruct Hload as (_ & _ & Hss). apply Forall_app in Hss as [_ Hss].
    by apply Forall_cons in Hss as [Hss _]. }
  destruct Hstack as [Hstack Hcards_stack].
  assert (Hcards_of : cards_of h stack = [c1; c2]).
  { unfold cards_of. rewrite Hcs. simpl. by rewrite Harr. }
  rewrite Hcards_of in Hcards_stack.
  apply Forall_cons in Hcards_stack as [Hc1 Hcards_stack].
  apply Forall_cons in Hcards_stack as [Hc2 _].
  (* the stacks before [stack] *)
  set (w0 := {| store := st;
                trace := [Requested (LoadStacks (get_field h board "id"))] |}).
  destruct (load_loop pre w0 (stack :: post) Hload)
    as (st_a & ta & Hrun_a & _ & Hload_a & S_a & Hc_a & Hs_a & Hno_a).
  cbn [store trace w0] in Hload_a, S_a, Hc_a, Hs_a, Hno_a. fold h in S_a.
  set (h_a := objects st_a) in *.
  assert (Hfields_a : fields_of h_a stack = fields_of h stack)
    by (by apply (stripped_fields_kept pre)).
  assert (Harr_a : h_a !! arr = Some (Arr [c1; c2])).
  { destruct S_a as [_ A]. by apply A. }
  assert (Hcs_a : for_in_elements h_a (get_field h_a stack "cards") = [c1; c2]).
  { unfold get_field. rewrite Hfields_a. fold (get_field h stack "cards").
    rewrite Hcs. simpl. by rewrite Harr_a. }
  (* [stack] itself *)
  pose proof (load_step st_a stack post Hload_a) as Hstep.
  unfold cards_of in Hstep at 1. cbv zeta in Hstep. fold h_a in Hstep.
  rewrite Hcs_a in Hstep.
  set (st_b := Mutation.addStack _ stack) in Hstep.
  destruct Hstep as (Hload_b & S_b & Hc_b & Hnew_b & Hs_b & Hid_b & Hno_b & Hnone_b).
  (* the stacks after it *)
  rewrite <- (app_nil_r post) in Hload_b.
  destruct (load_loop post
              {| store := st_b;
                 trace := ((trace w0 ++ ta)
                           ++ (Committed ∘ AddCard <$> [c1; c2]))
                          ++ [Committed (AddStack stack)] |} [] Hload_b)
    as (st' & tb & Hrun_b & _ & _ & S_c & Hc_c & Hs_c & Hno_c).
  cbn [store trace] in Hrun_b, S_c, Hc_c, Hs_c, Hno_c.
  assert (Hrun :
    start_and_settle (LoadStacksAction board)
      (Resolved (Entities (pre ++ stack :: post))) st
    = (Ok tt,
       {| store := st';
          trace := (((trace w0 ++ ta) ++ (Committed ∘ AddCard <$> [c1; c2]))
                    ++ [Committed (AddStack stack)]) ++ tb |})).
  { change (start_and_settle (LoadStacksAction board)
              (Resolved (Entities (pre ++ stack :: post))) st)
      with (for_each (pre ++ stack :: post) (λ stack,
          st ← get_state;
          for_each
            (for_in_elements (objects st) (get_field (objects st) stack "cards"))
            (λ card, call (context "commit") (AddCard card)) ;;
          st ← get_state;
          put_objects (delete_field (objects st) stack "cards") ;;
          call (context "commit") (AddStack stack)) w0).
    rewrite for_each_app, Hrun_a, for_each_cons. cbv beta.
    rewrite loadStacks_body_run. cbn [store trace]. fold h_a.
    rewrite Hcs_a. by rewrite <- Hrun_b. }
  rewrite Hrun. unfold store_after, trace_after. cbn [fst snd store trace].
  split; [done|].
  split.
  { exists (commits ta), (commits tb).
    rewrite !commits_app. simpl. by rewrite <- !app_assoc. }
  split.
  { apply Hc_c. rewrite <- Hid1.
    rewrite <- (stripped_get_field pre h h_a c1 "id") by done.
    apply Hnew_b. left. }
  split.
  { apply Hc_c. rewrite <- Hid2.
    rewrite <- (stripped_get_field pre h h_a c2 "id") by done.
    apply Hnew_b. right. left. }
  split.
  { apply Hs_c. rewrite <- Hid.
    by rewrite <- (stripped_get_field pre h h_a stack "id"). }
  split.
  { apply (stripped_no_cards post (objects st_b)); [done| |done].
    apply (stripped_is_object [stack] h_a); [done|].
    by apply (stripped_is_object pre h). }
  intros Hno. by apply Hno_c, Hno_b, Hno_a.
Qed.

Lemma loadStacks_nested_ingest_witness :
  ids (objects (store_after
                  (start_and_settle (LoadStacksAction BulkExample.board)
                     (Resolved (Entities BulkExample.answer))
                     BulkExample.before_load)))
      (cards (store_after
                (start_and_settle (LoadStacksAction BulkExample.board)
                   (Resolved (Entities BulkExample.answer))
                   BulkExample.before_load)))
    = [VNum 20; VNum 10; VNum 11]
  ∧ records (objects (store_after
                  (start_and_settle (LoadStacksAction BulkExample.board)
                     (Resolved (Entities BulkExample.answer))
                     BulkExample.before_load)))
      (stacks (store_after
                (start_and_settle (LoadStacksAction BulkExample.board)
                   (Resolved (Entities BulkExample.answer))
                   BulkExample.before_load)))
    = [<["id" := VNum 1]> (<["title" := VStr "To do"]> ∅);
       <["id" := VNum 2]> ∅]
  ∧ no_cards_under (VNum 1)
      (store_after
         (start_and_settle (LoadStacksAction BulkExample.board)
            (Resolved (Entities BulkExample.answer))
            BulkExample.before_load)).
Proof.
  destruct (loadStacks_nested_ingest BulkExample.before_load BulkExample.board
              BulkExample.answer BulkExample.loaded_stack
              BulkExample.loaded_cards BulkExample.card10 BulkExample.card11)
    as (_ & _ & _ & _ & _ & _ & Hclean).
  - split; [repeat constructor|]. split; [constructor|].
    repeat constructor.
  - right. left.
  - reflexivity.
  - reflexivity.
  - reflexivity.
  - reflexivity.
  - reflexivity.
  - split; [vm_compute; reflexivity|]. split; [vm_compute; reflexivity|].
    apply Hclean. intros s Hs _.
    apply list_elem_of_singleton in Hs as ->. reflexivity.
Defined.

(** C6, against the specification. The record of stack 1 keeps a [cards]
    field through a bulk load when it had one before: the load strips the
    stack of the answer and [addStack] merges it over the stored record,
    whose [cards] stay. *)
Lemma loadStacks_keeps_stale_cards :
  records (objects StaleExample.before_load) (stacks StaleExample.before_load)
    = [<["id" := VNum 1]> (<["cards" := VRef StaleExample.old_cards]> ∅)]
  ∧ (start_and_settle (LoadStacksAction StaleExample.board)
       (Resolved (Entities [StaleExample.loaded_stack]))
       StaleExample.before_load).1
    = Ok tt
  ∧ commits
      (trace_after
         (start_and_settle (LoadStacksAction StaleExample.board)
            (Resolved (Entities [StaleExample.loaded_stack]))
            StaleExample.before_load))
    = [AddCard StaleExample.card10; AddCard StaleExample.card11;
       AddStack StaleExample.loaded_stack]
  ∧ records
      (objects (store_after
                  (start_and_settle (LoadStacksAction StaleExample.board)
                     (Resolved (Entities [StaleExample.loaded_stack]))
                     StaleExample.before_load)))
      (stacks (store_after
                 (start_and_settle (LoadStacksAction StaleExample.board)
                    (Resolved (Entities [StaleExample.loaded_stack]))
                    StaleExample.before_load)))
    = [<["id" := VNum 1]> (<["cards" := VRef StaleExample.old_cards]> ∅)].
Proof. repeat split; vm_compute; reflexivity. Qed.
